(** * A fixed-size worker pool: src/src/ThreadPool.cpp

    The class [ThreadPool] owns a vector of worker threads, a FIFO queue of
    type-erased tasks, a mutex, a condition variable and a [stop] flag.
    [submit] wraps a callable in a [std::packaged_task], pushes the wrapper
    on the queue and hands the matching [std::future] back; every worker
    runs the loop of lines 16-39; the destructor sets [stop], broadcasts and
    joins.

    The embedding is an interleaving semantics.  A state holds the members
    of the pool, the control point of every worker thread, the control point
    of the thread that runs the destructor, the number of callers of
    [submit] between its unlock and its [notify_one], and the shared states
    that packaged tasks and futures co-own.  Every region that the source
    runs under [queue_mutex] is one atomic step, so mutual exclusion is the
    atomicity of a step; what a thread does outside of such a region is a
    step of its own, except that what [submit] does before it takes the
    lock, which touches objects of the call only, belongs to the step of its
    critical section.  A thread blocked in [condition.wait] is a worker at
    the control point [Waiting]; it moves again when it is notified or
    woken spuriously.  A step also reports the library calls it performs,
    in source order, so that a run has a trace.

    The program [main] of the same file (lines 90-109) is embedded on top
    of this: a process made of the main thread, which submits two tasks,
    prints their results and destroys the pool, and of the four workers of
    its pool. *)

From Stdlib Require Import ZArith Lia.
From stdpp Require Import base option list gmap strings.

(** ** Values, failures and the shared state of a future *)

(** Error conditions of [std::future_error]. *)
Inductive future_errc :=
| broken_promise
| future_already_retrieved
| promise_already_satisfied
| no_state.

(** What a C++ computation can throw here: the [std::runtime_error] of
    [submit], the [std::future_error] of the future library, and both are
    also what a task body may throw. *)
Inductive exn :=
| runtime_error (what : string)
| future_error (code : future_errc).

(** A callable bound to its arguments (lines 50-52), described by what a
    call of it does: return a value or throw. *)
Inductive callable :=
| Returns (v : Z)
| Throws (e : exn).

(** The content of a shared state once it is ready. *)
Inductive outcome :=
| Value (v : Z)
| Exception (e : exn).

Inductive shared_state :=
| Pending
| Ready (o : outcome).

(** A [std::packaged_task]: the stored callable and the address of its
    shared state.  The lambda of line 62 captures the [shared_ptr] to the
    packaged task and does nothing but call it, so queue entries are
    packaged tasks. *)
Record packaged_task := PackagedTask {
  pt_fn : callable;
  pt_state : nat
}.

#[global] Instance future_errc_eq_dec : EqDecision future_errc.
Proof. solve_decision. Defined.
#[global] Instance exn_eq_dec : EqDecision exn.
Proof. solve_decision. Defined.
#[global] Instance callable_eq_dec : EqDecision callable.
Proof. solve_decision. Defined.
#[global] Instance outcome_eq_dec : EqDecision outcome.
Proof. solve_decision. Defined.
#[global] Instance shared_state_eq_dec : EqDecision shared_state.
Proof. solve_decision. Defined.
#[global] Instance packaged_task_eq_dec : EqDecision packaged_task.
Proof. solve_decision. Defined.

(** Calling the stored callable. *)
Definition call (f : callable) : outcome :=
  match f with
  | Returns v => Value v
  | Throws e => Exception e
  end.

(** [packaged_task::operator()] (C++ standard, [futures.task.members]):
    runs the stored callable and records its value, or the exception it
    threw, in the shared state; the exception is caught there and does not
    leave the call.  A second call, or a call without shared state, throws
    [std::future_error] to the caller. *)
Definition invoke (t : packaged_task) (h : gmap nat shared_state)
  : gmap nat shared_state * option exn :=
  match h !! pt_state t with
  | Some Pending => (<[pt_state t := Ready (call (pt_fn t))]> h, None)
  | Some (Ready _) => (h, Some (future_error promise_already_satisfied))
  | None => (h, Some (future_error no_state))
  end.

(** [~packaged_task] abandons the shared state ([futures.task.members],
    [futures.state]): a state that is not ready receives a
    [std::future_error] with [broken_promise] and becomes ready; a ready
    state is left alone. *)
Definition abandon (t : packaged_task) (h : gmap nat shared_state)
  : gmap nat shared_state :=
  match h !! pt_state t with
  | Some Pending =>
      <[pt_state t := Ready (Exception (future_error broken_promise))]> h
  | _ => h
  end.

(** [std::future::get] on the future of shared state [a]: [None] while the
    call blocks, then the stored value ([inr]) or the stored exception
    rethrown ([inl]). *)
Definition future_get (a : nat) (h : gmap nat shared_state)
  : option (exn + Z) :=
  match h !! a with
  | Some (Ready (Value v)) => Some (inr v)
  | Some (Ready (Exception e)) => Some (inl e)
  | Some Pending => None
  | None => Some (inl (future_error no_state))
  end.

(** ** Threads, control points and the pool *)

(** A thread that calls [submit], the worker at index [w] of [workers], and
    the thread that destroys the pool. *)
Inductive thread :=
| Caller
| Worker (w : nat)
| Owner.

(** Library calls and member accesses a step performs. *)
Inductive action :=
| Lock
| Unlock
| Wait
| Emplace (t : packaged_task)
| Pop (t : packaged_task)
| NotifyOne
| NotifyAll
| SetStop
| Invoke (t : packaged_task)
| Exit
| Join (w : nat).

Definition event : Type := thread * action.

(** Control point of a worker thread (lines 16-39).
    - [AtLock]: at line 20, about to take the mutex and to evaluate the
      predicate of [wait]; a worker woken out of [wait] is here as well;
    - [Waiting]: blocked in [condition.wait], the mutex released;
    - [Holding t]: past line 35 with [t] moved out of the queue, about to
      call it;
    - [Returned]: the thread function has returned at line 29;
    - [Terminated e]: the exception [e] has left the thread function, for
      which the runtime calls [std::terminate]. *)
Inductive wstate :=
| AtLock
| Waiting
| Holding (t : packaged_task)
| Returned
| Terminated (e : exn).

(** Control point of the thread that destroys the pool (lines 69-78).
    - [NotCalled]: the destructor has not started;
    - [StopSet]: past line 73, about to broadcast;
    - [Joining i]: in the loop of lines 75-77, about to join worker [i];
    - [Done]: the body of the destructor has ended. *)
Inductive dtor_pc :=
| NotCalled
| StopSet
| Joining (i : nat)
| Done.

#[global] Instance thread_eq_dec : EqDecision thread.
Proof. solve_decision. Defined.
#[global] Instance action_eq_dec : EqDecision action.
Proof. solve_decision. Defined.
#[global] Instance wstate_eq_dec : EqDecision wstate.
Proof. solve_decision. Defined.
#[global] Instance dtor_pc_eq_dec : EqDecision dtor_pc.
Proof. solve_decision. Defined.

(** The members [workers], [tasks] and [stop] (lines 81-86), the shared
    states on the heap, the progress of the destructor, and the number of
    callers of [submit] that have left the critical section of lines 55-63
    and have not yet reached the [notify_one] of line 64.  [queue_mutex]
    has no field: it is free between steps.  [condition] has none either:
    its waiters are the workers at [Waiting]. *)
Record pool := Pool {
  workers : list wstate;
  tasks : list packaged_task;
  stop : bool;
  heap : gmap nat shared_state;
  dtor : dtor_pc;
  notifying : nat
}.

Definition set_workers (ws : list wstate) (s : pool) : pool :=
  Pool ws (tasks s) (stop s) (heap s) (dtor s) (notifying s).
Definition set_tasks (q : list packaged_task) (s : pool) : pool :=
  Pool (workers s) q (stop s) (heap s) (dtor s) (notifying s).
Definition set_stop (b : bool) (s : pool) : pool :=
  Pool (workers s) (tasks s) b (heap s) (dtor s) (notifying s).
Definition set_heap (h : gmap nat shared_state) (s : pool) : pool :=
  Pool (workers s) (tasks s) (stop s) h (dtor s) (notifying s).
Definition set_dtor (d : dtor_pc) (s : pool) : pool :=
  Pool (workers s) (tasks s) (stop s) (heap s) d (notifying s).
Definition set_notifying (k : nat) (s : pool) : pool :=
  Pool (workers s) (tasks s) (stop s) (heap s) (dtor s) k.

(** [tasks.empty()]. *)
Definition empty_queue (q : list packaged_task) : bool :=
  match q with
  | [] => true
  | _ :: _ => false
  end.

(** ** The constructor (lines 12-42)

    [stop] is initialised to [false] and the loop starts [num_threads]
    threads, each at the top of its [while (true)].  The body has no test on
    [num_threads] and no [throw].  [ThreadPool n] is the pool once the
    constructor has returned; [construct] below is the call, which the
    system can make fail. *)
Definition ThreadPool (num_threads : nat) : pool :=
  {| workers := replicate num_threads AtLock;
     tasks := [];
     stop := false;
     heap := ∅;
     dtor := NotCalled;
     notifying := 0 |}.

(** How a call of the constructor ends.  The one statement of the
    constructor that can fail is line 15: [emplace_back] may have to
    allocate, and the constructor of [std::thread] throws
    [std::system_error] when the thread cannot be started
    ([thread.thread.constr]).
    - [Constructed s]: the object exists, in state [s];
    - [StartFailed]: the first iteration has failed; its exception leaves
      the constructor and no object exists;
    - [Aborted]: a later iteration has failed.  Its exception unwinds the
      constructor, which destroys the member [workers] with the threads
      started so far; destroying a joinable [std::thread] calls
      [std::terminate] ([thread.thread.destr]). *)
Inductive construction :=
| Constructed (s : pool)
| StartFailed
| Aborted.

(** The loop of lines 14-41 from iteration [i] on, with [todo] iterations
    to go and [ws] the workers started so far.  Whether iteration [i] can
    start its thread is up to the system: [can_start i].  The result is the
    vector of workers, or the iteration that failed. *)
Fixpoint start_workers (can_start : nat → bool) (i todo : nat)
    (ws : list wstate) : list wstate + nat :=
  match todo with
  | 0 => inl ws
  | S todo' =>
      if can_start i
      then start_workers can_start (S i) todo' (ws ++ [AtLock])
      else inr i
  end.

(** The constructor as a call that can fail.  [num_threads] is the value
    of the [size_t] argument, a natural number below the bound of that
    type; nothing in the body looks at it except the test of the loop, and
    what is proved of [construct] for every natural number holds for
    every value of the type. *)
Definition construct (can_start : nat → bool) (num_threads : nat)
  : construction :=
  match start_workers can_start 0 num_threads [] with
  | inl ws =>
      Constructed {| workers := ws;
                     tasks := [];
                     stop := false;
                     heap := ∅;
                     dtor := NotCalled;
                     notifying := 0 |}
  | inr 0 => StartFailed
  | inr (S _) => Aborted
  end.

(** ** The condition variable *)

(** [condition.notify_one()]: unblocks one waiting thread when there is one.
    Which one is the implementation's choice, given here by [pick]; [None]
    means that [pick] is not a choice the implementation could make.  The
    unblocked worker retakes the mutex and evaluates the predicate again,
    which is what a worker at [AtLock] does. *)
Definition notify_one (pick : nat) (ws : list wstate) : option (list wstate) :=
  match ws !! pick with
  | Some Waiting => Some (<[pick := AtLock]> ws)
  | _ => if decide (Waiting ∈ ws) then None else Some ws
  end.

(** [condition.notify_all()]: unblocks every waiting thread. *)
Definition notify_all (ws : list wstate) : list wstate :=
  (λ w, match w with Waiting => AtLock | _ => w end) <$> ws.

(** ** submit (lines 46-66)

    The call is two steps for the scheduler: everything up to the end of
    the critical section, and the [notify_one] that follows the unlock.
    Other threads may move in between. *)

(** Lines 47-63.  The result is the exception thrown or the future. *)
Definition submit_enqueue (f : callable) (s : pool)
  : pool * list event * (exn + nat) :=
  (* line 50: make_shared<packaged_task> allocates a fresh shared state *)
  let a := fresh (dom (heap s)) in
  let task := {| pt_fn := f; pt_state := a |} in
  (* line 54: the future refers to the same shared state *)
  let res := a in
  let h := <[a := Pending]> (heap s) in
  (* lines 56-63 *)
  if stop s then
    (* line 59: the throw unwinds lock, res and task, the only owners of
       the shared state *)
    (set_heap (delete a h) s,
     [(Caller, Lock); (Caller, Unlock)],
     inl (runtime_error "submit on stopped ThreadPool"))
  else
    (* line 62, and the lock is released at line 63 *)
    ({| workers := workers s;
        tasks := tasks s ++ [task];
        stop := stop s;
        heap := h;
        dtor := dtor s;
        notifying := S (notifying s) |},
     [(Caller, Lock); (Caller, Emplace task); (Caller, Unlock)],
     inr res).

(** Line 64, by one of the callers that have left the critical section.
    [None] when there is no such caller, or when [pick] is not a choice
    [notify_one] could make. *)
Definition submit_notify (pick : nat) (s : pool) : option (pool * list event) :=
  match notifying s with
  | 0 => None
  | S k =>
      ws ← notify_one pick (workers s);
      Some (set_notifying k (set_workers ws s), [(Caller, NotifyOne)])
  end.

(** The whole call, lines 47-65, with no step of another thread between
    the unlock and the [notify_one]. *)
Definition submit (f : callable) (pick : nat) (s : pool)
  : option (pool * list event * (exn + nat)) :=
  match submit_enqueue f s with
  | (s1, ev1, inl e) => Some (s1, ev1, inl e)
  | (s1, ev1, inr res) =>
      match submit_notify pick s1 with
      | Some (s2, ev2) => Some (s2, ev1 ++ ev2, inr res)
      | None => None
      end
  end.

(** ** The worker loop (lines 16-39)

    One call is one scheduling step of worker [w]: from [AtLock] the
    critical section of lines 20-35, from [Holding] the call of line 38.
    [None] means that the worker cannot move: it is blocked, has returned,
    or does not exist. *)
Definition worker_step (w : nat) (s : pool) : option (pool * list event) :=
  match workers s !! w with
  | Some AtLock =>
      (* lines 23-25: wait while the predicate is false *)
      if negb (stop s || negb (empty_queue (tasks s))) then
        Some (set_workers (<[w := Waiting]> (workers s)) s,
              [(Worker w, Lock); (Worker w, Wait)])
      (* lines 28-30 *)
      else if stop s && empty_queue (tasks s) then
        Some (set_workers (<[w := Returned]> (workers s)) s,
              [(Worker w, Lock); (Worker w, Unlock); (Worker w, Exit)])
      else
        (* lines 33-34 *)
        match tasks s with
        | t :: q =>
            Some (set_workers (<[w := Holding t]> (workers s)) (set_tasks q s),
                  [(Worker w, Lock); (Worker w, Pop t); (Worker w, Unlock)])
        | [] => None
        end
  | Some (Holding t) =>
      (* line 38: an exception leaving task() leaves the thread function *)
      match invoke t (heap s) with
      | (h, None) =>
          Some (set_workers (<[w := AtLock]> (workers s)) (set_heap h s),
                [(Worker w, Invoke t)])
      | (h, Some e) =>
          Some (set_workers (<[w := Terminated e]> (workers s)) (set_heap h s),
                [(Worker w, Invoke t)])
      end
  | _ => None
  end.

(** A spurious wake-up of worker [w] out of [condition.wait]. *)
Definition wake (w : nat) (s : pool) : option (pool * list event) :=
  match workers s !! w with
  | Some Waiting => Some (set_workers (<[w := AtLock]> (workers s)) s, [])
  | _ => None
  end.

(** ** The destructor (lines 69-78)

    Three kinds of steps: the critical section that sets [stop], the
    broadcast, and one step per iteration of the join loop; [join] cannot
    move until the joined thread has returned. *)
Definition dtor_step (s : pool) : option (pool * list event) :=
  match dtor s with
  | NotCalled =>
      Some (set_dtor StopSet (set_stop true s),
            [(Owner, Lock); (Owner, SetStop); (Owner, Unlock)])
  | StopSet =>
      Some (set_dtor (Joining 0) (set_workers (notify_all (workers s)) s),
            [(Owner, NotifyAll)])
  | Joining i =>
      match workers s !! i with
      | None => Some (set_dtor Done s, [])
      | Some Returned => Some (set_dtor (Joining (S i)) s, [(Owner, Join i)])
      | Some _ => None
      end
  | Done => None
  end.

(** After the destructor body the members are destroyed ([class.dtor]);
    destroying [tasks] destroys the queued lambdas, each the last owner of
    its packaged task, and so the packaged tasks.  What is left of the
    state is the heap of shared states, which the futures still own. *)
Definition destroy_members (s : pool) : gmap nat shared_state :=
  foldr abandon (heap s) (tasks s).

(** ** Runs *)

(** What the scheduler and the environment choose at each step: a caller
    runs [submit] up to its unlock, a caller that has done so issues its
    [notify_one], a worker moves, a waiting worker wakes spuriously, or the
    destructor moves. *)
Inductive label :=
| LSubmit (f : callable)
| LNotify (pick : nat)
| LWorker (w : nat)
| LWake (w : nat)
| LDtor.

Definition step (l : label) (s : pool) : option (pool * list event) :=
  match l with
  | LSubmit f => Some ((submit_enqueue f s).1.1, (submit_enqueue f s).1.2)
  | LNotify pick => submit_notify pick s
  | LWorker w => worker_step w s
  | LWake w => wake w s
  | LDtor => dtor_step s
  end.

Fixpoint run (ls : list label) (s : pool) (tr : list event)
  : option (pool * list event) :=
  match ls with
  | [] => Some (s, tr)
  | l :: ls' =>
      match step l s with
      | Some (s', ev) => run ls' s' (tr ++ ev)
      | None => None
      end
  end.

(** States and traces of a pool built with [n] workers. *)
Inductive reachable (n : nat) : pool → list event → Prop :=
| reach_init : reachable n (ThreadPool n) []
| reach_step s tr l s' ev :
    reachable n s tr → step l s = Some (s', ev) → reachable n s' (tr ++ ev).

(** ** Reading a trace *)

Definition emplaced (e : event) : option packaged_task :=
  match e.2 with Emplace t => Some t | _ => None end.
Definition popped (e : event) : option packaged_task :=
  match e.2 with Pop t => Some t | _ => None end.
Definition called (e : event) : option packaged_task :=
  match e.2 with Invoke t => Some t | _ => None end.

(** Tasks accepted by [submit], removed from the queue, and run, each in
    the order of the trace. *)
Definition enqueued (tr : list event) : list packaged_task := omap emplaced tr.
Definition dequeued (tr : list event) : list packaged_task := omap popped tr.
Definition invoked (tr : list event) : list packaged_task := omap called tr.

(** Tasks that workers have taken off the queue and not yet run. *)
Definition held (w : wstate) : option packaged_task :=
  match w with Holding t => Some t | _ => None end.
Definition holding (ws : list wstate) : list packaged_task := omap held ws.

(** ** The steps as a relation

    The same steps, one rule per path through the source.  The functions
    above decide which rule applies; the proofs below go by cases on the
    rule. *)

Definition ev_reject : list event :=
  [(Caller, Lock); (Caller, Unlock)].
Definition ev_accept (t : packaged_task) : list event :=
  [(Caller, Lock); (Caller, Emplace t); (Caller, Unlock)].
Definition ev_wait (w : nat) : list event :=
  [(Worker w, Lock); (Worker w, Wait)].
Definition ev_exit (w : nat) : list event :=
  [(Worker w, Lock); (Worker w, Unlock); (Worker w, Exit)].
Definition ev_pop (w : nat) (t : packaged_task) : list event :=
  [(Worker w, Lock); (Worker w, Pop t); (Worker w, Unlock)].
Definition ev_stop : list event :=
  [(Owner, Lock); (Owner, SetStop); (Owner, Unlock)].

Inductive transition : pool → list event → pool → Prop :=
| t_reject ws q h d k :
    transition (Pool ws q true h d k) ev_reject (Pool ws q true h d k)
| t_accept ws q h d k f :
    transition (Pool ws q false h d k)
      (ev_accept (PackagedTask f (fresh (dom h))))
      (Pool ws (q ++ [PackagedTask f (fresh (dom h))]) false
            (<[fresh (dom h) := Pending]> h) d (S k))
| t_notify ws ws' q b h d k pick :
    notify_one pick ws = Some ws' →
    transition (Pool ws q b h d (S k)) [(Caller, NotifyOne)]
      (Pool ws' q b h d k)
| t_wait ws h d k w :
    ws !! w = Some AtLock →
    transition (Pool ws [] false h d k) (ev_wait w)
      (Pool (<[w := Waiting]> ws) [] false h d k)
| t_exit ws h d k w :
    ws !! w = Some AtLock →
    transition (Pool ws [] true h d k) (ev_exit w)
      (Pool (<[w := Returned]> ws) [] true h d k)
| t_pop ws t q b h d k w :
    ws !! w = Some AtLock →
    transition (Pool ws (t :: q) b h d k) (ev_pop w t)
      (Pool (<[w := Holding t]> ws) q b h d k)
| t_invoke ws q b h d k w t :
    ws !! w = Some (Holding t) →
    h !! pt_state t = Some Pending →
    transition (Pool ws q b h d k) [(Worker w, Invoke t)]
      (Pool (<[w := AtLock]> ws) q b
            (<[pt_state t := Ready (call (pt_fn t))]> h) d k)
| t_crash ws q b h d k w t e :
    ws !! w = Some (Holding t) →
    h !! pt_state t ≠ Some Pending →
    transition (Pool ws q b h d k) [(Worker w, Invoke t)]
      (Pool (<[w := Terminated e]> ws) q b h d k)
| t_wake ws q b h d k w :
    ws !! w = Some Waiting →
    transition (Pool ws q b h d k) [] (Pool (<[w := AtLock]> ws) q b h d k)
| t_stop ws q b h k :
    transition (Pool ws q b h NotCalled k) ev_stop (Pool ws q true h StopSet k)
| t_broadcast ws q b h k :
    transition (Pool ws q b h StopSet k) [(Owner, NotifyAll)]
      (Pool (notify_all ws) q b h (Joining 0) k)
| t_join ws q b h k i :
    ws !! i = Some Returned →
    transition (Pool ws q b h (Joining i) k) [(Owner, Join i)]
      (Pool ws q b h (Joining (S i)) k)
| t_done ws q b h k i :
    ws !! i = None →
    transition (Pool ws q b h (Joining i) k) [] (Pool ws q b h Done k).

(** ** Invariants and measures

    Stated here, proved below. *)

(** The ledger of tasks: what ties the queue, the workers, the heap and the
    trace together.  Accepted tasks leave the queue in the order in which
    they came; a task taken off the queue has been invoked or is held by a
    worker; every accepted task has a shared state of its own, ready with
    the task's outcome once the task has been invoked and pending before;
    no worker has been terminated by an exception. *)
Record ledger (s : pool) (tr : list event) : Prop := Ledger {
  led_fifo : enqueued tr = dequeued tr ++ tasks s;
  led_held : dequeued tr ≡ₚ invoked tr ++ holding (workers s);
  led_fresh : NoDup (pt_state <$> enqueued tr);
  led_dom : ∀ a, a ∈ dom (heap s) ↔ a ∈ pt_state <$> enqueued tr;
  led_ready : ∀ t, t ∈ invoked tr →
    heap s !! pt_state t = Some (Ready (call (pt_fn t)));
  led_pending : ∀ t, t ∈ tasks s ++ holding (workers s) →
    heap s !! pt_state t = Some Pending;
  led_alive : ∀ e, Terminated e ∉ workers s
}.

(** Control: how [stop], the workers' control points and the destructor's
    control point constrain one another. *)
Record control (n : nat) (s : pool) : Prop := Control {
  ctl_size : length (workers s) = n;
  ctl_stop : stop s = true ↔ dtor s ≠ NotCalled;
  ctl_exit : Returned ∈ workers s → stop s = true ∧ tasks s = [];
  ctl_wait : Waiting ∈ workers s → dtor s = NotCalled ∨ dtor s = StopSet;
  ctl_join :
    match dtor s with
    | Joining i => ∀ j, j < i → workers s !! j = Some Returned
    | Done => ∀ x, x ∈ workers s → x = Returned
    | _ => True
    end
}.

(** How often a library call occurs in a trace. *)
Definition occurrences (a : action) (tr : list event) : nat :=
  length (filter (λ e, e.2 = a) tr).

(** The calls that happen once per submission or once per pool. *)
Record tally (s : pool) (tr : list event) : Prop := Tally {
  tal_notify_one :
    occurrences NotifyOne tr + notifying s = length (enqueued tr);
  tal_stop : occurrences SetStop tr
             = if decide (dtor s = NotCalled) then 0 else 1;
  tal_notify_all : occurrences NotifyAll tr
                   = match dtor s with NotCalled | StopSet => 0 | _ => 1 end
}.

(** The joins of the trace are joins of returned workers, and the
    destructor has joined every worker it has passed. *)
Record joins (s : pool) (tr : list event) : Prop := Joins {
  jn_sound : ∀ th w,
    (th, Join w) ∈ tr → th = Owner ∧ workers s !! w = Some Returned;
  jn_complete :
    match dtor s with
    | Joining i => ∀ w, w < i → (Owner, Join w) ∈ tr
    | Done => ∀ w, w < length (workers s) → (Owner, Join w) ∈ tr
    | _ => True
    end
}.

(** With at most one worker, tasks are invoked in the order in which they
    left the queue. *)
Definition in_order (s : pool) (tr : list event) : Prop :=
  dequeued tr = invoked tr ++ holding (workers s).

(** Labels of the pool's own threads, workers and destructor, as opposed to
    the callers of [submit] and to spurious wake-ups. *)
Definition own (l : label) : Prop :=
  match l with
  | LWorker _ | LDtor => True
  | _ => False
  end.

(** Labels of the workers and of the callers that still owe a
    [notify_one]. *)
Definition serving (l : label) : Prop :=
  match l with
  | LWorker _ | LNotify _ => True
  | _ => False
  end.

(** A worker that can move. *)
Definition busy (x : wstate) : Prop :=
  match x with
  | AtLock | Holding _ => True
  | _ => False
  end.

#[global] Instance busy_dec x : Decision (busy x).
Proof. destruct x; simpl; apply _. Defined.

(** At rest: no worker can move and no [notify_one] is owed. *)
Definition at_rest (s : pool) : Prop :=
  (∀ x, x ∈ workers s → ¬ busy x) ∧ notifying s = 0.

(** A queued task is never left with every worker asleep and no
    [notify_one] to come. *)
Definition awake (s : pool) : Prop :=
  tasks s ≠ [] → workers s ≠ [] →
  (∃ x, x ∈ workers s ∧ busy x) ∨ 0 < notifying s.

(** Steps a worker has before it next blocks or returns, if the queue were
    empty. *)
Definition wweight (x : wstate) : nat :=
  match x with
  | AtLock => 1
  | Holding _ => 2
  | _ => 0
  end.

Definition dweight (n : nat) (d : dtor_pc) : nat :=
  match d with
  | NotCalled => 2 * n + 3
  | StopSet => 2 * n + 2
  | Joining i => 1 + (n - i)
  | Done => 0
  end.

(** A bound on the steps of workers and notifying callers still possible
    without new submissions. *)
Definition work (s : pool) : nat :=
  sum_list_with wweight (workers s) + 2 * length (tasks s)
  + 2 * notifying s.

(** A bound on the steps of workers and destructor together. *)
Definition effort (s : pool) : nat :=
  dweight (length (workers s)) (dtor s) + work s.

(** ** The joins of a trace *)

Definition joined_by (e : event) : option nat :=
  match e.2 with Join w => Some w | _ => None end.

(** The workers joined, in the order of the trace. *)
Definition joined (tr : list event) : list nat := omap joined_by tr.

(** How far the join loop of lines 75-77 has come. *)
Definition join_count (s : pool) : nat :=
  match dtor s with
  | Joining i => i
  | Done => length (workers s)
  | _ => 0
  end.

(** ** main (lines 90-109)

    The main thread builds a pool of four workers, submits two tasks,
    prints a line, prints the two results as they arrive and returns, at
    which point the pool is destroyed.  It is the only caller of [submit]
    and the thread that runs the destructor; the workers move in between
    as the scheduler lets them. *)

(** What goes to [std::cout], one entry per [operator<<]. *)
Inductive output :=
| Str (s : string)
| Int (v : Z)
| Endl.

#[global] Instance output_eq_dec : EqDecision output.
Proof. solve_decision. Defined.

(** The lambda of lines 95-98: it sleeps for a second and returns 1.  Time
    is not part of the model, so what is left is the result. *)
Definition task1 : callable := Returns 1.

(** The lambda of line 100, which [submit] binds to the arguments 5 and 3
    (lines 50-52). *)
Definition plus (x y : Z) : Z := x + y.
Definition task2 : callable := Returns (plus 5 3).

(** Control point of the main thread, with the locals [future1] and
    [future2] once they exist.
    - [AtSubmit1], [AtSubmit2]: before the calls of lines 95 and 100;
    - [AtNotify1], [AtNotify2]: inside these calls, past the unlock and
      before the [notify_one] of line 64;
    - [AtPrint]: before line 102;
    - [AtResult1], [AtResult2]: at lines 105 and 106, before the text is
      written;
    - [AtGet1], [AtGet2]: in [future1.get()] and [future2.get()];
    - [AtReturn]: at line 108, in the destructor of [pool];
    - [Exited c]: [main] has returned [c];
    - [Uncaught e]: the exception [e] has left [main]. *)
Inductive main_pc :=
| AtSubmit1
| AtNotify1 (future1 : nat)
| AtSubmit2 (future1 : nat)
| AtNotify2 (future1 future2 : nat)
| AtPrint (future1 future2 : nat)
| AtResult1 (future1 future2 : nat)
| AtGet1 (future1 future2 : nat)
| AtResult2 (future1 future2 : nat)
| AtGet2 (future1 future2 : nat)
| AtReturn
| Exited (code : Z)
| Uncaught (e : exn).

#[global] Instance main_pc_eq_dec : EqDecision main_pc.
Proof. solve_decision. Defined.

(** The process: where the main thread is, the local [pool], and what has
    been written to [std::cout]. *)
Record program := Program {
  pc : main_pc;
  the_pool : pool;
  cout : list output
}.

(** The state after line 92. *)
Definition main_start : program :=
  {| pc := AtSubmit1; the_pool := ThreadPool 4; cout := [] |}.

(** One step of the main thread.  [None]: the thread is blocked in [get] or
    in [join], or has ended. *)
Definition main_step (pick : nat) (m : program)
  : option (program * list event) :=
  let s := the_pool m in
  match pc m with
  | AtSubmit1 =>
      match submit_enqueue task1 s with
      | (s', ev, inr future1) =>
          Some (Program (AtNotify1 future1) s' (cout m), ev)
      | (s', ev, inl e) => Some (Program (Uncaught e) s' (cout m), ev)
      end
  | AtNotify1 future1 =>
      match submit_notify pick s with
      | Some (s', ev) => Some (Program (AtSubmit2 future1) s' (cout m), ev)
      | None => None
      end
  | AtSubmit2 future1 =>
      match submit_enqueue task2 s with
      | (s', ev, inr future2) =>
          Some (Program (AtNotify2 future1 future2) s' (cout m), ev)
      | (s', ev, inl e) => Some (Program (Uncaught e) s' (cout m), ev)
      end
  | AtNotify2 future1 future2 =>
      match submit_notify pick s with
      | Some (s', ev) =>
          Some (Program (AtPrint future1 future2) s' (cout m), ev)
      | None => None
      end
  | AtPrint future1 future2 =>
      Some (Program (AtResult1 future1 future2) s
              (cout m ++ [Str "Tasks submitted. Main thread continues."; Endl]),
            [])
  | AtResult1 future1 future2 =>
      Some (Program (AtGet1 future1 future2) s (cout m ++ [Str "Result 1: "]),
            [])
  | AtGet1 future1 future2 =>
      match future_get future1 (heap s) with
      | None => None
      | Some (inr v) =>
          Some (Program (AtResult2 future1 future2) s (cout m ++ [Int v; Endl]),
                [])
      | Some (inl e) => Some (Program (Uncaught e) s (cout m), [])
      end
  | AtResult2 future1 future2 =>
      Some (Program (AtGet2 future1 future2) s (cout m ++ [Str "Result 2: "]),
            [])
  | AtGet2 future1 future2 =>
      match future_get future2 (heap s) with
      | None => None
      | Some (inr v) => Some (Program AtReturn s (cout m ++ [Int v; Endl]), [])
      | Some (inl e) => Some (Program (Uncaught e) s (cout m), [])
      end
  | AtReturn =>
      match dtor_step s with
      | Some (s', ev) =>
          Some (Program (if decide (dtor s' = Done) then Exited 0 else AtReturn)
                        s' (cout m),
                ev)
      | None => None
      end
  | Exited _ | Uncaught _ => None
  end.

(** Whether the process is still alive. *)
Definition alive (p : main_pc) : bool :=
  match p with
  | Exited _ | Uncaught _ => false
  | _ => true
  end.

(** What the scheduler chooses in the process: the main thread moves, a
    worker moves, or a waiting worker wakes spuriously. *)
Inductive plabel :=
| PMain (pick : nat)
| PWorker (w : nat)
| PWake (w : nat).

Definition program_step (l : plabel) (m : program)
  : option (program * list event) :=
  if alive (pc m) then
    match l with
    | PMain pick => main_step pick m
    | PWorker w =>
        match worker_step w (the_pool m) with
        | Some (s', ev) => Some (Program (pc m) s' (cout m), ev)
        | None => None
        end
    | PWake w =>
        match wake w (the_pool m) with
        | Some (s', ev) => Some (Program (pc m) s' (cout m), ev)
        | None => None
        end
    end
  else None.

Fixpoint execute (ls : list plabel) (m : program) (tr : list event)
  : option (program * list event) :=
  match ls with
  | [] => Some (m, tr)
  | l :: ls' =>
      match program_step l m with
      | Some (m', ev) => execute ls' m' (tr ++ ev)
      | None => None
      end
  end.

(** Everything [main] writes when it runs to its end. *)
Definition main_output : list output :=
  [Str "Tasks submitted. Main thread continues."; Endl;
   Str "Result 1: "; Int 1; Endl;
   Str "Result 2: "; Int 8; Endl].

(** What has been written when the main thread is at a control point. *)
Definition printed (p : main_pc) : list output :=
  match p with
  | AtSubmit1 | AtNotify1 _ | AtSubmit2 _ | AtNotify2 _ _ | AtPrint _ _ => []
  | AtResult1 _ _ => take 2 main_output
  | AtGet1 _ _ => take 3 main_output
  | AtResult2 _ _ => take 5 main_output
  | AtGet2 _ _ => take 6 main_output
  | AtReturn | Exited _ => main_output
  | Uncaught _ => []
  end.

(** The tasks accepted so far when the main thread is at a control point. *)
Definition submitted (p : main_pc) : option (list packaged_task) :=
  match p with
  | AtSubmit1 => Some []
  | AtNotify1 a | AtSubmit2 a => Some [PackagedTask task1 a]
  | AtNotify2 a b | AtPrint a b | AtResult1 a b | AtGet1 a b
  | AtResult2 a b | AtGet2 a b =>
      Some [PackagedTask task1 a; PackagedTask task2 b]
  | _ => None
  end.

(** The calls of [notify_one] that the main thread still owes. *)
Definition owed (p : main_pc) : nat :=
  match p with
  | AtNotify1 _ | AtNotify2 _ _ => 1
  | _ => 0
  end.

(** How the control point of the main thread constrains the rest. *)
Record main_inv (m : program) (tr : list event) : Prop := MainInv {
  mi_caught : ∀ e, pc m ≠ Uncaught e;
  mi_cout : cout m = printed (pc m);
  mi_owed : notifying (the_pool m) = owed (pc m);
  mi_tasks : ∀ ts, submitted (pc m) = Some ts → enqueued tr = ts;
  mi_two : submitted (pc m) = None →
           pt_fn <$> enqueued tr = [task1; task2];
  mi_dtor : is_Some (submitted (pc m)) → dtor (the_pool m) = NotCalled;
  mi_exit : dtor (the_pool m) = Done ↔ pc m = Exited 0;
  mi_code : ∀ c, pc m = Exited c → c = 0%Z
}.

(** A bound on the steps the main thread has before it. *)
Definition rank (p : main_pc) : nat :=
  match p with
  | AtSubmit1 => 15
  | AtNotify1 _ | AtSubmit2 _ => 10
  | AtNotify2 _ _ | AtPrint _ _ => 5
  | AtResult1 _ _ => 4
  | AtGet1 _ _ => 3
  | AtResult2 _ _ => 2
  | AtGet2 _ _ => 1
  | AtReturn | Exited _ | Uncaught _ => 0
  end.

(** A bound on the steps of the process when no worker wakes spuriously. *)
Definition budget (m : program) : nat := rank (pc m) + effort (the_pool m).

(** Labels other than spurious wake-ups. *)
Definition steady (l : plabel) : Prop :=
  match l with
  | PWake _ => False
  | _ => True
  end.

(** ** The order of events

    What the trace holds for what the state shows: a set [stop] has been
    written by the destructor, a returned worker has left its loop, a
    destructor in or past its join loop has broadcast, and a worker that
    holds a task has popped it. *)
Record lifecycle (s : pool) (tr : list event) : Prop := Lifecycle {
  lc_stop : stop s = true → (Owner, SetStop) ∈ tr;
  lc_exit : ∀ w, workers s !! w = Some Returned → (Worker w, Exit) ∈ tr;
  lc_bcast : dtor s ≠ NotCalled → dtor s ≠ StopSet → (Owner, NotifyAll) ∈ tr;
  lc_hand : ∀ w t,
    workers s !! w = Some (Holding t) → (Worker w, Pop t) ∈ tr
}.

(** * Proofs *)

(** The rejected call leaves the heap as it found it. *)
Lemma alloc_release (h : gmap nat shared_state) :
  delete (fresh (dom h)) (<[fresh (dom h) := Pending]> h) = h.
Proof.
  apply delete_insert_id, not_elem_of_dom, is_fresh.
Qed.

Lemma submit_enqueue_transition f s :
  transition s (submit_enqueue f s).1.2 (submit_enqueue f s).1.1.
Proof.
  destruct s as [ws q b h d k]. unfold submit_enqueue, set_heap. simpl.
  destruct b; simpl.
  - rewrite alloc_release. constructor.
  - constructor.
Qed.

Lemma submit_notify_transition pick s s' ev :
  submit_notify pick s = Some (s', ev) → transition s ev s'.
Proof.
  destruct s as [ws q b h d k]. unfold submit_notify. simpl.
  destruct k as [|k]; [done|].
  destruct (notify_one pick ws) as [ws'|] eqn:Hn; simpl; [|done].
  intros [= <- <-]. by apply (t_notify _ _ _ _ _ _ _ pick).
Qed.

Lemma worker_transition w s s' ev :
  worker_step w s = Some (s', ev) → transition s ev s'.
Proof.
  destruct s as [ws q b h d k]. unfold worker_step. simpl.
  destruct (ws !! w) as [[| |t| |]|] eqn:Hw; try done.
  - destruct b, q as [|t q]; simpl; intros [= <- <-];
      unfold set_workers, set_tasks; simpl; by constructor.
  - unfold invoke. destruct (h !! pt_state t) as [[|o]|] eqn:Hc;
      intros [= <- <-]; unfold set_workers, set_heap; simpl.
    + by constructor.
    + constructor; [done | congruence].
    + constructor; [done | congruence].
Qed.

Lemma wake_transition w s s' ev :
  wake w s = Some (s', ev) → transition s ev s'.
Proof.
  destruct s as [ws q b h d k]. unfold wake. simpl.
  destruct (ws !! w) as [[| |t| |]|] eqn:Hw; try done.
  intros [= <- <-]. by constructor.
Qed.

Lemma dtor_transition s s' ev :
  dtor_step s = Some (s', ev) → transition s ev s'.
Proof.
  destruct s as [ws q b h d k]. unfold dtor_step. simpl.
  destruct d as [| |i|]; try done.
  - intros [= <- <-]. constructor.
  - intros [= <- <-]. constructor.
  - destruct (ws !! i) as [[| |t| |]|] eqn:Hw; try done;
      intros [= <- <-]; by constructor.
Qed.

Lemma step_transition l s s' ev :
  step l s = Some (s', ev) → transition s ev s'.
Proof.
  destruct l as [f|pick|w|w|]; simpl.
  - intros [= <- <-]. apply submit_enqueue_transition.
  - apply submit_notify_transition.
  - apply worker_transition.
  - apply wake_transition.
  - apply dtor_transition.
Qed.

(** ** Lists of control points *)

Lemma elem_of_insert_inv {A} (l : list A) (i : nat) (x y : A) :
  y ∈ <[i := x]> l → y = x ∨ y ∈ l.
Proof.
  intros [j Hj]%list_elem_of_lookup.
  apply list_lookup_insert_Some in Hj as [(_ & -> & _)|[_ Hj]]; [by left|].
  right. apply list_elem_of_lookup. eauto.
Qed.

Lemma holding_lookup ws w x :
  ws !! w = Some x →
  holding ws
  = holding (take w ws) ++ option_list (held x) ++ holding (drop (S w) ws).
Proof.
  intros Hw. rewrite <- (take_drop_middle ws w x Hw) at 1.
  unfold holding. rewrite omap_app. simpl.
  by destruct (held x).
Qed.

Lemma holding_insert ws w x y :
  ws !! w = Some x →
  holding (<[w := y]> ws)
  = holding (take w ws) ++ option_list (held y) ++ holding (drop (S w) ws).
Proof.
  intros Hw. rewrite insert_take_drop by (by eapply lookup_lt_Some).
  unfold holding. rewrite omap_app. simpl.
  by destruct (held y).
Qed.

(** A worker that neither held a task nor holds one now. *)
Lemma holding_insert_idle ws w x y :
  ws !! w = Some x → held x = None → held y = None →
  holding (<[w := y]> ws) = holding ws.
Proof.
  intros Hw Hx Hy.
  rewrite (holding_insert ws w x y Hw), (holding_lookup ws w x Hw).
  by rewrite Hx, Hy.
Qed.

(** A worker that takes a task. *)
Lemma holding_insert_take ws w x t :
  ws !! w = Some x → held x = None →
  holding (<[w := Holding t]> ws) ≡ₚ t :: holding ws.
Proof.
  intros Hw Hx.
  rewrite (holding_insert ws w x _ Hw), (holding_lookup ws w x Hw), Hx.
  simpl. by rewrite Permutation_middle.
Qed.

(** A worker that lets go of its task. *)
Lemma holding_insert_drop ws w t y :
  ws !! w = Some (Holding t) → held y = None →
  holding ws ≡ₚ t :: holding (<[w := y]> ws).
Proof.
  intros Hw Hy.
  rewrite (holding_insert ws w _ y Hw), (holding_lookup ws w _ Hw), Hy.
  simpl. by rewrite Permutation_middle.
Qed.

Lemma holding_notify_all ws : holding (notify_all ws) = holding ws.
Proof.
  unfold holding, notify_all.
  induction ws as [|x ws IH]; [done|].
  destruct x; csimpl; by rewrite IH.
Qed.

Lemma notify_one_cases pick ws ws' :
  notify_one pick ws = Some ws' →
  (ws !! pick = Some Waiting ∧ ws' = <[pick := AtLock]> ws)
  ∨ ((Waiting ∉ ws) ∧ ws' = ws).
Proof.
  unfold notify_one.
  destruct (ws !! pick) as [[| |t| |e]|] eqn:Hp;
    try (case_decide; [done|]; intros [= <-]; right; by split).
  intros [= <-]. by left.
Qed.

(** With nobody waiting, [notify_one] has no effect, whatever [pick]. *)
Lemma notify_one_no_waiter pick ws :
  Waiting ∉ ws → notify_one pick ws = Some ws.
Proof.
  intros Hnw. unfold notify_one.
  destruct (ws !! pick) as [x|] eqn:Hp.
  - destruct x; try (by rewrite decide_False).
    exfalso. apply Hnw, list_elem_of_lookup. eauto.
  - by rewrite decide_False.
Qed.

(** [notify_one] always has a choice. *)
Lemma notify_one_total ws : ∃ pick ws', notify_one pick ws = Some ws'.
Proof.
  destruct (decide (Waiting ∈ ws)) as [[i Hi]%list_elem_of_lookup|Hnw].
  - exists i. unfold notify_one. rewrite Hi. eauto.
  - exists 0, ws. by apply notify_one_no_waiter.
Qed.

Lemma holding_notify_one pick ws ws' :
  notify_one pick ws = Some ws' → holding ws' = holding ws.
Proof.
  intros [[Hp ->]|[_ ->]]%notify_one_cases; [|done].
  by eapply holding_insert_idle.
Qed.

Lemma length_notify_one pick ws ws' :
  notify_one pick ws = Some ws' → length ws' = length ws.
Proof.
  intros [[Hp ->]|[_ ->]]%notify_one_cases; [|done].
  apply length_insert.
Qed.

Lemma elem_of_notify_all ws x :
  x ∈ notify_all ws → x ≠ Waiting ∧ (x = AtLock ∨ x ∈ ws).
Proof.
  unfold notify_all. intros (y & -> & Hy)%list_elem_of_fmap.
  destruct y; (split; [done|]); (by left) || (by right).
Qed.

Lemma notify_all_returned ws i :
  notify_all ws !! i = Some Returned ↔ ws !! i = Some Returned.
Proof.
  unfold notify_all. rewrite list_lookup_fmap.
  destruct (ws !! i) as [[| |t| |e]|]; simpl; split; congruence.
Qed.

(** ** Traces under concatenation *)

Lemma enqueued_app tr ev : enqueued (tr ++ ev) = enqueued tr ++ enqueued ev.
Proof. apply omap_app. Qed.
Lemma dequeued_app tr ev : dequeued (tr ++ ev) = dequeued tr ++ dequeued ev.
Proof. apply omap_app. Qed.
Lemma invoked_app tr ev : invoked (tr ++ ev) = invoked tr ++ invoked ev.
Proof. apply omap_app. Qed.

Ltac trace_simpl :=
  rewrite ?enqueued_app, ?dequeued_app, ?invoked_app;
  cbn [enqueued dequeued invoked omap list_omap emplaced popped called snd
       ev_reject ev_accept ev_wait ev_exit ev_pop ev_stop];
  rewrite ?app_nil_r.

(** ** The ledger is an invariant *)

Lemma holding_replicate n : holding (replicate n AtLock) = [].
Proof. unfold holding. induction n; [done|]. simpl. done. Qed.

Lemma ledger_init n : ledger (ThreadPool n) [].
Proof.
  split; simpl; rewrite ?holding_replicate.
  - done.
  - done.
  - constructor.
  - intros a. rewrite dom_empty_L.
    split; [by intros ?%elem_of_empty | by intros ?%elem_of_nil].
  - by intros t ?%elem_of_nil.
  - by intros t ?%elem_of_nil.
  - intros e [? _]%elem_of_replicate. done.
Qed.

(** Every task in the system has a shared state of its own. *)
Lemma ledger_distinct s tr :
  ledger s tr →
  NoDup (pt_state <$> (invoked tr ++ holding (workers s) ++ tasks s)).
Proof.
  intros L. pose proof (led_fresh _ _ L) as Hnd.
  rewrite (led_fifo _ _ L) in Hnd.
  rewrite (led_held _ _ L) in Hnd.
  by rewrite <- app_assoc in Hnd.
Qed.

(** The ledger does not read [stop] or the destructor's control point. *)
Lemma ledger_flags ws q b h d k b' d' k' tr :
  ledger (Pool ws q b h d k) tr → ledger (Pool ws q b' h d' k') tr.
Proof. intros [? ? ? ? ? ? ?]. by split. Qed.

(** A worker moves between control points at which it holds no task. *)
Lemma ledger_idle ws q b h d k tr w x y :
  ws !! w = Some x → held x = None → held y = None →
  (∀ e, y ≠ Terminated e) →
  ledger (Pool ws q b h d k) tr → ledger (Pool (<[w := y]> ws) q b h d k) tr.
Proof.
  intros Hw Hx Hy Hterm [? ? ? ? ? ? Halive].
  split; simpl in *; rewrite ?(holding_insert_idle _ _ _ _ Hw Hx Hy); try done.
  intros e [?|?]%elem_of_insert_inv; [by eapply Hterm|]. by eapply Halive.
Qed.

Lemma ledger_notify_all ws q b h d k tr :
  ledger (Pool ws q b h d k) tr → ledger (Pool (notify_all ws) q b h d k) tr.
Proof.
  intros [? ? ? ? ? ? Halive].
  split; simpl in *; rewrite ?holding_notify_all; try done.
  intros e [_ [?|?]]%elem_of_notify_all; [done|]. by eapply Halive.
Qed.

Lemma ledger_notify_one pick ws ws' q b h d k tr :
  notify_one pick ws = Some ws' →
  ledger (Pool ws q b h d k) tr → ledger (Pool ws' q b h d k) tr.
Proof.
  intros [[Hp ->]|[_ ->]]%notify_one_cases; [|done].
  by apply (ledger_idle _ _ _ _ _ _ _ _ Waiting).
Qed.

(** A silent step. *)
Lemma ledger_silent s tr ev :
  enqueued ev = [] → dequeued ev = [] → invoked ev = [] →
  ledger s tr → ledger s (tr ++ ev).
Proof.
  intros He Hd Hi [? ? ? ? ? ? ?].
  split; rewrite ?enqueued_app, ?dequeued_app, ?invoked_app, ?He, ?Hd, ?Hi,
    ?app_nil_r; done.
Qed.

(** [tasks.emplace] with a fresh shared state. *)
Lemma ledger_emplace ws q b h d k tr f :
  let t := PackagedTask f (fresh (dom h)) in
  ledger (Pool ws q b h d k) tr →
  ledger (Pool ws (q ++ [t]) b (<[fresh (dom h) := Pending]> h) d (S k))
         (tr ++ ev_accept t).
Proof.
  intros t [Hfifo Hheld Hfresh Hdom Hready Hpend Halive].
  pose proof (is_fresh (dom h)) as Hf.
  split; simpl in *; trace_simpl; try done.
  - by rewrite Hfifo, app_assoc.
  - rewrite fmap_app. simpl. apply NoDup_app. split; [done|]. split.
    + intros a Ha ->%list_elem_of_singleton. by apply Hdom in Ha.
    + apply NoDup_singleton.
  - intros a. rewrite dom_insert_L, fmap_app, elem_of_app, elem_of_union.
    rewrite Hdom. simpl. rewrite list_elem_of_singleton, elem_of_singleton.
    tauto.
  - intros t' Ht'. rewrite lookup_insert_ne; [by apply Hready|].
    intros Heq. apply Hf, elem_of_dom. rewrite Heq, (Hready t' Ht'). eauto.
  - intros t'.
    rewrite <- app_assoc, elem_of_app, elem_of_app, list_elem_of_singleton.
    intros Ht'.
    destruct (decide (t' = t)) as [->|Hne].
    { simpl. apply lookup_insert_eq. }
    assert (t' ∈ q ++ holding ws) as Hin.
    { rewrite elem_of_app. tauto. }
    rewrite lookup_insert_ne; [by apply Hpend|].
    intros Heq. apply Hf, elem_of_dom. rewrite Heq, (Hpend t' Hin). eauto.
Qed.

(** [tasks.front()] and [tasks.pop()]. *)
Lemma ledger_pop ws t q b h d k tr w :
  ws !! w = Some AtLock →
  ledger (Pool ws (t :: q) b h d k) tr →
  ledger (Pool (<[w := Holding t]> ws) q b h d k) (tr ++ ev_pop w t).
Proof.
  intros Hw [Hfifo Hheld Hfresh Hdom Hready Hpend Halive].
  assert (holding (<[w := Holding t]> ws) ≡ₚ t :: holding ws) as Hh
    by (by eapply holding_insert_take).
  split; simpl in *; trace_simpl; try done.
  - by rewrite Hfifo, <- app_assoc.
  - rewrite Hh, <- (Permutation_middle (invoked tr)), <- Hheld.
    by rewrite <- Permutation_cons_append.
  - intros t' Ht'. apply Hpend. rewrite Hh in Ht'.
    rewrite elem_of_app, elem_of_cons in Ht'.
    rewrite elem_of_cons, elem_of_app. tauto.
  - intros e [?|?]%elem_of_insert_inv; [done|]. by eapply Halive.
Qed.

(** [task()] on a task whose shared state is pending. *)
Lemma ledger_invoke ws q b h d k tr w t :
  ws !! w = Some (Holding t) →
  ledger (Pool ws q b h d k) tr →
  ledger (Pool (<[w := AtLock]> ws) q b
               (<[pt_state t := Ready (call (pt_fn t))]> h) d k)
         (tr ++ [(Worker w, Invoke t)]).
Proof.
  intros Hw L. pose proof (ledger_distinct _ _ L) as Hnd.
  destruct L as [Hfifo Hheld Hfresh Hdom Hready Hpend Halive].
  assert (holding ws ≡ₚ t :: holding (<[w := AtLock]> ws)) as Hh
    by (by eapply holding_insert_drop).
  simpl in *. rewrite Hh in Hnd.
  assert (h !! pt_state t = Some Pending) as Ht.
  { apply Hpend. rewrite Hh, elem_of_app, elem_of_cons. tauto. }
  rewrite !fmap_app, fmap_cons in Hnd.
  apply NoDup_app in Hnd as (_ & _ & Hnd). simpl in Hnd.
  apply NoDup_cons in Hnd as [Hnotin _]. rewrite <- fmap_app in Hnotin.
  split; simpl in *; trace_simpl; try done.
  - by rewrite Hheld, Hh, <- app_assoc.
  - intros a. rewrite dom_insert_L, <- Hdom.
    assert (pt_state t ∈ dom h) by (apply elem_of_dom; eauto).
    rewrite elem_of_union, elem_of_singleton.
    split; [by intros [->|?] | by right].
  - intros t' [Ht'| ->%list_elem_of_singleton]%elem_of_app.
    + rewrite lookup_insert_ne; [by apply Hready|].
      intros Heq. rewrite Heq, (Hready t' Ht') in Ht. done.
    + apply lookup_insert_eq.
  - intros t' Ht'. rewrite elem_of_app in Ht'. rewrite lookup_insert_ne.
    + apply Hpend. rewrite Hh, elem_of_app, elem_of_cons. tauto.
    + intros Heq. apply Hnotin. rewrite Heq.
      apply list_elem_of_fmap_2. rewrite elem_of_app. tauto.
  - intros e [?|?]%elem_of_insert_inv; [done|]. by eapply Halive.
Qed.

Lemma ledger_holding_pending ws q b h d k tr w t :
  ws !! w = Some (Holding t) →
  ledger (Pool ws q b h d k) tr → h !! pt_state t = Some Pending.
Proof.
  intros Hw L. apply (led_pending _ _ L). simpl.
  apply elem_of_app. right.
  apply list_elem_of_omap. exists (Holding t). split; [|done].
  apply list_elem_of_lookup. eauto.
Qed.

Lemma ledger_transition s tr ev s' :
  ledger s tr → transition s ev s' → ledger s' (tr ++ ev).
Proof.
  intros L T. destruct T.
  - by apply ledger_silent.
  - by apply ledger_emplace.
  - apply ledger_silent; [done..|].
    eapply ledger_flags. by eapply ledger_notify_one.
  - apply ledger_silent; [done..|].
    by apply (ledger_idle _ _ _ _ _ _ _ _ AtLock).
  - apply ledger_silent; [done..|].
    by apply (ledger_idle _ _ _ _ _ _ _ _ AtLock).
  - by apply ledger_pop.
  - by apply ledger_invoke.
  - exfalso. by eapply H0, ledger_holding_pending.
  - apply ledger_silent; [done..|].
    by apply (ledger_idle _ _ _ _ _ _ _ _ Waiting).
  - apply ledger_silent; [done..|]. by eapply ledger_flags.
  - apply ledger_silent; [done..|].
    eapply ledger_flags. by apply ledger_notify_all.
  - apply ledger_silent; [done..|]. by eapply ledger_flags.
  - apply ledger_silent; [done..|]. by eapply ledger_flags.
Qed.

(** ** Control is an invariant *)

Lemma control_init n : control n (ThreadPool n).
Proof.
  split; simpl; try done.
  - apply length_replicate.
  - by intros [? _]%elem_of_replicate.
  - by left.
Qed.

(** A worker that has not returned moves to another control point. *)
Lemma control_move n ws q b h d k w x y :
  ws !! w = Some x → x ≠ Returned →
  (y = Returned → b = true ∧ q = []) →
  (y = Waiting → d = NotCalled ∨ d = StopSet) →
  control n (Pool ws q b h d k) → control n (Pool (<[w := y]> ws) q b h d k).
Proof.
  intros Hw Hx Hret Hwait [Hsize Hstop Hexit Hw8 Hjoin].
  split; simpl in *.
  - by rewrite length_insert.
  - done.
  - intros [?|?]%elem_of_insert_inv; [by apply Hret | by apply Hexit].
  - intros [?|?]%elem_of_insert_inv; [by apply Hwait | by apply Hw8].
  - destruct d as [| |i|]; try done.
    + intros j Hj. rewrite list_lookup_insert_ne; [by apply Hjoin|].
      intros ->. rewrite (Hjoin j Hj) in Hw. congruence.
    + exfalso. apply Hx. apply Hjoin, list_elem_of_lookup. eauto.
Qed.

(** Control does not read the number of notifying callers. *)
Lemma control_notifying n ws q b h d k k' :
  control n (Pool ws q b h d k) → control n (Pool ws q b h d k').
Proof. intros [? ? ? ? ?]. by split. Qed.

Lemma control_transition n s ev s' :
  control n s → transition s ev s' → control n s'.
Proof.
  intros C T. destruct T.
  - done.
  - destruct C as [Hsize Hstop Hexit Hw8 Hjoin]. simpl in *.
    split; simpl; try done.
    intros Hr. by destruct (Hexit Hr).
  - apply (control_notifying _ _ _ _ _ _ (S k)).
    destruct (notify_one_cases _ _ _ H) as [[Hp ->]|[_ ->]]; [|done].
    by apply (control_move _ _ _ _ _ _ _ _ Waiting).
  - apply (control_move _ _ _ _ _ _ _ _ AtLock); try done.
    intros _. destruct C as [_ Hstop _ _ _]. simpl in *.
    destruct d; try (by left); by destruct Hstop as [_ Hs]; discriminate Hs.
  - by apply (control_move _ _ _ _ _ _ _ _ AtLock).
  - assert (control n (Pool ws q b h d k)) as C'.
    { destruct C as [Hsize Hstop Hexit Hw8 Hjoin].
      split; simpl in *; try done. intros Hr. by destruct (Hexit Hr). }
    by apply (control_move _ _ _ _ _ _ _ _ AtLock).
  - apply (control_move _ _ _ _ _ _ _ _ (Holding t)); try done.
    by destruct C.
  - destruct C as [Hsize Hstop Hexit Hw8 Hjoin]. simpl in *.
    apply (control_move _ _ _ _ _ _ _ _ (Holding t)); try done.
  - apply (control_move _ _ _ _ _ _ _ _ Waiting); try done.
  - destruct C as [Hsize Hstop Hexit Hw8 Hjoin]. simpl in *.
    split; simpl; try done.
    + intros Hr. destruct (Hexit Hr) as [Hb _].
      by destruct Hstop as [Hs _]; destruct (Hs Hb).
    + by right.
  - destruct C as [Hsize Hstop Hexit Hw8 Hjoin]. simpl in *.
    split; simpl.
    + unfold notify_all. by rewrite length_fmap.
    + split; [done|]. intros _. by apply Hstop.
    + intros [_ [?|Hr]]%elem_of_notify_all; [done|]. by apply Hexit.
    + by intros [? _]%elem_of_notify_all.
    + intros j Hj. lia.
  - destruct C as [Hsize Hstop Hexit Hw8 Hjoin]. simpl in *.
    split; simpl; try done.
    + split; [done|]. intros _. by apply Hstop.
    + intros Hwt. by destruct (Hw8 Hwt).
    + intros j Hj. destruct (decide (j = i)) as [->|]; [done|].
      apply Hjoin. lia.
  - destruct C as [Hsize Hstop Hexit Hw8 Hjoin]. simpl in *.
    split; simpl; try done.
    + split; [done|]. intros _. by apply Hstop.
    + intros Hwt. by destruct (Hw8 Hwt).
    + intros x [j Hj]%list_elem_of_lookup.
      apply lookup_ge_None in H. apply lookup_lt_Some in Hj as Hlt.
      rewrite Hjoin in Hj by lia. congruence.
Qed.

(** ** Reachable states *)

Lemma reachable_ledger n s tr : reachable n s tr → ledger s tr.
Proof.
  induction 1 as [|s tr l s' ev _ IH Hstep]; [apply ledger_init|].
  eapply ledger_transition; [done|]. by eapply step_transition.
Qed.

Lemma reachable_control n s tr : reachable n s tr → control n s.
Proof.
  induction 1 as [|s tr l s' ev _ IH Hstep]; [apply control_init|].
  eapply control_transition; [done|]. by eapply step_transition.
Qed.

Lemma run_reachable n ls s tr s' tr' :
  reachable n s tr → run ls s tr = Some (s', tr') → reachable n s' tr'.
Proof.
  revert s tr. induction ls as [|l ls IH]; intros s tr Hr; simpl.
  - by intros [= <- <-].
  - destruct (step l s) as [[s1 ev]|] eqn:Hstep; [|done].
    apply IH. by eapply reach_step.
Qed.

Lemma run_app ls1 ls2 s tr :
  run (ls1 ++ ls2) s tr
  = match run ls1 s tr with
    | Some (s1, tr1) => run ls2 s1 tr1
    | None => None
    end.
Proof.
  revert s tr. induction ls1 as [|l ls1 IH]; intros s tr; simpl; [done|].
  destruct (step l s) as [[s1 ev]|]; [apply IH | done].
Qed.

(** A run only extends the trace. *)
Lemma run_trace ls s tr s' tr' :
  run ls s tr = Some (s', tr') → ∃ ev, tr' = tr ++ ev.
Proof.
  revert s tr. induction ls as [|l ls IH]; intros s tr; simpl.
  - intros [= <- <-]. exists []. by rewrite app_nil_r.
  - destruct (step l s) as [[s1 ev]|]; [|done].
    intros [ev' ->]%IH. exists (ev ++ ev'). by rewrite app_assoc.
Qed.

Lemma reachable_run n s tr :
  reachable n s tr → ∃ ls, run ls (ThreadPool n) [] = Some (s, tr).
Proof.
  induction 1 as [|s tr l s' ev _ [ls IH] Hstep]; [by exists []|].
  exists (ls ++ [l]). rewrite run_app, IH. simpl. by rewrite Hstep.
Qed.

(** ** Counting library calls in a trace *)

Lemma occurrences_app a tr ev :
  occurrences a (tr ++ ev) = occurrences a tr + occurrences a ev.
Proof. unfold occurrences. by rewrite filter_app, length_app. Qed.

Ltac count_calls :=
  repeat match goal with
  | |- context [occurrences ?a ?ev] =>
      let v := eval vm_compute in (occurrences a ev) in
      change (occurrences a ev) with v
  end.

Lemma tally_init n : tally (ThreadPool n) [].
Proof. by split. Qed.

Lemma tally_transition s tr ev s' :
  tally s tr → transition s ev s' → tally s' (tr ++ ev).
Proof.
  intros [H1 H2 H3] T.
  remember (occurrences NotifyOne tr) as c1 eqn:E1.
  remember (occurrences SetStop tr) as c2 eqn:E2.
  remember (occurrences NotifyAll tr) as c3 eqn:E3.
  destruct T; split; simpl in *;
    rewrite ?occurrences_app, ?enqueued_app, ?length_app, <- ?E1, <- ?E2,
      <- ?E3;
    count_calls; try (cbn in *; lia); try (destruct d; cbn in *; lia).
Qed.

Lemma reachable_tally n s tr : reachable n s tr → tally s tr.
Proof.
  induction 1 as [|s tr l s' ev _ IH Hstep]; [apply tally_init|].
  eapply tally_transition; [done|]. by eapply step_transition.
Qed.

(** ** The flag only rises *)

Lemma transition_stop s ev s' :
  transition s ev s' → stop s = true → stop s' = true ∧ enqueued ev = [].
Proof. intros T. destruct T; simpl; intros Hs; by try discriminate Hs. Qed.

Lemma run_stopped ls s tr s' tr' :
  stop s = true → run ls s tr = Some (s', tr') →
  stop s' = true ∧ enqueued tr' = enqueued tr.
Proof.
  revert s tr. induction ls as [|l ls IH]; intros s tr Hs; simpl.
  - by intros [= <- <-].
  - destruct (step l s) as [[s1 ev]|] eqn:Hstep; [|done].
    apply step_transition in Hstep.
    destruct (transition_stop _ _ _ Hstep Hs) as [Hs1 Hev].
    intros Hrun. destruct (IH _ _ Hs1 Hrun) as [? ->].
    split; [done|]. by rewrite enqueued_app, Hev, app_nil_r.
Qed.

(** ** Progress of the pool's own threads *)

Lemma sum_insert ws w x y :
  ws !! w = Some x →
  sum_list_with wweight (<[w := y]> ws) + wweight x
  = sum_list_with wweight ws + wweight y.
Proof.
  intros Hw. rewrite <- (take_drop_middle ws w x Hw) at 2.
  rewrite insert_take_drop by (by eapply lookup_lt_Some).
  rewrite !sum_list_with_app. simpl. lia.
Qed.

Lemma sum_notify_all ws :
  sum_list_with wweight (notify_all ws)
  ≤ sum_list_with wweight ws + length ws.
Proof.
  unfold notify_all. induction ws as [|x ws IH]; [done|].
  destruct x; csimpl; lia.
Qed.

Lemma worker_step_work w s s' ev :
  worker_step w s = Some (s', ev) →
  work s' < work s
  ∧ length (workers s') = length (workers s) ∧ dtor s' = dtor s.
Proof.
  destruct s as [ws q b h d k]. unfold worker_step, work. simpl.
  destruct (ws !! w) as [[| |t| |]|] eqn:Hw; try done.
  - destruct b, q as [|t q]; simpl; intros [= <- <-]; simpl;
      rewrite length_insert;
      match goal with
      | |- context [<[w := ?y]> ws] => pose proof (sum_insert ws w _ y Hw)
      end; simpl in *; (split; [lia | done]).
  - destruct (invoke t h) as [h' [e|]]; intros [= <- <-]; simpl;
      rewrite length_insert;
      match goal with
      | |- context [<[w := ?y]> ws] => pose proof (sum_insert ws w _ y Hw)
      end; simpl in *; (split; [lia | done]).
Qed.

Lemma dtor_step_effort s s' ev :
  dtor_step s = Some (s', ev) → effort s' < effort s.
Proof.
  destruct s as [ws q b h d k]. unfold dtor_step, effort, work. simpl.
  destruct d as [| |i|]; try done.
  - intros [= <- <-]. simpl. lia.
  - intros [= <- <-]. simpl. pose proof (sum_notify_all ws).
    unfold notify_all at 1. rewrite length_fmap. lia.
  - destruct (ws !! i) as [[| |t| |]|] eqn:Hw; try done;
      intros [= <- <-]; simpl; [|lia].
    apply lookup_lt_Some in Hw. lia.
Qed.

Lemma own_step_effort l s s' ev :
  own l → step l s = Some (s', ev) → effort s' < effort s.
Proof.
  destruct l as [f|pick|w|w|]; simpl; try done; intros _.
  - intros (Hw & Hl & Hd)%worker_step_work. unfold effort.
    rewrite Hl, Hd. lia.
  - apply dtor_step_effort.
Qed.

Lemma sum_notify_one pick ws ws' :
  notify_one pick ws = Some ws' →
  sum_list_with wweight ws' ≤ sum_list_with wweight ws + 1.
Proof.
  intros [[Hp ->]|[_ ->]]%notify_one_cases; [|lia].
  pose proof (sum_insert ws pick Waiting AtLock Hp). simpl in *. lia.
Qed.

Lemma submit_notify_work pick s s' ev :
  submit_notify pick s = Some (s', ev) → work s' < work s.
Proof.
  destruct s as [ws q b h d k]. unfold submit_notify, work. simpl.
  destruct k as [|k]; [done|].
  destruct (notify_one pick ws) as [ws'|] eqn:Hn; simpl; [|done].
  intros [= <- <-]. simpl. pose proof (sum_notify_one _ _ _ Hn). lia.
Qed.

Lemma serving_step_work l s s' ev :
  serving l → step l s = Some (s', ev) → work s' < work s.
Proof.
  destruct l as [f|pick|w|w|]; simpl; try done; intros _.
  - apply submit_notify_work.
  - by intros (Hw & _)%worker_step_work.
Qed.

(** A caller that owes its [notify_one] can always issue it. *)
Lemma submit_notify_enabled s :
  0 < notifying s → ∃ pick r, submit_notify pick s = Some r.
Proof.
  intros Hk. destruct (notify_one_total (workers s)) as (pick & ws' & Hn).
  exists pick. unfold submit_notify.
  destruct (notifying s); [lia|]. rewrite Hn. simpl. eauto.
Qed.

(** A worker at [AtLock] or [Holding] can always move. *)
Lemma worker_step_enabled w s x :
  workers s !! w = Some x → busy x → is_Some (worker_step w s).
Proof.
  destruct s as [ws q b h d k]. unfold worker_step. simpl. intros -> Hx.
  destruct x; try done.
  - destruct b, q; simpl; eauto.
  - destruct (invoke t h) as [h' [e|]]; eauto.
Qed.

(** Until the destructor is done, the destructor or the worker it waits for
    can move. *)
Lemma shutdown_no_deadlock n s tr :
  reachable n s tr → dtor s ≠ Done →
  ∃ l s' ev, own l ∧ step l s = Some (s', ev).
Proof.
  intros Hr Hd.
  pose proof (reachable_ledger _ _ _ Hr) as L.
  pose proof (reachable_control _ _ _ Hr) as C.
  destruct (dtor s) as [| |i|] eqn:Hpc; try done.
  - exists LDtor. simpl. unfold dtor_step. rewrite Hpc. eauto.
  - exists LDtor. simpl. unfold dtor_step. rewrite Hpc. eauto.
  - destruct (workers s !! i) as [x|] eqn:Hw.
    + destruct x.
      * destruct (worker_step_enabled i s AtLock Hw I) as [[s' ev] Hs].
        exists (LWorker i), s', ev. done.
      * exfalso. destruct (ctl_wait _ _ C) as [H|H].
        -- apply list_elem_of_lookup. eauto.
        -- congruence.
        -- congruence.
      * destruct (worker_step_enabled i s (Holding t) Hw I) as [[s' ev] Hs].
        exists (LWorker i), s', ev. done.
      * exists LDtor. simpl. unfold dtor_step. rewrite Hpc, Hw. eauto.
      * exfalso. eapply (led_alive _ _ L), list_elem_of_lookup. eauto.
    + exists LDtor. simpl. unfold dtor_step. rewrite Hpc, Hw. eauto.
Qed.

(** The destructor can be run to its end from every reachable state. *)
Lemma shutdown_possible n s tr :
  reachable n s tr →
  ∃ ls s' tr',
    Forall own ls ∧ run ls s tr = Some (s', tr') ∧ dtor s' = Done.
Proof.
  remember (effort s) as k eqn:Hk. revert s tr Hk.
  induction k as [k IH] using lt_wf_ind. intros s tr -> Hr.
  destruct (decide (dtor s = Done)) as [Hd|Hd].
  - exists [], s, tr. by repeat split.
  - destruct (shutdown_no_deadlock _ _ _ Hr Hd) as (l & s1 & ev & Hl & Hs).
    destruct (IH (effort s1) (own_step_effort _ _ _ _ Hl Hs) s1 (tr ++ ev)
                 eq_refl (reach_step _ _ _ _ _ _ Hr Hs))
      as (ls & s' & tr' & Hall & Hrun & Hdone).
    exists (l :: ls), s', tr'. repeat split; [by constructor| |done].
    simpl. by rewrite Hs.
Qed.

(** Whatever the scheduler does with the pool's own threads, it does no
    more than [effort s] steps. *)
Lemma own_run_bounded ls s tr s' tr' :
  Forall own ls → run ls s tr = Some (s', tr') →
  length ls + effort s' ≤ effort s.
Proof.
  intros Hall. revert s tr. induction Hall as [|l ls Hl _ IH]; intros s tr.
  - simpl. by intros [= <- <-].
  - simpl. destruct (step l s) as [[s1 ev]|] eqn:Hs; [|done].
    intros Hrun%IH. pose proof (own_step_effort _ _ _ _ Hl Hs). lia.
Qed.

Lemma holding_nil ws : (∀ x, x ∈ ws → held x = None) → holding ws = [].
Proof.
  unfold holding. induction ws as [|x ws IH]; [done|]. intros H.
  simpl. rewrite (H x) by apply list_elem_of_here.
  apply IH. intros y Hy. apply H. by apply list_elem_of_further.
Qed.

(** ** No lost wake-up *)

Lemma awake_init n : awake (ThreadPool n).
Proof. by intros H. Qed.

Lemma awake_transition n s tr ev s' :
  ledger s tr → control n s → awake s → transition s ev s' → awake s'.
Proof.
  intros L C A T. unfold awake in *.
  destruct T; simpl in *; try done.
  - (* accepted submit: its notify_one is still to come *)
    intros _ _. right. lia.
  - (* notify_one finds a waiter, or nobody sleeps *)
    intros Hq Hne. left.
    destruct (notify_one_cases _ _ _ H) as [[Hp ->]|[Hnw ->]].
    + exists AtLock. split; [|done].
      apply list_elem_of_insert. by eapply lookup_lt_Some.
    + destruct ws as [|x ws]; [done|]. exists x.
      split; [apply list_elem_of_here|].
      destruct x; try done.
      * exfalso. apply Hnw, list_elem_of_here.
      * destruct (ctl_exit _ _ C) as [_ Hs]; [apply list_elem_of_here|].
        done.
      * exfalso. eapply (led_alive _ _ L), list_elem_of_here.
  - intros _ _. left. exists (Holding t). split; [|done].
    apply list_elem_of_insert. by eapply lookup_lt_Some.
  - intros _ _. left. exists AtLock. split; [|done].
    apply list_elem_of_insert. by eapply lookup_lt_Some.
  - exfalso. eapply H0, ledger_holding_pending; [done|]. exact L.
  - intros _ _. left. exists AtLock. split; [|done].
    apply list_elem_of_insert. by eapply lookup_lt_Some.
  - intros Hq Hne.
    destruct A as [(x & Hx & Hb)|Hk]; [done|by destruct ws| |by right].
    left. exists x. split; [|done]. unfold notify_all.
    apply list_elem_of_fmap. exists x. split; [by destruct x | done].
Qed.

Lemma reachable_awake n s tr : reachable n s tr → awake s.
Proof.
  induction 1 as [|s tr l s' ev Hr IH Hstep]; [apply awake_init|].
  eapply awake_transition; [by eapply reachable_ledger
                           |by eapply reachable_control|done|].
  by eapply step_transition.
Qed.

(** ** What has run when the workers are at rest *)

Lemma rest_drained s tr :
  ledger s tr → tasks s = [] → (∀ x, x ∈ workers s → ¬ busy x) →
  tasks s = [] ∧ holding (workers s) = [] ∧ enqueued tr = dequeued tr
  ∧ enqueued tr ≡ₚ invoked tr.
Proof.
  intros L Ht Hq.
  assert (holding (workers s) = []) as Hh.
  { apply holding_nil. intros x Hx. specialize (Hq x Hx).
    destruct x; try done. }
  pose proof (led_fifo _ _ L) as Hf. pose proof (led_held _ _ L) as Hp.
  rewrite Ht, app_nil_r in Hf. rewrite Hh, app_nil_r in Hp.
  repeat split; try done. by rewrite Hf.
Qed.

(** No worker is busy and no caller owes a [notify_one]: every accepted
    task has run. *)
Lemma quiescent_drained n s tr :
  reachable n s tr → 1 ≤ n →
  (∀ x, x ∈ workers s → ¬ busy x) → notifying s = 0 →
  tasks s = [] ∧ holding (workers s) = [] ∧ enqueued tr = dequeued tr
  ∧ enqueued tr ≡ₚ invoked tr.
Proof.
  intros Hr Hn Hq Hk.
  pose proof (reachable_ledger _ _ _ Hr) as L.
  pose proof (reachable_control _ _ _ Hr) as C.
  pose proof (reachable_awake _ _ _ Hr) as A.
  apply rest_drained; [done| |done].
  destruct (tasks s) as [|t q] eqn:Hq'; [done|]. exfalso.
  destruct A as [(x & Hx & Hb)|Hpos].
  - by rewrite Hq'.
  - intros Hnil. pose proof (ctl_size _ _ C) as Hl.
    rewrite Hnil in Hl. simpl in Hl. lia.
  - by eapply Hq.
  - lia.
Qed.

(** The destructor is done: every accepted task has run. *)
Lemma done_drained n s tr :
  reachable n s tr → 1 ≤ n → dtor s = Done →
  tasks s = [] ∧ holding (workers s) = [] ∧ enqueued tr = dequeued tr
  ∧ enqueued tr ≡ₚ invoked tr.
Proof.
  intros Hr Hn Hd.
  pose proof (reachable_control _ _ _ Hr) as C.
  pose proof (ctl_join _ _ C) as Hj. rewrite Hd in Hj.
  apply rest_drained; [by eapply reachable_ledger| |].
  - apply (ctl_exit _ _ C).
    pose proof (ctl_size _ _ C) as Hl.
    destruct (workers s) as [|x ws]; [simpl in Hl; lia|].
    rewrite (Hj x) by apply list_elem_of_here. apply list_elem_of_here.
  - intros x Hx. rewrite (Hj x Hx). by intros [].
Qed.

(** Workers and notifying callers can always be run until the pool is at
    rest. *)
Lemma workers_possible n s tr :
  reachable n s tr →
  ∃ ls s' tr',
    Forall serving ls ∧ run ls s tr = Some (s', tr') ∧ at_rest s'.
Proof.
  remember (work s) as k eqn:Hk. revert s tr Hk.
  induction k as [k IH] using lt_wf_ind. intros s tr -> Hr.
  destruct (decide (Exists busy (workers s))) as [Hb|Hb].
  - apply Exists_exists in Hb as (x & [w Hw]%list_elem_of_lookup & Hb).
    destruct (worker_step_enabled w s x Hw Hb) as [[s1 ev] Hs].
    assert (step (LWorker w) s = Some (s1, ev)) as Hs' by done.
    destruct (IH (work s1)
                 (serving_step_work (LWorker w) _ _ _ I Hs') s1
                 (tr ++ ev) eq_refl (reach_step _ _ _ _ _ _ Hr Hs'))
      as (ls & s' & tr' & Hall & Hrun & Hrest).
    exists (LWorker w :: ls), s', tr'.
    split; [by constructor|]. split; [|done]. simpl. by rewrite Hs.
  - destruct (decide (notifying s = 0)) as [Hk|Hk].
    + exists [], s, tr. split; [constructor|]. split; [done|].
      split; [|done]. intros x Hx Hbx. apply Hb, Exists_exists. eauto.
    + destruct (submit_notify_enabled s) as (pick & [s1 ev] & Hs); [lia|].
      assert (step (LNotify pick) s = Some (s1, ev)) as Hs' by done.
      destruct (IH (work s1)
                   (serving_step_work (LNotify pick) _ _ _ I Hs') s1
                   (tr ++ ev) eq_refl (reach_step _ _ _ _ _ _ Hr Hs'))
        as (ls & s' & tr' & Hall & Hrun & Hrest).
      exists (LNotify pick :: ls), s', tr'.
      split; [by constructor|]. split; [|done]. simpl. by rewrite Hs.
Qed.

(** A pool in which no serving step is possible is at rest. *)
Lemma stuck_at_rest s : (∀ l, serving l → step l s = None) → at_rest s.
Proof.
  intros Hstuck. split.
  - intros x [w Hw]%list_elem_of_lookup Hb.
    destruct (worker_step_enabled w s x Hw Hb) as [r Hr].
    pose proof (Hstuck (LWorker w) I) as Hn. simpl in Hn. congruence.
  - destruct (decide (notifying s = 0)) as [|Hk]; [done|]. exfalso.
    destruct (submit_notify_enabled s) as (pick & r & Hs); [lia|].
    pose proof (Hstuck (LNotify pick) I) as Hn. simpl in Hn. congruence.
Qed.

Lemma worker_run_bounded ls s tr s' tr' :
  Forall serving ls → run ls s tr = Some (s', tr') →
  length ls + work s' ≤ work s.
Proof.
  intros Hall. revert s tr. induction Hall as [|l ls Hl _ IH]; intros s tr.
  - simpl. by intros [= <- <-].
  - simpl. destruct (step l s) as [[s1 ev]|] eqn:Hs; [|done].
    intros Hrun%IH. pose proof (serving_step_work _ _ _ _ Hl Hs). lia.
Qed.

(** ** One worker: tasks run in the order in which they left the queue *)

Lemma single_lookup (ws : list wstate) w x :
  length ws ≤ 1 → ws !! w = Some x → ws = [x] ∧ w = 0.
Proof.
  destruct ws as [|y [|z ws]]; simpl; intros Hl Hw; try done; [|lia].
  destruct w; simpl in Hw; [|done]. by injection Hw as ->.
Qed.

Lemma in_order_transition s tr ev s' :
  length (workers s) ≤ 1 → ledger s tr →
  in_order s tr → transition s ev s' → in_order s' (tr ++ ev).
Proof.
  unfold in_order. intros Hl L Ho T.
  destruct T; simpl in *; trace_simpl;
    try (destruct (single_lookup _ _ _ Hl H) as [-> ->]; simpl in *;
         by rewrite ?app_nil_r in *).
  - done.
  - done.
  - by rewrite (holding_notify_one _ _ _ H).
  - destruct (single_lookup _ _ _ Hl H) as [-> ->]. simpl in *.
    by rewrite Ho, app_nil_r.
  - done.
  - by rewrite holding_notify_all.
  - done.
Qed.

Lemma reachable_in_order n s tr :
  n ≤ 1 → reachable n s tr → in_order s tr.
Proof.
  intros Hn. induction 1 as [|s tr l s' ev Hr IH Hstep].
  - unfold in_order. simpl. by rewrite holding_replicate.
  - eapply in_order_transition; [|by eapply reachable_ledger|done|].
    + by rewrite (ctl_size _ _ (reachable_control _ _ _ Hr)).
    + by eapply step_transition.
Qed.

(** ** Joins in the trace *)

Lemma joins_init n : joins (ThreadPool n) [].
Proof. split; simpl; [|done]. by intros th w ?%elem_of_nil. Qed.

(** Workers change, none of them one that had returned. *)
Lemma joins_workers ws ws' q b h d k q' b' h' k' tr ev :
  (∀ w, ws !! w = Some Returned → ws' !! w = Some Returned) →
  length ws' = length ws →
  (∀ th w, (th, Join w) ∉ ev) →
  joins (Pool ws q b h d k) tr → joins (Pool ws' q' b' h' d k') (tr ++ ev).
Proof.
  intros Hret Hlen Hev [Hs Hc]. split; simpl in *.
  - intros th w [Hin|Hin]%elem_of_app; [|by apply Hev in Hin].
    destruct (Hs th w Hin) as [-> Hw]. split; [done|]. by apply Hret.
  - destruct d as [| |i|]; try done.
    + intros w Hw. apply elem_of_app. left. by apply Hc.
    + intros w Hw. apply elem_of_app. left. apply Hc. by rewrite <- Hlen.
Qed.

Lemma insert_keeps_returned (ws : list wstate) w x y j :
  ws !! w = Some x → x ≠ Returned →
  ws !! j = Some Returned → <[w := y]> ws !! j = Some Returned.
Proof.
  intros Hw Hx Hj. rewrite list_lookup_insert_ne; [done|].
  intros ->. congruence.
Qed.

Ltac no_join :=
  let th := fresh in let w := fresh in let H := fresh in
  intros th w H; repeat (apply elem_of_cons in H as [H|H]; [done|]);
  by apply elem_of_nil in H.

Lemma joins_transition s tr ev s' :
  joins s tr → transition s ev s' → joins s' (tr ++ ev).
Proof.
  intros J T. destruct T.
  - eapply joins_workers; [| |no_join|exact J]; done.
  - eapply joins_workers; [| |no_join|exact J]; done.
  - eapply joins_workers; [| |no_join|exact J].
    + destruct (notify_one_cases _ _ _ H) as [[Hp ->]|[_ ->]]; [|done].
      intros j. by eapply insert_keeps_returned.
    + by eapply length_notify_one.
  - eapply joins_workers; [| |no_join|exact J].
    + intros j. by eapply insert_keeps_returned.
    + apply length_insert.
  - eapply joins_workers; [| |no_join|exact J].
    + intros j. by eapply insert_keeps_returned.
    + apply length_insert.
  - eapply joins_workers; [| |no_join|exact J].
    + intros j. by eapply insert_keeps_returned.
    + apply length_insert.
  - eapply joins_workers; [| |no_join|exact J].
    + intros j. by eapply insert_keeps_returned.
    + apply length_insert.
  - eapply joins_workers; [| |no_join|exact J].
    + intros j. by eapply insert_keeps_returned.
    + apply length_insert.
  - eapply joins_workers; [| |no_join|exact J].
    + intros j. by eapply insert_keeps_returned.
    + apply length_insert.
  - destruct J as [Hs Hc]. split; simpl in *; [|done].
    intros th w [Hin|Hin]%elem_of_app; [by apply Hs|].
    revert Hin. unfold ev_stop.
    rewrite !elem_of_cons, elem_of_nil. by intros [?|[?|[?|[]]]].
  - destruct J as [Hs Hc]. split; simpl in *; [|intros w Hw; lia].
    intros th w [Hin|Hin]%elem_of_app.
    + destruct (Hs th w Hin) as [-> Hw]. split; [done|].
      by apply notify_all_returned.
    + apply list_elem_of_singleton in Hin. done.
  - destruct J as [Hs Hc]. split; simpl in *.
    + intros th w [Hin|Hin]%elem_of_app; [by apply Hs|].
      apply list_elem_of_singleton in Hin. by injection Hin as -> ->.
    + intros w Hw. apply elem_of_app.
      destruct (decide (w = i)) as [->|Hne].
      * right. apply list_elem_of_here.
      * left. apply Hc. lia.
  - destruct J as [Hs Hc]. split; simpl in *; rewrite app_nil_r; [done|].
    intros w Hw. apply Hc. apply lookup_ge_None in H. lia.
Qed.

Lemma reachable_joins n s tr : reachable n s tr → joins s tr.
Proof.
  induction 1 as [|s tr l s' ev _ IH Hstep]; [apply joins_init|].
  eapply joins_transition; [done|]. by eapply step_transition.
Qed.

(** ** Destroying the queue *)

Lemma abandon_other t h a :
  h !! a ≠ Some Pending → abandon t h !! a = h !! a.
Proof.
  intros Ha. unfold abandon.
  destruct (h !! pt_state t) as [[|o]|] eqn:Ht; try done.
  rewrite lookup_insert_ne; [done|]. intros Heq. by rewrite Heq in Ht.
Qed.

Lemma destroy_other q h a :
  h !! a ≠ Some Pending → foldr abandon h q !! a = h !! a.
Proof.
  intros Ha. induction q as [|t q IH]; [done|]. simpl.
  rewrite abandon_other; [done|]. by rewrite IH.
Qed.

Lemma destroy_queued q h a :
  a ∈ pt_state <$> q → h !! a = Some Pending →
  foldr abandon h q !! a
  = Some (Ready (Exception (future_error broken_promise))).
Proof.
  intros Hin Ha. induction q as [|t q IH]; [by apply elem_of_nil in Hin|].
  simpl. rewrite fmap_cons in Hin.
  destruct (decide (a ∈ pt_state <$> q)) as [Hq|Hq].
  - rewrite abandon_other; [by apply IH|]. by rewrite (IH Hq).
  - apply elem_of_cons in Hin as [->|Hin]; [|done].
    clear IH.
    assert (foldr abandon h q !! pt_state t = Some Pending) as Hq'.
    { clear -Hq Ha. induction q as [|t' q IH]; [done|]. simpl.
      rewrite fmap_cons in Hq. apply not_elem_of_cons in Hq as [Hne Hq].
      specialize (IH Hq). unfold abandon at 1.
      destruct (foldr abandon h q !! pt_state t') as [[|o]|]; try done.
      by rewrite lookup_insert_ne. }
    unfold abandon at 1. rewrite Hq'. apply lookup_insert_eq.
Qed.

(** ** Helpers on traces and single steps *)

Lemma run_start_reachable n ls s tr :
  run ls (ThreadPool n) [] = Some (s, tr) → reachable n s tr.
Proof. apply run_reachable. constructor. Qed.

Lemma enqueued_distinct s tr : ledger s tr → NoDup (enqueued tr).
Proof. intros L. eapply NoDup_fmap_1, (led_fresh _ _ L). Qed.

Lemma queued_enqueued s tr t : ledger s tr → t ∈ tasks s → t ∈ enqueued tr.
Proof.
  intros L Ht. rewrite (led_fifo _ _ L). apply elem_of_app. by right.
Qed.

Lemma dequeued_enqueued s tr t :
  ledger s tr → t ∈ dequeued tr → t ∈ enqueued tr.
Proof.
  intros L Ht. rewrite (led_fifo _ _ L). apply elem_of_app. by left.
Qed.

Lemma invoked_dequeued s tr t :
  ledger s tr → t ∈ invoked tr → t ∈ dequeued tr.
Proof.
  intros L Ht. rewrite (led_held _ _ L). apply elem_of_app. by left.
Qed.

Lemma invoked_enqueued s tr t :
  ledger s tr → t ∈ invoked tr → t ∈ enqueued tr.
Proof.
  intros L Ht. eapply dequeued_enqueued; [done|].
  by eapply invoked_dequeued.
Qed.

Lemma enqueued_state s tr t :
  ledger s tr → t ∈ enqueued tr → pt_state t ∈ dom (heap s).
Proof.
  intros L Ht. apply (led_dom _ _ L). by apply list_elem_of_fmap_2.
Qed.

Lemma omap_injective {A B} (f : A → option B) (l : list A) x y b :
  NoDup (omap f l) → x ∈ l → y ∈ l → f x = Some b → f y = Some b → x = y.
Proof.
  induction l as [|z l IH]; intros Hnd Hx Hy Hfx Hfy.
  { by apply elem_of_nil in Hx. }
  simpl in Hnd. destruct (f z) as [c|] eqn:Hz.
  - apply NoDup_cons in Hnd as [Hc Hnd].
    apply elem_of_cons in Hx as [->|Hx]; apply elem_of_cons in Hy as [->|Hy].
    + done.
    + exfalso. apply Hc. rewrite Hz in Hfx. injection Hfx as ->.
      apply list_elem_of_omap. eauto.
    + exfalso. apply Hc. rewrite Hz in Hfy. injection Hfy as ->.
      apply list_elem_of_omap. eauto.
    + by apply IH.
  - apply elem_of_cons in Hx as [->|Hx]; [congruence|].
    apply elem_of_cons in Hy as [->|Hy]; [congruence|].
    by apply IH.
Qed.

(** Neither [submit] nor a worker writes [stop]. *)
Lemma submit_enqueue_stop f s : stop (submit_enqueue f s).1.1 = stop s.
Proof. unfold submit_enqueue. by destruct (stop s) eqn:Hs. Qed.

Lemma submit_notify_stop pick s s' ev :
  submit_notify pick s = Some (s', ev) → stop s' = stop s.
Proof.
  unfold submit_notify. destruct (notifying s); [done|].
  destruct (notify_one pick (workers s)); simpl; [|done].
  by intros [= <- <-].
Qed.

Lemma worker_step_stop w s s' ev :
  worker_step w s = Some (s', ev) → stop s' = stop s.
Proof.
  unfold worker_step.
  destruct (workers s !! w) as [[| |t| |]|]; try done.
  - destruct (negb _); [by intros [= <- <-]|].
    destruct (_ && _); [by intros [= <- <-]|].
    destruct (tasks s); [done|]. by intros [= <- <-].
  - destruct (invoke t (heap s)) as [h [e|]]; by intros [= <- <-].
Qed.

Lemma worker_step_enqueued w s s' ev :
  worker_step w s = Some (s', ev) → enqueued ev = [].
Proof.
  unfold worker_step.
  destruct (workers s !! w) as [[| |t| |]|]; try done.
  - destruct (negb _); [by intros [= <- <-]|].
    destruct (_ && _); [by intros [= <- <-]|].
    destruct (tasks s); [done|]. by intros [= <- <-].
  - destruct (invoke t (heap s)) as [h [e|]]; by intros [= <- <-].
Qed.

Lemma submit_notify_enqueued pick s s' ev :
  submit_notify pick s = Some (s', ev) → enqueued ev = [].
Proof.
  unfold submit_notify. destruct (notifying s); [done|].
  destruct (notify_one pick (workers s)); simpl; [|done].
  by intros [= <- <-].
Qed.

Lemma wake_stop w s s' ev : wake w s = Some (s', ev) → stop s' = stop s.
Proof.
  unfold wake. destruct (workers s !! w) as [[| |t| |]|]; try done.
  by intros [= <- <-].
Qed.

(** * The claims *)

(** [submit] on a stopped pool, up to the throw. *)
Lemma submit_enqueue_stopped f s :
  stop s = true →
  submit_enqueue f s
  = (s, [(Caller, Lock); (Caller, Unlock)],
     inl (runtime_error "submit on stopped ThreadPool")).
Proof.
  intros Hs. unfold submit_enqueue. rewrite Hs, alloc_release.
  by destruct s.
Qed.

(** C1. On a pool whose [stop] flag is set, [submit] throws
    [std::runtime_error("submit on stopped ThreadPool")] for every callable
    and every choice of the scheduler.  The call leaves the pool and the
    heap exactly as they were, so the queue is unchanged and no shared
    state, hence no handle, exists for the task; and in every continuation
    of the run the task is never in the queue, never taken by a worker and
    never invoked. *)
Theorem submit_after_shutdown_rejected n ls s tr f pick :
  run ls (ThreadPool n) [] = Some (s, tr) →
  stop s = true →
  let t := PackagedTask f (fresh (dom (heap s))) in
  submit f pick s
  = Some (s, [(Caller, Lock); (Caller, Unlock)],
          inl (runtime_error "submit on stopped ThreadPool"))
  ∧ step (LSubmit f) s = Some (s, [(Caller, Lock); (Caller, Unlock)])
  ∧ ∀ ls' s' tr',
      run ls' s (tr ++ [(Caller, Lock); (Caller, Unlock)]) = Some (s', tr') →
      heap s' !! pt_state t = None
      ∧ (t ∉ enqueued tr') ∧ (t ∉ tasks s')
      ∧ (t ∉ dequeued tr') ∧ (t ∉ invoked tr').
Proof.
  intros Hrun Hstop t.
  assert (step (LSubmit f) s = Some (s, [(Caller, Lock); (Caller, Unlock)]))
    as Hstep.
  { simpl. by rewrite (submit_enqueue_stopped f s Hstop). }
  split; [|split; [done|]].
  - unfold submit. by rewrite (submit_enqueue_stopped f s Hstop).
  - intros ls' s' tr' Hrun'.
    pose proof (run_start_reachable _ _ _ _ Hrun) as Hr.
    pose proof (reach_step _ _ _ _ _ _ Hr Hstep) as Hr1.
    pose proof (run_reachable _ _ _ _ _ _ Hr1 Hrun') as Hr'.
    pose proof (reachable_ledger _ _ _ Hr') as L'.
    pose proof (reachable_ledger _ _ _ Hr) as L.
    destruct (run_stopped _ _ _ _ _ Hstop Hrun') as [_ Henq].
    rewrite enqueued_app in Henq. simpl in Henq. rewrite app_nil_r in Henq.
    assert (pt_state t ∉ dom (heap s')) as Hfresh.
    { rewrite (led_dom _ _ L'), Henq, <- (led_dom _ _ L). apply is_fresh. }
    assert (t ∉ enqueued tr') as Hnot.
    { intros Hin. by apply Hfresh, (enqueued_state _ _ _ L'). }
    split; [by apply not_elem_of_dom|]. split; [done|].
    split; [|split]; intros Hin; apply Hnot.
    + by eapply queued_enqueued.
    + by eapply dequeued_enqueued.
    + by eapply invoked_enqueued.
Qed.

Lemma submit_after_shutdown_rejected_witness :
  run [LDtor] (ThreadPool 1) []
  = Some (Pool [AtLock] [] true ∅ StopSet 0, ev_stop)
  ∧ submit (Returns 7) 0 (Pool [AtLock] [] true ∅ StopSet 0)
    = Some (Pool [AtLock] [] true ∅ StopSet 0,
            [(Caller, Lock); (Caller, Unlock)],
            inl (runtime_error "submit on stopped ThreadPool")).
Proof.
  assert (run [LDtor] (ThreadPool 1) []
          = Some (Pool [AtLock] [] true ∅ StopSet 0, ev_stop)) as H
    by reflexivity.
  split; [exact H|].
  exact (proj1 (submit_after_shutdown_rejected 1 [LDtor] _ _ (Returns 7) 0
                  H eq_refl)).
Defined.

(** [submit] on a pool that is not stopped and where nobody waits. *)
Lemma submit_no_waiter f pick s :
  stop s = false → Waiting ∉ workers s →
  submit f pick s
  = Some (Pool (workers s)
               (tasks s ++ [PackagedTask f (fresh (dom (heap s)))])
               false (<[fresh (dom (heap s)) := Pending]> (heap s))
               (dtor s) (notifying s),
          ev_accept (PackagedTask f (fresh (dom (heap s))))
          ++ [(Caller, NotifyOne)],
          inr (fresh (dom (heap s)))).
Proof.
  intros Hs Hnw. unfold submit, submit_enqueue, submit_notify.
  rewrite Hs. simpl. by rewrite (notify_one_no_waiter pick _ Hnw).
Qed.

(** The loop of the constructor, in closed form. *)
Lemma start_workers_spec can_start todo i ws :
  match start_workers can_start i todo ws with
  | inl ws' =>
      ws' = ws ++ replicate todo AtLock
      ∧ ∀ j, i ≤ j → j < i + todo → can_start j = true
  | inr k =>
      i ≤ k ∧ k < i + todo ∧ can_start k = false
      ∧ ∀ j, i ≤ j → j < k → can_start j = true
  end.
Proof.
  revert i ws. induction todo as [|todo IH]; intros i ws; simpl.
  - rewrite app_nil_r. split; [done|]. intros j ? ?. lia.
  - destruct (can_start i) eqn:Hi.
    + specialize (IH (S i) (ws ++ [AtLock])).
      destruct (start_workers can_start (S i) todo (ws ++ [AtLock]))
        as [ws'|k].
      * destruct IH as [-> Hall]. split; [by rewrite <- (assoc_L (++))|].
        intros j Hj1 Hj2. destruct (decide (j = i)) as [->|Hne]; [done|].
        apply Hall; lia.
      * destruct IH as (Hk1 & Hk2 & Hk & Hall).
        split; [lia|]. split; [lia|]. split; [done|].
        intros j Hj1 Hj2. destruct (decide (j = i)) as [->|Hne]; [done|].
        apply Hall; lia.
    + split; [lia|]. split; [lia|]. split; [done|]. intros j ? ?. lia.
Qed.

(** C2, as the code has it.  The constructor does not check its argument.
    With [num_threads] zero the loop that starts the workers does not run,
    so whatever the system would do about new threads, the call succeeds
    and yields a pool without workers, with an empty queue and [stop]
    clear, and this pool accepts submissions.  For every [num_threads] the
    call succeeds exactly when each of the [num_threads] threads can be
    started, and then yields the pool with that many workers; it throws
    exactly when the first thread cannot be started, which needs
    [num_threads] to be positive. *)
Theorem construct_does_not_validate (can_start : nat → bool)
    (num_threads : nat) :
  construct can_start 0 = Constructed (ThreadPool 0)
  ∧ workers (ThreadPool 0) = []
  ∧ tasks (ThreadPool 0) = []
  ∧ stop (ThreadPool 0) = false
  ∧ (∀ f pick, ∃ s' ev a,
       submit f pick (ThreadPool 0) = Some (s', ev, inr a))
  ∧ ((∀ i, i < num_threads → can_start i = true)
     ↔ construct can_start num_threads
       = Constructed (ThreadPool num_threads))
  ∧ (∀ s, construct can_start num_threads = Constructed s →
       s = ThreadPool num_threads)
  ∧ (construct can_start num_threads = StartFailed
     ↔ 0 < num_threads ∧ can_start 0 = false)
  ∧ (construct can_start num_threads = Aborted
     ↔ ∃ i, 0 < i ∧ i < num_threads ∧ can_start i = false
            ∧ ∀ j, j < i → can_start j = true).
Proof.
  split; [done|]. split; [done|]. split; [done|]. split; [done|]. split.
  { intros f pick. rewrite submit_no_waiter; [eauto|done|].
    by intros ?%elem_of_nil. }
  unfold construct.
  pose proof (start_workers_spec can_start num_threads 0 []) as Hspec.
  destruct (start_workers can_start 0 num_threads []) as [ws|k].
  - destruct Hspec as [-> Hall]. simpl in *.
    split; [|split; [|split]].
    + split; [done|]. intros _ i Hi. apply Hall; lia.
    + by intros s [= <-].
    + split; [done|]. intros [Hpos Hf]. rewrite Hall in Hf; [done|lia|lia].
    + split; [done|]. intros (i & Hi1 & Hi2 & Hf & _).
      rewrite Hall in Hf; [done|lia|lia].
  - destruct Hspec as (_ & Hk & Hf & Hall). simpl in Hk.
    split; [|split; [|split]].
    + split; [|by destruct k]. intros Hok. rewrite Hok in Hf; done.
    + intros s. by destruct k.
    + destruct k as [|k].
      * split; [done|]. done.
      * split; [done|]. intros [_ H0]. rewrite Hall in H0; [done|lia|lia].
    + destruct k as [|k].
      * split; [done|]. intros (i & Hi1 & Hi2 & Hfi & Hj).
        rewrite Hj in Hf; [done|lia].
      * split; [|done]. intros _. exists (S k).
        split; [lia|]. split; [done|]. split; [done|].
        intros j Hj. apply Hall; lia.
Qed.

(** C2 as stated fails: [ThreadPool(0)] is constructed, whatever the system
    would do about new threads; the pool has no workers and takes a
    submission. *)
Lemma zero_workers_constructed :
  (∀ can_start,
     construct can_start 0 = Constructed (Pool [] [] false ∅ NotCalled 0))
  ∧ construct (λ _, false) 0 ≠ StartFailed
  ∧ construct (λ _, false) 0 ≠ Aborted
  ∧ submit (Returns 1) 0 (Pool [] [] false ∅ NotCalled 0)
    = Some (Pool [] [PackagedTask (Returns 1) 0] false {[0 := Pending]}
                 NotCalled 0,
            ev_accept (PackagedTask (Returns 1) 0) ++ [(Caller, NotifyOne)],
            inr 0).
Proof.
  split; [reflexivity|]. split; [discriminate|]. split; [discriminate|].
  reflexivity.
Qed.

(** A worker leaves its loop only from a state with [stop] set and the
    queue empty. *)
Lemma worker_exit_condition w s s' ev :
  worker_step w s = Some (s', ev) → (Worker w, Exit) ∈ ev →
  stop s = true ∧ tasks s = [].
Proof.
  unfold worker_step.
  destruct (workers s !! w) as [[| |t| |]|]; try done.
  - destruct (stop s), (tasks s) as [|t q]; simpl; try done;
      intros [= <- <-] Hex; exfalso;
      repeat (apply elem_of_cons in Hex as [Hex|Hex]; [discriminate Hex|]);
      by apply elem_of_nil in Hex.
  - destruct (invoke t (heap s)) as [h [e|]]; intros [= <- <-] Hex; exfalso;
      repeat (apply elem_of_cons in Hex as [Hex|Hex]; [discriminate Hex|]);
      by apply elem_of_nil in Hex.
Qed.

(** A run of the pool's own threads that can go no further has finished
    the destructor. *)
Lemma own_run_maximal n s tr ls s' tr' :
  reachable n s tr → run ls s tr = Some (s', tr') →
  (∀ l, own l → step l s' = None) → dtor s' = Done.
Proof.
  intros Hr Hrun Hmax.
  pose proof (run_reachable _ _ _ _ _ _ Hr Hrun) as Hr'.
  destruct (decide (dtor s' = Done)) as [|Hd]; [done|]. exfalso.
  destruct (shutdown_no_deadlock _ _ _ Hr' Hd) as (l & s1 & ev & Hl & Hs).
  by rewrite (Hmax l Hl) in Hs.
Qed.

(** C3, for a pool with at least one worker.  A worker leaves its loop
    only from a state with [stop] set and the queue empty, and once a
    worker has left both stay so.  When the destructor is done the queue
    is empty and every accepted task has been invoked.  The destructor
    does get done: from every reachable state some schedule of workers and
    destructor finishes it, no such schedule is longer than [effort s],
    and one that cannot be extended has finished it. *)
Theorem queue_drained_before_shutdown_ends n ls s tr :
  1 ≤ n →
  run ls (ThreadPool n) [] = Some (s, tr) →
  (∀ w s' ev,
     worker_step w s = Some (s', ev) → (Worker w, Exit) ∈ ev →
     stop s = true ∧ tasks s = [])
  ∧ (Returned ∈ workers s → stop s = true ∧ tasks s = [])
  ∧ (dtor s = Done →
       tasks s = [] ∧ ∀ t, t ∈ enqueued tr → t ∈ invoked tr)
  ∧ (∃ ls' s' tr',
       Forall own ls' ∧ run ls' s tr = Some (s', tr') ∧ dtor s' = Done)
  ∧ (∀ ls' s' tr',
       Forall own ls' → run ls' s tr = Some (s', tr') →
       length ls' ≤ effort s
       ∧ ((∀ l, own l → step l s' = None) → dtor s' = Done)).
Proof.
  intros Hn Hrun. pose proof (run_start_reachable _ _ _ _ Hrun) as Hr.
  split; [intros w s' ev; apply worker_exit_condition|].
  split; [apply (ctl_exit n), (reachable_control _ _ _ Hr)|].
  split.
  { intros Hd. destruct (done_drained _ _ _ Hr Hn Hd) as (Ht & _ & _ & Hp).
    split; [done|]. intros t Ht'. by rewrite <- Hp. }
  split; [by eapply shutdown_possible|].
  intros ls' s' tr' Hall Hrun'. split.
  - pose proof (own_run_bounded _ _ _ _ _ Hall Hrun'). lia.
  - by eapply own_run_maximal.
Qed.

Lemma queue_drained_before_shutdown_ends_witness :
  run [LSubmit (Returns 1); LNotify 0; LDtor; LDtor; LWorker 0; LWorker 0;
       LWorker 0; LDtor; LDtor] (ThreadPool 1) []
  = Some (Pool [Returned] [] true {[0 := Ready (Value 1)]} Done 0,
          ev_accept (PackagedTask (Returns 1) 0) ++ [(Caller, NotifyOne)]
          ++ ev_stop ++ [(Owner, NotifyAll)]
          ++ ev_pop 0 (PackagedTask (Returns 1) 0)
          ++ [(Worker 0, Invoke (PackagedTask (Returns 1) 0))] ++ ev_exit 0
          ++ [(Owner, Join 0)])
  ∧ ∀ t,
      t ∈ enqueued
            (ev_accept (PackagedTask (Returns 1) 0) ++ [(Caller, NotifyOne)]
             ++ ev_stop ++ [(Owner, NotifyAll)]
             ++ ev_pop 0 (PackagedTask (Returns 1) 0)
             ++ [(Worker 0, Invoke (PackagedTask (Returns 1) 0))] ++ ev_exit 0
             ++ [(Owner, Join 0)]) →
      t ∈ invoked
            (ev_accept (PackagedTask (Returns 1) 0) ++ [(Caller, NotifyOne)]
             ++ ev_stop ++ [(Owner, NotifyAll)]
             ++ ev_pop 0 (PackagedTask (Returns 1) 0)
             ++ [(Worker 0, Invoke (PackagedTask (Returns 1) 0))] ++ ev_exit 0
             ++ [(Owner, Join 0)]).
Proof.
  assert (run [LSubmit (Returns 1); LNotify 0; LDtor; LDtor; LWorker 0;
               LWorker 0; LWorker 0; LDtor; LDtor] (ThreadPool 1) []
          = Some (Pool [Returned] [] true {[0 := Ready (Value 1)]} Done 0,
                  ev_accept (PackagedTask (Returns 1) 0) ++ [(Caller, NotifyOne)]
                  ++ ev_stop ++ [(Owner, NotifyAll)]
                  ++ ev_pop 0 (PackagedTask (Returns 1) 0)
                  ++ [(Worker 0, Invoke (PackagedTask (Returns 1) 0))] ++ ev_exit 0
                  ++ [(Owner, Join 0)])) as H
    by (vm_compute; reflexivity).
  split; [exact H|].
  exact (proj2 (proj1 (proj2 (proj2
           (queue_drained_before_shutdown_ends 1 _ _ _ (le_n 1) H)))
           eq_refl)).
Defined.

(** C3 as stated fails for a pool without workers: the destructor finishes
    with the accepted task still queued and never invoked. *)
Lemma zero_workers_queue_discarded :
  run [LSubmit (Returns 1); LNotify 0; LDtor; LDtor; LDtor] (ThreadPool 0) []
  = Some (Pool [] [PackagedTask (Returns 1) 0] true {[0 := Pending]} Done 0,
          ev_accept (PackagedTask (Returns 1) 0) ++ [(Caller, NotifyOne)]
          ++ ev_stop ++ [(Owner, NotifyAll)])
  ∧ enqueued (ev_accept (PackagedTask (Returns 1) 0)
              ++ [(Caller, NotifyOne)] ++ ev_stop ++ [(Owner, NotifyAll)])
    = [PackagedTask (Returns 1) 0]
  ∧ invoked (ev_accept (PackagedTask (Returns 1) 0)
             ++ [(Caller, NotifyOne)] ++ ev_stop ++ [(Owner, NotifyAll)])
    = [].
Proof. split; [by vm_compute|]. split; reflexivity. Qed.

(** C4. In every run the tasks taken off the queue, in the order of the
    trace, followed by the tasks still queued, are the accepted tasks in
    the order of their submission.  With a single worker the invoked tasks
    are a prefix of the accepted ones: if T1 was submitted before T2 and T2
    has been invoked, then T1 has been invoked, earlier, and both at the
    position of their submission.  With two workers some run invokes the
    later task first. *)
Theorem fifo_dequeue_order n ls s tr :
  run ls (ThreadPool n) [] = Some (s, tr) →
  enqueued tr = dequeued tr ++ tasks s
  ∧ (n = 1 → enqueued tr = invoked tr ++ holding (workers s) ++ tasks s)
  ∧ (n = 1 → ∀ i j t1 t2,
       i < j → enqueued tr !! i = Some t1 → enqueued tr !! j = Some t2 →
       t2 ∈ invoked tr →
       invoked tr !! i = Some t1 ∧ invoked tr !! j = Some t2)
  ∧ (∃ ls2 s2 tr2 t1 t2,
       run ls2 (ThreadPool 2) [] = Some (s2, tr2)
       ∧ enqueued tr2 = [t1; t2] ∧ invoked tr2 = [t2; t1]).
Proof.
  intros Hrun. pose proof (run_start_reachable _ _ _ _ Hrun) as Hr.
  pose proof (reachable_ledger _ _ _ Hr) as L.
  split; [apply (led_fifo _ _ L)|].
  assert (n = 1 → enqueued tr = invoked tr ++ holding (workers s) ++ tasks s)
    as Hone.
  { intros ->. rewrite (led_fifo _ _ L).
    rewrite (reachable_in_order 1 s tr (le_n 1) Hr). by rewrite app_assoc. }
  split; [done|]. split.
  - intros Hn i j t1 t2 Hij H1 H2 [k Hk]%list_elem_of_lookup.
    specialize (Hone Hn).
    assert (enqueued tr !! k = Some t2) as Hk'.
    { rewrite Hone. by apply lookup_app_l_Some. }
    assert (k = j) as ->.
    { eapply NoDup_lookup; [by eapply enqueued_distinct|done..]. }
    split; [|done].
    apply lookup_lt_Some in Hk.
    rewrite Hone, lookup_app_l in H1 by lia. done.
  - exists [LSubmit (Returns 1); LNotify 0; LSubmit (Returns 2); LNotify 0;
            LWorker 0; LWorker 1; LWorker 1; LWorker 0].
    eexists _, _, (PackagedTask (Returns 1) 0), (PackagedTask (Returns 2) 1).
    split; [by vm_compute|]. by split.
Qed.

Lemma fifo_dequeue_order_witness :
  run [LSubmit (Returns 1); LNotify 0; LSubmit (Returns 2); LNotify 0;
       LWorker 0; LWorker 0] (ThreadPool 1) []
  = Some (Pool [AtLock] [PackagedTask (Returns 2) 1] false
               {[0 := Ready (Value 1); 1 := Pending]} NotCalled 0,
          ev_accept (PackagedTask (Returns 1) 0) ++ [(Caller, NotifyOne)]
          ++ ev_accept (PackagedTask (Returns 2) 1) ++ [(Caller, NotifyOne)]
          ++ ev_pop 0 (PackagedTask (Returns 1) 0)
          ++ [(Worker 0, Invoke (PackagedTask (Returns 1) 0))])
  ∧ enqueued (ev_accept (PackagedTask (Returns 1) 0) ++ [(Caller, NotifyOne)]
              ++ ev_accept (PackagedTask (Returns 2) 1) ++ [(Caller, NotifyOne)]
              ++ ev_pop 0 (PackagedTask (Returns 1) 0)
              ++ [(Worker 0, Invoke (PackagedTask (Returns 1) 0))])
    = dequeued (ev_accept (PackagedTask (Returns 1) 0) ++ [(Caller, NotifyOne)]
                ++ ev_accept (PackagedTask (Returns 2) 1) ++ [(Caller, NotifyOne)]
                ++ ev_pop 0 (PackagedTask (Returns 1) 0)
                ++ [(Worker 0, Invoke (PackagedTask (Returns 1) 0))])
      ++ [PackagedTask (Returns 2) 1].
Proof.
  assert (run [LSubmit (Returns 1); LNotify 0; LSubmit (Returns 2);
               LNotify 0; LWorker 0; LWorker 0] (ThreadPool 1) []
          = Some (Pool [AtLock] [PackagedTask (Returns 2) 1] false
                       {[0 := Ready (Value 1); 1 := Pending]} NotCalled 0,
                  ev_accept (PackagedTask (Returns 1) 0) ++ [(Caller, NotifyOne)]
                  ++ ev_accept (PackagedTask (Returns 2) 1) ++ [(Caller, NotifyOne)]
                  ++ ev_pop 0 (PackagedTask (Returns 1) 0)
                  ++ [(Worker 0, Invoke (PackagedTask (Returns 1) 0))])) as H
    by (vm_compute; reflexivity).
  split; [exact H|].
  exact (proj1 (fifo_dequeue_order 1 _ _ _ H)).
Defined.

(** A schedule of workers and notifying callers accepts no task. *)
Lemma serving_run_enqueued ls s tr s' tr' :
  Forall serving ls → run ls s tr = Some (s', tr') →
  enqueued tr' = enqueued tr.
Proof.
  intros Hall. revert s tr.
  induction Hall as [|l ls Hl _ IH]; intros s tr; simpl.
  - by intros [= <- <-].
  - destruct (step l s) as [[s1 ev]|] eqn:Hs; [|done].
    intros ->%IH. rewrite enqueued_app.
    destruct l as [f|pick|w|w|]; try done; simpl in Hs.
    + by rewrite (submit_notify_enqueued _ _ _ _ Hs), app_nil_r.
    + by rewrite (worker_step_enqueued _ _ _ _ Hs), app_nil_r.
Qed.

(** C5. In a pool with at least one worker the accepted tasks have
    pairwise distinct shared states; no task is taken off the queue twice,
    and no two workers take the same task; no task is invoked twice, and
    only accepted tasks are invoked.  When the pool is at rest, and when
    the destructor is done, the invoked tasks are the accepted tasks, each
    once.  Workers and notifying callers can always be run until the pool
    is at rest; no such schedule is longer than [work s], and one that
    cannot be extended has invoked every accepted task. *)
Theorem each_task_runs_once n ls s tr :
  1 ≤ n →
  run ls (ThreadPool n) [] = Some (s, tr) →
  NoDup (pt_state <$> enqueued tr)
  ∧ NoDup (dequeued tr)
  ∧ (∀ w1 w2 t,
       (Worker w1, Pop t) ∈ tr → (Worker w2, Pop t) ∈ tr → w1 = w2)
  ∧ NoDup (invoked tr)
  ∧ (∀ t, t ∈ invoked tr → t ∈ enqueued tr)
  ∧ (at_rest s → enqueued tr ≡ₚ invoked tr)
  ∧ (dtor s = Done → enqueued tr ≡ₚ invoked tr)
  ∧ (∃ ls' s' tr',
       Forall serving ls' ∧ run ls' s tr = Some (s', tr')
       ∧ at_rest s'
       ∧ enqueued tr' = enqueued tr
       ∧ enqueued tr' ≡ₚ invoked tr')
  ∧ (∀ ls' s' tr',
       Forall serving ls' → run ls' s tr = Some (s', tr') →
       length ls' ≤ work s
       ∧ ((∀ l, serving l → step l s' = None) →
          enqueued tr' = enqueued tr ∧ enqueued tr' ≡ₚ invoked tr')).
Proof.
  intros Hn Hrun. pose proof (run_start_reachable _ _ _ _ Hrun) as Hr.
  pose proof (reachable_ledger _ _ _ Hr) as L.
  pose proof (enqueued_distinct _ _ L) as Hnd.
  assert (NoDup (dequeued tr)) as Hdq.
  { rewrite (led_fifo _ _ L) in Hnd. by apply NoDup_app in Hnd as [? _]. }
  assert (NoDup (invoked tr)) as Hiv.
  { rewrite (led_held _ _ L) in Hdq. by apply NoDup_app in Hdq as [? _]. }
  split; [apply (led_fresh _ _ L)|]. split; [done|]. split.
  { intros w1 w2 t H1 H2.
    assert ((Worker w1, Pop t) = (Worker w2, Pop t)) as Heq
      by (by eapply (omap_injective popped tr)).
    by injection Heq. }
  split; [done|]. split; [intros t; by apply (invoked_enqueued s)|].
  split; [intros [Hq Hk]; by apply (quiescent_drained _ _ _ Hr Hn Hq Hk)|].
  split; [intros Hd; by apply (done_drained _ _ _ Hr Hn Hd)|].
  split.
  - destruct (workers_possible _ _ _ Hr)
      as (ls' & s' & tr' & Hall & Hrun' & Hq & Hk).
    exists ls', s', tr'. split; [done|]. split; [done|].
    pose proof (run_reachable _ _ _ _ _ _ Hr Hrun') as Hr'.
    split; [done|]. split; [by eapply serving_run_enqueued|].
    by apply (quiescent_drained _ _ _ Hr' Hn Hq Hk).
  - intros ls' s' tr' Hall Hrun'.
    split; [pose proof (worker_run_bounded _ _ _ _ _ Hall Hrun'); lia|].
    intros [Hq Hk]%stuck_at_rest.
    pose proof (run_reachable _ _ _ _ _ _ Hr Hrun') as Hr'.
    split; [by eapply serving_run_enqueued|].
    by apply (quiescent_drained _ _ _ Hr' Hn Hq Hk).
Qed.

Lemma each_task_runs_once_witness :
  run [LSubmit (Returns 1); LNotify 0;
       LSubmit (Throws (runtime_error "bad")); LNotify 0;
       LWorker 0; LWorker 1; LWorker 1; LWorker 0] (ThreadPool 2) []
  = Some (Pool [AtLock; AtLock] [] false
               {[0 := Ready (Value 1);
                 1 := Ready (Exception (runtime_error "bad"))]} NotCalled 0,
          ev_accept (PackagedTask (Returns 1) 0) ++ [(Caller, NotifyOne)]
          ++ ev_accept (PackagedTask (Throws (runtime_error "bad")) 1)
          ++ [(Caller, NotifyOne)]
          ++ ev_pop 0 (PackagedTask (Returns 1) 0)
          ++ ev_pop 1 (PackagedTask (Throws (runtime_error "bad")) 1)
          ++ [(Worker 1,
               Invoke (PackagedTask (Throws (runtime_error "bad")) 1));
              (Worker 0, Invoke (PackagedTask (Returns 1) 0))])
  ∧ NoDup (invoked
             (ev_accept (PackagedTask (Returns 1) 0) ++ [(Caller, NotifyOne)]
              ++ ev_accept (PackagedTask (Throws (runtime_error "bad")) 1)
              ++ [(Caller, NotifyOne)]
              ++ ev_pop 0 (PackagedTask (Returns 1) 0)
              ++ ev_pop 1 (PackagedTask (Throws (runtime_error "bad")) 1)
              ++ [(Worker 1,
                   Invoke (PackagedTask (Throws (runtime_error "bad")) 1));
                  (Worker 0, Invoke (PackagedTask (Returns 1) 0))])).
Proof.
  assert (run [LSubmit (Returns 1); LNotify 0;
               LSubmit (Throws (runtime_error "bad")); LNotify 0;
               LWorker 0; LWorker 1; LWorker 1; LWorker 0] (ThreadPool 2) []
          = Some (Pool [AtLock; AtLock] [] false
                       {[0 := Ready (Value 1);
                         1 := Ready (Exception (runtime_error "bad"))]}
                       NotCalled 0,
                  ev_accept (PackagedTask (Returns 1) 0) ++ [(Caller, NotifyOne)]
                  ++ ev_accept (PackagedTask (Throws (runtime_error "bad")) 1)
                  ++ [(Caller, NotifyOne)]
                  ++ ev_pop 0 (PackagedTask (Returns 1) 0)
                  ++ ev_pop 1 (PackagedTask (Throws (runtime_error "bad")) 1)
                  ++ [(Worker 1,
                       Invoke (PackagedTask (Throws (runtime_error "bad")) 1));
                      (Worker 0, Invoke (PackagedTask (Returns 1) 0))])) as H
    by (vm_compute; reflexivity).
  split; [exact H|].
  exact (proj1 (proj2 (proj2 (proj2
           (each_task_runs_once 2 _ _ _ (le_S 1 1 (le_n 1)) H))))).
Defined.

(** What [get] delivers for a task that has run. *)
Lemma future_get_ready h a f :
  h !! a = Some (Ready (call f)) →
  future_get a h
  = Some (match f with Returns v => inr v | Throws e => inl e end).
Proof. unfold future_get. intros ->. by destruct f. Qed.

(** An accepted task is invoked, held by a worker, or queued. *)
Lemma enqueued_cases s tr t :
  ledger s tr → t ∈ enqueued tr →
  t ∈ invoked tr ∨ t ∈ tasks s ++ holding (workers s).
Proof.
  intros L. rewrite (led_fifo _ _ L), elem_of_app, (led_held _ _ L).
  rewrite !elem_of_app. tauto.
Qed.

(** C6. No worker is ever terminated by an exception.  A worker that
    invokes a task whose body throws [e] stores [e] in the shared state of
    that task, touches nothing else, and is back at the top of its loop.
    In every reachable state each invoked task has its own outcome in its
    shared state, so [get] rethrows [e] for a task that threw and returns
    the value for a task that returned.  With at least one worker the pool
    can always go on until every accepted task has delivered its own
    outcome. *)
Theorem task_failure_contained n ls s tr :
  run ls (ThreadPool n) [] = Some (s, tr) →
  (∀ e, Terminated e ∉ workers s)
  ∧ (∀ w t e,
       workers s !! w = Some (Holding t) → pt_fn t = Throws e →
       worker_step w s
       = Some (Pool (<[w := AtLock]> (workers s)) (tasks s) (stop s)
                    (<[pt_state t := Ready (Exception e)]> (heap s))
                    (dtor s) (notifying s),
               [(Worker w, Invoke t)]))
  ∧ (∀ t e,
       t ∈ invoked tr → pt_fn t = Throws e →
       heap s !! pt_state t = Some (Ready (Exception e))
       ∧ future_get (pt_state t) (heap s) = Some (inl e))
  ∧ (∀ t v,
       t ∈ invoked tr → pt_fn t = Returns v →
       future_get (pt_state t) (heap s) = Some (inr v))
  ∧ (1 ≤ n →
     ∃ ls' s' tr',
       Forall serving ls' ∧ run ls' s tr = Some (s', tr')
       ∧ (∀ e, Terminated e ∉ workers s')
       ∧ ∀ t, t ∈ enqueued tr →
           future_get (pt_state t) (heap s')
           = Some (match pt_fn t with
                   | Returns v => inr v
                   | Throws e => inl e
                   end)).
Proof.
  intros Hrun. pose proof (run_start_reachable _ _ _ _ Hrun) as Hr.
  pose proof (reachable_ledger _ _ _ Hr) as L.
  split; [apply (led_alive _ _ L)|]. split.
  { intros w t e Hw Hf. unfold worker_step, invoke. rewrite Hw.
    destruct s as [ws q b h d k]. simpl in *.
    rewrite (ledger_holding_pending _ _ _ _ _ _ _ _ _ Hw L).
    by rewrite Hf. }
  split.
  { intros t e Ht Hf. pose proof (led_ready _ _ L t Ht) as Hc.
    rewrite Hf in Hc. split; [done|]. unfold future_get. by rewrite Hc. }
  split.
  { intros t v Ht Hf. pose proof (led_ready _ _ L t Ht) as Hc.
    rewrite Hf in Hc. unfold future_get. by rewrite Hc. }
  intros Hn.
  destruct (workers_possible _ _ _ Hr)
    as (ls' & s' & tr' & Hall & Hrun' & Hq & Hk).
  pose proof (run_reachable _ _ _ _ _ _ Hr Hrun') as Hr'.
  pose proof (reachable_ledger _ _ _ Hr') as L'.
  exists ls', s', tr'. split; [done|]. split; [done|].
  split; [apply (led_alive _ _ L')|].
  intros t Ht. apply future_get_ready, (led_ready _ _ L').
  destruct (quiescent_drained _ _ _ Hr' Hn Hq Hk) as (_ & _ & _ & Hp).
  rewrite <- Hp. destruct (run_trace _ _ _ _ _ Hrun') as [ev ->].
  rewrite enqueued_app. apply elem_of_app. by left.
Qed.

Lemma task_failure_contained_witness :
  run [LSubmit (Throws (runtime_error "boom")); LNotify 0;
       LSubmit (Returns 2); LNotify 0;
       LWorker 0; LWorker 0; LWorker 0; LWorker 0] (ThreadPool 1) []
  = Some (Pool [AtLock] [] false
               {[0 := Ready (Exception (runtime_error "boom"));
                 1 := Ready (Value 2)]} NotCalled 0,
          ev_accept (PackagedTask (Throws (runtime_error "boom")) 0)
          ++ [(Caller, NotifyOne)]
          ++ ev_accept (PackagedTask (Returns 2) 1)
          ++ [(Caller, NotifyOne)]
          ++ ev_pop 0 (PackagedTask (Throws (runtime_error "boom")) 0)
          ++ [(Worker 0,
               Invoke (PackagedTask (Throws (runtime_error "boom")) 0))]
          ++ ev_pop 0 (PackagedTask (Returns 2) 1)
          ++ [(Worker 0, Invoke (PackagedTask (Returns 2) 1))])
  ∧ ∀ e, Terminated e ∉ [AtLock].
Proof.
  assert (run [LSubmit (Throws (runtime_error "boom")); LNotify 0;
               LSubmit (Returns 2); LNotify 0;
               LWorker 0; LWorker 0; LWorker 0; LWorker 0] (ThreadPool 1) []
          = Some (Pool [AtLock] [] false
                       {[0 := Ready (Exception (runtime_error "boom"));
                         1 := Ready (Value 2)]} NotCalled 0,
                  ev_accept (PackagedTask (Throws (runtime_error "boom")) 0)
                  ++ [(Caller, NotifyOne)]
                  ++ ev_accept (PackagedTask (Returns 2) 1)
                  ++ [(Caller, NotifyOne)]
                  ++ ev_pop 0 (PackagedTask (Throws (runtime_error "boom")) 0)
                  ++ [(Worker 0,
                       Invoke
                         (PackagedTask (Throws (runtime_error "boom")) 0))]
                  ++ ev_pop 0 (PackagedTask (Returns 2) 1)
                  ++ [(Worker 0, Invoke (PackagedTask (Returns 2) 1))])) as H
    by (vm_compute; reflexivity).
  split; [exact H|].
  exact (proj1 (task_failure_contained 1 _ _ _ H)).
Defined.

(** C7, as the code has it.  Take the future of an accepted task.  As long
    as the pool exists, [get] blocks exactly while the task has not been
    invoked, and once it has, [get] returns the value of the task or
    rethrows what the task threw.  After the pool is destroyed the same
    holds for a task that was invoked; a task that was not invoked can only
    be one of a pool without workers, and its future holds
    [broken_promise]. *)
Theorem get_returns_recorded_outcome n ls s tr t :
  run ls (ThreadPool n) [] = Some (s, tr) →
  t ∈ enqueued tr →
  ((t ∉ invoked tr) → future_get (pt_state t) (heap s) = None)
  ∧ (t ∈ invoked tr →
       future_get (pt_state t) (heap s)
       = Some (match pt_fn t with Returns v => inr v | Throws e => inl e end))
  ∧ (dtor s = Done → t ∈ invoked tr →
       future_get (pt_state t) (destroy_members s)
       = Some (match pt_fn t with Returns v => inr v | Throws e => inl e end))
  ∧ (dtor s = Done → (t ∉ invoked tr) →
       n = 0
       ∧ future_get (pt_state t) (destroy_members s)
         = Some (inl (future_error broken_promise))).
Proof.
  intros Hrun Ht. pose proof (run_start_reachable _ _ _ _ Hrun) as Hr.
  pose proof (reachable_ledger _ _ _ Hr) as L.
  split.
  { intros Hni. destruct (enqueued_cases _ _ _ L Ht) as [|Hq]; [done|].
    unfold future_get. by rewrite (led_pending _ _ L t Hq). }
  split; [intros Hi; apply future_get_ready, (led_ready _ _ L t Hi)|].
  split.
  { intros _ Hi. apply future_get_ready. unfold destroy_members.
    rewrite destroy_other; rewrite (led_ready _ _ L t Hi); done. }
  intros Hd Hni.
  assert (n = 0) as ->.
  { destruct n; [done|]. exfalso. apply Hni.
    destruct (done_drained (S n) s tr Hr) as (_ & _ & _ & Hp); [lia|done|].
    by rewrite <- Hp. }
  split; [done|].
  destruct (enqueued_cases _ _ _ L Ht) as [|Hq]; [done|].
  pose proof (ctl_size _ _ (reachable_control _ _ _ Hr)) as Hl.
  apply nil_length_inv in Hl. rewrite Hl in Hq. simpl in Hq.
  rewrite app_nil_r in Hq.
  unfold future_get, destroy_members. rewrite destroy_queued; [done| |].
  - by apply list_elem_of_fmap_2.
  - apply (led_pending _ _ L). apply elem_of_app. by left.
Qed.

Lemma get_returns_recorded_outcome_witness :
  run [LSubmit (Returns 7); LNotify 0; LWorker 0; LWorker 0]
      (ThreadPool 1) []
  = Some (Pool [AtLock] [] false {[0 := Ready (Value 7)]} NotCalled 0,
          ev_accept (PackagedTask (Returns 7) 0) ++ [(Caller, NotifyOne)]
          ++ ev_pop 0 (PackagedTask (Returns 7) 0)
          ++ [(Worker 0, Invoke (PackagedTask (Returns 7) 0))])
  ∧ future_get 0 {[0 := Ready (Value 7)]} = Some (inr 7%Z).
Proof.
  assert (run [LSubmit (Returns 7); LNotify 0; LWorker 0; LWorker 0]
              (ThreadPool 1) []
          = Some (Pool [AtLock] [] false {[0 := Ready (Value 7)]} NotCalled 0,
                  ev_accept (PackagedTask (Returns 7) 0)
                  ++ [(Caller, NotifyOne)]
                  ++ ev_pop 0 (PackagedTask (Returns 7) 0)
                  ++ [(Worker 0, Invoke (PackagedTask (Returns 7) 0))])) as H
    by (vm_compute; reflexivity).
  split; [exact H|].
  refine (proj1 (proj2 (get_returns_recorded_outcome 1 _ _ _
                          (PackagedTask (Returns 7) 0) H _)) _).
  - apply list_elem_of_here.
  - apply list_elem_of_here.
Defined.

(** C7 as stated fails: the task of a pool without workers is never
    invoked, yet once the pool is destroyed [get] on its future returns,
    and what it propagates is [broken_promise], which is not what the task,
    a callable that returns 1, does. *)
Lemma get_after_destroy_broken_promise :
  run [LSubmit (Returns 1); LNotify 0; LDtor; LDtor; LDtor] (ThreadPool 0) []
  = Some (Pool [] [PackagedTask (Returns 1) 0] true {[0 := Pending]} Done 0,
          ev_accept (PackagedTask (Returns 1) 0) ++ [(Caller, NotifyOne)]
          ++ ev_stop ++ [(Owner, NotifyAll)])
  ∧ invoked (ev_accept (PackagedTask (Returns 1) 0) ++ [(Caller, NotifyOne)]
             ++ ev_stop ++ [(Owner, NotifyAll)])
    = []
  ∧ future_get 0
      (destroy_members
         (Pool [] [PackagedTask (Returns 1) 0] true {[0 := Pending]} Done 0))
    = Some (inl (future_error broken_promise)).
Proof. split; [by vm_compute|]. split; [reflexivity|by vm_compute]. Qed.

(** C8. On a pool whose [stop] flag is clear, [submit] returns the future
    of a fresh, pending shared state.  The packaged task pushed at the tail
    of the queue is the one that owns this state: invoking it stores the
    callable's value, or the exception it throws, there, and [get] then
    delivers it.  The push happens between the lock and the unlock; after
    the unlock comes one [notify_one] and no [notify_all], which wakes
    exactly one waiting worker when there is one; the call never waits and
    never joins, and some choice of the woken worker always exists, so the
    call cannot block.  For the scheduler the call is the critical section
    followed by the [notify_one].  Over a whole run the [notify_one] calls
    made and those still owed are as many as the accepted tasks. *)
Theorem submit_accepts s tr f pick ws' :
  stop s = false →
  notify_one pick (workers s) = Some ws' →
  let a := fresh (dom (heap s)) in
  let t := PackagedTask f a in
  let s1 :=
    Pool (workers s) (tasks s ++ [t]) false (<[a := Pending]> (heap s))
         (dtor s) (S (notifying s)) in
  let s' :=
    Pool ws' (tasks s ++ [t]) false (<[a := Pending]> (heap s))
         (dtor s) (notifying s) in
  let ev := [(Caller, Lock); (Caller, Emplace t); (Caller, Unlock);
             (Caller, NotifyOne)] in
  submit f pick s = Some (s', ev, inr a)
  ∧ step (LSubmit f) s
    = Some (s1, [(Caller, Lock); (Caller, Emplace t); (Caller, Unlock)])
  ∧ step (LNotify pick) s1 = Some (s', [(Caller, NotifyOne)])
  ∧ run [LSubmit f; LNotify pick] s tr = Some (s', tr ++ ev)
  ∧ heap s !! a = None
  ∧ future_get a (heap s') = None
  ∧ invoke t (heap s') = (<[a := Ready (call f)]> (heap s'), None)
  ∧ future_get a (invoke t (heap s')).1
    = Some (match f with Returns v => inr v | Throws e => inl e end)
  ∧ occurrences NotifyOne ev = 1
  ∧ occurrences NotifyAll ev = 0
  ∧ occurrences Wait ev = 0
  ∧ (∀ w, occurrences (Join w) ev = 0)
  ∧ ((workers s !! pick = Some Waiting
      ∧ ws' = <[pick := AtLock]> (workers s))
     ∨ ((Waiting ∉ workers s) ∧ ws' = workers s))
  ∧ (∃ pick0 ws0, notify_one pick0 (workers s) = Some ws0)
  ∧ ∀ n ls s0 tr0,
      run ls (ThreadPool n) [] = Some (s0, tr0) →
      occurrences NotifyOne tr0 + notifying s0 = length (enqueued tr0).
Proof.
  intros Hstop Hn a t s1 s' ev.
  assert (heap s !! a = None) as Hfresh
    by apply not_elem_of_dom, is_fresh.
  assert (invoke t (heap s') = (<[a := Ready (call f)]> (heap s'), None))
    as Hinv.
  { unfold invoke. simpl. by rewrite lookup_insert_eq. }
  assert (submit_enqueue f s
          = (s1, [(Caller, Lock); (Caller, Emplace t); (Caller, Unlock)],
             inr a)) as He.
  { unfold submit_enqueue. by rewrite Hstop. }
  assert (submit_notify pick s1 = Some (s', [(Caller, NotifyOne)])) as Hnt.
  { unfold submit_notify. simpl. by rewrite Hn. }
  split.
  { unfold submit. by rewrite He, Hnt. }
  split; [simpl; by rewrite He|]. split; [done|]. split.
  { simpl. rewrite He. simpl. rewrite Hnt. by rewrite <- app_assoc. }
  split; [done|]. split.
  { unfold future_get. simpl. by rewrite lookup_insert_eq. }
  split; [done|]. split.
  { rewrite Hinv. unfold future_get. simpl. rewrite lookup_insert_eq.
    by destruct f. }
  repeat (split; [done|]).
  split; [by apply notify_one_cases|].
  split; [apply notify_one_total|].
  intros n ls s0 tr0 Hrun.
  apply (tal_notify_one s0), (reachable_tally n).
  by eapply run_start_reachable.
Qed.

Lemma submit_accepts_witness :
  submit (Returns 5) 0 (Pool [Waiting; AtLock] [] false ∅ NotCalled 0)
  = Some (Pool [AtLock; AtLock] [PackagedTask (Returns 5) 0] false
               {[0 := Pending]} NotCalled 0,
          [(Caller, Lock); (Caller, Emplace (PackagedTask (Returns 5) 0));
           (Caller, Unlock); (Caller, NotifyOne)],
          inr 0).
Proof.
  exact (proj1 (submit_accepts
                  (Pool [Waiting; AtLock] [] false ∅ NotCalled 0) []
                  (Returns 5) 0 [AtLock; AtLock] eq_refl eq_refl)).
Defined.

(** C9. The [stop] flag starts false and no step resets it.  The only step
    that raises it is the first step of the destructor, which writes it
    between the lock and the unlock, and a run has at most one such write.
    The next step of the destructor is one [notify_all], after which no
    worker waits, and a run has at most one broadcast.  When the
    destructor is done every worker has returned and has been joined. *)
Theorem stop_flag_monotonic_teardown n ls s tr :
  run ls (ThreadPool n) [] = Some (s, tr) →
  stop (ThreadPool n) = false
  ∧ (∀ l s' ev, step l s = Some (s', ev) → stop s = true → stop s' = true)
  ∧ (∀ l s' ev,
       step l s = Some (s', ev) → stop s = false → stop s' = true →
       l = LDtor ∧ dtor s = NotCalled
       ∧ ev = [(Owner, Lock); (Owner, SetStop); (Owner, Unlock)])
  ∧ occurrences SetStop tr ≤ 1
  ∧ (stop s = true ↔ occurrences SetStop tr = 1)
  ∧ (dtor s = StopSet →
       dtor_step s
       = Some (set_dtor (Joining 0) (set_workers (notify_all (workers s)) s),
               [(Owner, NotifyAll)])
       ∧ Waiting ∉ notify_all (workers s))
  ∧ occurrences NotifyAll tr ≤ 1
  ∧ ((∃ i, dtor s = Joining i) ∨ dtor s = Done →
       occurrences NotifyAll tr = 1 ∧ Waiting ∉ workers s)
  ∧ (dtor s = Done →
       (∀ x, x ∈ workers s → x = Returned)
       ∧ ∀ w, w < n → (Owner, Join w) ∈ tr).
Proof.
  intros Hrun. pose proof (run_start_reachable _ _ _ _ Hrun) as Hr.
  pose proof (reachable_control _ _ _ Hr) as C.
  pose proof (reachable_tally _ _ _ Hr) as Ta.
  pose proof (reachable_joins _ _ _ Hr) as J.
  split; [done|]. split.
  { intros l s' ev Hstep%step_transition Hs.
    by destruct (transition_stop _ _ _ Hstep Hs). }
  split.
  { intros l s' ev Hstep Hs Hs'.
    destruct l as [f|pick|w|w|]; simpl in Hstep.
    - exfalso. injection Hstep as <- <-.
      rewrite submit_enqueue_stop in Hs'. congruence.
    - exfalso. apply submit_notify_stop in Hstep. congruence.
    - exfalso. apply worker_step_stop in Hstep. congruence.
    - exfalso. apply wake_stop in Hstep. congruence.
    - split; [done|]. unfold dtor_step in Hstep.
      destruct (dtor s) as [| |i|] eqn:Hd.
      + by injection Hstep as <- <-.
      + injection Hstep as <- <-. simpl in *. congruence.
      + destruct (workers s !! i) as [[]|]; try done;
          injection Hstep as <- <-; simpl in *; congruence.
      + done. }
  split.
  { rewrite (tal_stop _ _ Ta). case_decide; lia. }
  split.
  { rewrite (tal_stop _ _ Ta), (ctl_stop _ _ C).
    case_decide; split; try done; lia. }
  split.
  { intros Hd. split.
    - unfold dtor_step. by rewrite Hd.
    - by intros [? _]%elem_of_notify_all. }
  split.
  { rewrite (tal_notify_all _ _ Ta). destruct (dtor s); lia. }
  split.
  { intros Hd. split.
    - rewrite (tal_notify_all _ _ Ta). by destruct Hd as [[i ->]| ->].
    - intros Hw. destruct (ctl_wait _ _ C Hw) as [H|H];
        destruct Hd as [[i Hd]|Hd]; congruence. }
  intros Hd. split.
  - pose proof (ctl_join _ _ C) as Hj. by rewrite Hd in Hj.
  - pose proof (jn_complete _ _ J) as Hj. rewrite Hd in Hj.
    by rewrite (ctl_size _ _ C) in Hj.
Qed.

Lemma stop_flag_monotonic_teardown_witness :
  run [LDtor; LDtor; LWorker 0; LWorker 1; LDtor; LDtor; LDtor]
      (ThreadPool 2) []
  = Some (Pool [Returned; Returned] [] true ∅ Done 0,
          ev_stop ++ [(Owner, NotifyAll)] ++ ev_exit 0 ++ ev_exit 1
          ++ [(Owner, Join 0); (Owner, Join 1)])
  ∧ occurrences SetStop
      (ev_stop ++ [(Owner, NotifyAll)] ++ ev_exit 0 ++ ev_exit 1
       ++ [(Owner, Join 0); (Owner, Join 1)]) ≤ 1.
Proof.
  assert (run [LDtor; LDtor; LWorker 0; LWorker 1; LDtor; LDtor; LDtor]
              (ThreadPool 2) []
          = Some (Pool [Returned; Returned] [] true ∅ Done 0,
                  ev_stop ++ [(Owner, NotifyAll)] ++ ev_exit 0 ++ ev_exit 1
                  ++ [(Owner, Join 0); (Owner, Join 1)])) as H
    by reflexivity.
  split; [exact H|].
  exact (proj1 (proj2 (proj2 (proj2
           (stop_flag_monotonic_teardown 2 _ _ _ H))))).
Defined.

(** Without workers nothing leaves the queue. *)
Lemma no_worker_transition s tr ev s' :
  workers s = [] → transition s ev s' →
  dequeued tr = [] ∧ invoked tr = [] →
  workers s' = [] ∧ dequeued (tr ++ ev) = [] ∧ invoked (tr ++ ev) = [].
Proof.
  intros Hw T [Hd Hi]. rewrite dequeued_app, invoked_app, Hd, Hi.
  destruct T; simpl in *; subst; try done.
  destruct (notify_one_cases _ _ _ H) as [[Hp _]|[_ ->]]; done.
Qed.

Lemma reachable_no_worker s tr :
  reachable 0 s tr → workers s = [] ∧ dequeued tr = [] ∧ invoked tr = [].
Proof.
  induction 1 as [|s tr l s' ev _ (Hw & Hd & Hi) Hstep]; [done|].
  eapply no_worker_transition; [done| |done]. by eapply step_transition.
Qed.

(** C10, as the code has it.  [ThreadPool(0)] has no workers.  Before
    shutdown it accepts every submission, queues the task and returns its
    future.  No task is ever taken off the queue or invoked, so as long as
    the pool exists every accepted task is still queued and its shared
    state is pending: [get] blocks.  The join loop of the destructor has
    nothing to join.  Destroying the pool destroys the queued tasks
    unexecuted, which makes every one of their shared states ready with
    [broken_promise]. *)
Theorem zero_workers_task_never_runs ls s tr :
  run ls (ThreadPool 0) [] = Some (s, tr) →
  workers s = []
  ∧ dequeued tr = [] ∧ invoked tr = []
  ∧ tasks s = enqueued tr
  ∧ (stop s = false → ∀ f pick,
       submit f pick s
       = Some (Pool [] (tasks s ++ [PackagedTask f (fresh (dom (heap s)))])
                    false (<[fresh (dom (heap s)) := Pending]> (heap s))
                    (dtor s) (notifying s),
               ev_accept (PackagedTask f (fresh (dom (heap s))))
               ++ [(Caller, NotifyOne)],
               inr (fresh (dom (heap s)))))
  ∧ (∀ t, t ∈ enqueued tr →
       heap s !! pt_state t = Some Pending
       ∧ future_get (pt_state t) (heap s) = None)
  ∧ (∀ i, dtor s = Joining i → dtor_step s = Some (set_dtor Done s, []))
  ∧ (∀ th w, (th, Join w) ∉ tr)
  ∧ (∀ t, t ∈ enqueued tr →
       destroy_members s !! pt_state t
       = Some (Ready (Exception (future_error broken_promise)))
       ∧ future_get (pt_state t) (destroy_members s)
         = Some (inl (future_error broken_promise))).
Proof.
  intros Hrun. pose proof (run_start_reachable _ _ _ _ Hrun) as Hr.
  pose proof (reachable_ledger _ _ _ Hr) as L.
  destruct (reachable_no_worker _ _ Hr) as (Hw & Hd & Hi).
  assert (tasks s = enqueued tr) as Hq.
  { by rewrite (led_fifo _ _ L), Hd. }
  assert (∀ t, t ∈ enqueued tr → heap s !! pt_state t = Some Pending) as Hp.
  { intros t Ht. apply (led_pending _ _ L). rewrite Hq.
    apply elem_of_app. by left. }
  repeat (split; [done|]). split.
  { intros Hs f pick. rewrite submit_no_waiter; [by rewrite Hw|done|].
    rewrite Hw. by intros ?%elem_of_nil. }
  split.
  { intros t Ht. split; [by apply Hp|].
    unfold future_get. by rewrite (Hp t Ht). }
  split.
  { intros i Hpc. unfold dtor_step. by rewrite Hpc, Hw. }
  split.
  { intros th w Hin.
    destruct (jn_sound _ _ (reachable_joins _ _ _ Hr) th w Hin) as [_ Hl].
    by rewrite Hw in Hl. }
  intros t Ht.
  assert (destroy_members s !! pt_state t
          = Some (Ready (Exception (future_error broken_promise)))) as Hb.
  { unfold destroy_members. apply destroy_queued; [|by apply Hp].
    rewrite Hq. by apply list_elem_of_fmap_2. }
  split; [done|]. unfold future_get. by rewrite Hb.
Qed.

Lemma zero_workers_task_never_runs_witness :
  run [LSubmit (Returns 3); LNotify 0; LDtor; LDtor] (ThreadPool 0) []
  = Some (Pool [] [PackagedTask (Returns 3) 0] true {[0 := Pending]}
               (Joining 0) 0,
          ev_accept (PackagedTask (Returns 3) 0) ++ [(Caller, NotifyOne)]
          ++ ev_stop ++ [(Owner, NotifyAll)])
  ∧ tasks (Pool [] [PackagedTask (Returns 3) 0] true {[0 := Pending]}
                (Joining 0) 0)
    = enqueued (ev_accept (PackagedTask (Returns 3) 0)
                ++ [(Caller, NotifyOne)] ++ ev_stop ++ [(Owner, NotifyAll)]).
Proof.
  assert (run [LSubmit (Returns 3); LNotify 0; LDtor; LDtor]
              (ThreadPool 0) []
          = Some (Pool [] [PackagedTask (Returns 3) 0] true {[0 := Pending]}
                       (Joining 0) 0,
                  ev_accept (PackagedTask (Returns 3) 0)
                  ++ [(Caller, NotifyOne)] ++ ev_stop
                  ++ [(Owner, NotifyAll)])) as H
    by (vm_compute; reflexivity).
  split; [exact H|].
  exact (proj1 (proj2 (proj2 (proj2
           (zero_workers_task_never_runs _ _ _ H))))).
Defined.

(** C10 as stated fails in its last part: after the teardown of a pool
    without workers the shared state of the queued task is no longer
    pending; it is ready and holds [broken_promise]. *)
Lemma zero_workers_handle_ready_after_destroy :
  run [LSubmit (Returns 1); LNotify 0; LDtor; LDtor; LDtor] (ThreadPool 0) []
  = Some (Pool [] [PackagedTask (Returns 1) 0] true {[0 := Pending]} Done 0,
          ev_accept (PackagedTask (Returns 1) 0) ++ [(Caller, NotifyOne)]
          ++ ev_stop ++ [(Owner, NotifyAll)])
  ∧ destroy_members
      (Pool [] [PackagedTask (Returns 1) 0] true {[0 := Pending]} Done 0)
    = {[0 := Ready (Exception (future_error broken_promise))]}
  ∧ destroy_members
      (Pool [] [PackagedTask (Returns 1) 0] true {[0 := Pending]} Done 0)
      !! 0
    ≠ Some Pending.
Proof.
  split; [by vm_compute|]. split; [by vm_compute|]. by vm_compute.
Qed.

(** * Further properties *)

(** ** Sleeping and waking *)

(** A worker blocks in [wait] only from a state with [stop] clear and the
    queue empty. *)
Lemma worker_wait_condition w s s' ev :
  worker_step w s = Some (s', ev) → (Worker w, Wait) ∈ ev →
  stop s = false ∧ tasks s = [].
Proof.
  unfold worker_step.
  destruct (workers s !! w) as [[| |t| |]|]; try done.
  - destruct (stop s), (tasks s) as [|t q]; simpl; intros [= <- <-] Hin;
      try done;
      repeat (apply elem_of_cons in Hin as [Hin|Hin]; [done|]);
      by apply elem_of_nil in Hin.
  - destruct (invoke t (heap s)) as [h [e|]]; intros [= <- <-] Hin;
      repeat (apply elem_of_cons in Hin as [Hin|Hin]; [done|]);
      by apply elem_of_nil in Hin.
Qed.

(** X2. No wake-up is lost.  A worker goes to sleep only when [stop] is
    clear and the queue is empty; and in every state of a pool with at
    least one worker in which a task is queued, some worker is on its way
    to the queue (it can take a step), or a caller of [submit] still has
    its [notify_one] to issue and can issue it.  So the workers are never
    all asleep over a queued task with nobody left to wake them. *)
Theorem no_lost_wakeup n ls s tr :
  1 ≤ n →
  run ls (ThreadPool n) [] = Some (s, tr) →
  (∀ w s' ev,
     worker_step w s = Some (s', ev) → (Worker w, Wait) ∈ ev →
     stop s = false ∧ tasks s = [])
  ∧ (tasks s ≠ [] →
     (∃ w x, workers s !! w = Some x ∧ busy x ∧ is_Some (worker_step w s))
     ∨ (0 < notifying s ∧ ∃ pick, is_Some (submit_notify pick s)))
  ∧ ((∀ x, x ∈ workers s → x = Waiting) → notifying s = 0 → tasks s = []).
Proof.
  intros Hn Hr%run_start_reachable.
  pose proof (reachable_awake _ _ _ Hr) as A.
  pose proof (reachable_control _ _ _ Hr) as C.
  assert (workers s ≠ []) as Hne.
  { intros Hnil. pose proof (ctl_size _ _ C) as Hlen.
    rewrite Hnil in Hlen. simpl in Hlen. lia. }
  split; [intros w s' ev; apply worker_wait_condition|]. split.
  - intros Hq. destruct (A Hq Hne) as [(x & [w Hw]%list_elem_of_lookup & Hb)|Hk].
    + left. exists w, x. split; [done|]. split; [done|].
      by eapply worker_step_enabled.
    + right. split; [done|].
      destruct (submit_notify_enabled s Hk) as (pick & r & Hs).
      exists pick. by rewrite Hs.
  - intros Hall Hk. destruct (tasks s) as [|t q] eqn:Hq; [done|]. exfalso.
    destruct A as [(x & Hx & Hb)|Hpos]; [by rewrite Hq|done| |lia].
    apply Hall in Hx as ->. done.
Qed.

Lemma no_lost_wakeup_witness :
  run [LWorker 0; LSubmit (Returns 1)] (ThreadPool 1) []
  = Some (Pool [Waiting] [PackagedTask (Returns 1) 0] false {[0 := Pending]}
               NotCalled 1,
          ev_wait 0 ++ ev_accept (PackagedTask (Returns 1) 0))
  ∧ ((∃ w x,
        [Waiting] !! w = Some x ∧ busy x
        ∧ is_Some (worker_step w
                     (Pool [Waiting] [PackagedTask (Returns 1) 0] false
                           {[0 := Pending]} NotCalled 1)))
     ∨ (0 < 1
        ∧ ∃ pick,
            is_Some (submit_notify pick
                       (Pool [Waiting] [PackagedTask (Returns 1) 0] false
                             {[0 := Pending]} NotCalled 1)))).
Proof.
  assert (run [LWorker 0; LSubmit (Returns 1)] (ThreadPool 1) []
          = Some (Pool [Waiting] [PackagedTask (Returns 1) 0] false
                       {[0 := Pending]} NotCalled 1,
                  ev_wait 0 ++ ev_accept (PackagedTask (Returns 1) 0))) as H
    by (vm_compute; reflexivity).
  split; [exact H|].
  apply (proj1 (proj2 (no_lost_wakeup 1 _ _ _ (le_n 1) H))). done.
Defined.

(** ** Shared states *)



(** Only the step of worker [w] produces events of worker [w]. *)
Lemma step_worker_label l s s' ev w a :
  step l s = Some (s', ev) → (Worker w, a) ∈ ev → l = LWorker w.
Proof.
  intros Hs Hin. destruct l as [f|pick|w'|w'|]; simpl in Hs.
  - injection Hs as _ <-. exfalso. revert Hin. unfold submit_enqueue.
    destruct (stop s); simpl; intros Hin;
      repeat (apply elem_of_cons in Hin as [Hin|Hin]; [done|]);
      by apply elem_of_nil in Hin.
  - unfold submit_notify in Hs. destruct (notifying s); [done|].
    destruct (notify_one pick (workers s)); simpl in Hs; [|done].
    injection Hs as _ <-. by apply list_elem_of_singleton in Hin.
  - unfold worker_step in Hs.
    destruct (workers s !! w') as [[| |t'| |]|]; try done.
    + destruct (stop s), (tasks s); simpl in Hs; try done;
        injection Hs as _ <-;
        repeat (apply elem_of_cons in Hin as [Hin|Hin]; [congruence|]);
        by apply elem_of_nil in Hin.
    + destruct (invoke t' (heap s)) as [h' [e|]]; injection Hs as _ <-;
        apply list_elem_of_singleton in Hin; congruence.
  - unfold wake in Hs. destruct (workers s !! w') as [[| |t'| |]|]; try done.
    injection Hs as _ <-. by apply elem_of_nil in Hin.
  - exfalso. unfold dtor_step in Hs. destruct (dtor s); try done.
    + injection Hs as _ <-.
      repeat (apply elem_of_cons in Hin as [Hin|Hin]; [done|]);
        by apply elem_of_nil in Hin.
    + injection Hs as _ <-. by apply list_elem_of_singleton in Hin.
    + destruct (workers s !! i) as [[| |t'| |]|]; try done;
        injection Hs as _ <-.
      * by apply list_elem_of_singleton in Hin.
      * by apply elem_of_nil in Hin.
Qed.




(** ** The join loop *)

Lemma joined_app tr ev : joined (tr ++ ev) = joined tr ++ joined ev.
Proof. apply omap_app. Qed.

Lemma transition_length s ev s' :
  transition s ev s' → length (workers s') = length (workers s).
Proof.
  destruct 1; simpl; rewrite ?length_insert; try done.
  - by eapply length_notify_one.
  - unfold notify_all. by rewrite length_fmap.
Qed.

Lemma joined_transition n s tr ev s' :
  control n s → joined tr = seq 0 (join_count s) → transition s ev s' →
  joined (tr ++ ev) = seq 0 (join_count s').
Proof.
  intros C Hj T. rewrite joined_app, Hj.
  pose proof (transition_length _ _ _ T) as Hlen.
  destruct T; unfold join_count in *; simpl in *;
    rewrite ?app_nil_r; try done;
    try (destruct d; simpl; rewrite ?app_nil_r; congruence).
  - change (seq 0 i ++ [0 + i] = seq 0 (S i)). by rewrite seq_S.
  - f_equal. apply lookup_ge_None in H.
    pose proof (ctl_join _ _ C) as Hc. simpl in Hc.
    destruct (decide (i ≤ length ws)) as [|Hgt]; [lia|]. exfalso.
    assert (length ws < i) as Hlt by lia.
    apply Hc in Hlt. apply lookup_lt_Some in Hlt. lia.
Qed.

Lemma reachable_joined n s tr :
  reachable n s tr → joined tr = seq 0 (join_count s).
Proof.
  induction 1 as [|s tr l s' ev Hr IH Hs]; [done|].
  eapply joined_transition; [by eapply reachable_control|done|].
  by eapply step_transition.
Qed.

(** X5. The destructor joins the workers in the order of the vector, each
    once: in every run the joins of the trace are the workers 0, 1, ...
    up to where the loop of lines 75-77 stands, all of them made by the
    destroying thread, and when the destructor is done they are exactly
    the workers 0 to [num_threads - 1]. *)
Theorem workers_joined_in_order n ls s tr :
  run ls (ThreadPool n) [] = Some (s, tr) →
  joined tr = seq 0 (join_count s)
  ∧ NoDup (joined tr)
  ∧ (∀ th w, (th, Join w) ∈ tr → th = Owner ∧ w < n)
  ∧ (dtor s = NotCalled ∨ dtor s = StopSet → joined tr = [])
  ∧ (dtor s = Done → joined tr = seq 0 n).
Proof.
  intros Hr%run_start_reachable.
  pose proof (reachable_joined _ _ _ Hr) as Hj.
  pose proof (reachable_control _ _ _ Hr) as C.
  pose proof (reachable_joins _ _ _ Hr) as J.
  split; [done|]. split; [rewrite Hj; apply NoDup_seq|]. split.
  - intros th w Hin. destruct (jn_sound _ _ J _ _ Hin) as [-> Hw].
    split; [done|]. apply lookup_lt_Some in Hw.
    by rewrite (ctl_size _ _ C) in Hw.
  - split.
    + rewrite Hj. unfold join_count. by intros [-> | ->].
    + rewrite Hj. unfold join_count. intros ->. by rewrite (ctl_size _ _ C).
Qed.

Lemma workers_joined_in_order_witness :
  run [LDtor; LDtor; LWorker 1; LWorker 0; LDtor; LDtor; LDtor]
      (ThreadPool 2) []
  = Some (Pool [Returned; Returned] [] true ∅ Done 0,
          ev_stop ++ [(Owner, NotifyAll)] ++ ev_exit 1 ++ ev_exit 0
          ++ [(Owner, Join 0); (Owner, Join 1)])
  ∧ joined (ev_stop ++ [(Owner, NotifyAll)] ++ ev_exit 1 ++ ev_exit 0
            ++ [(Owner, Join 0); (Owner, Join 1)])
    = seq 0 2.
Proof.
  assert (run [LDtor; LDtor; LWorker 1; LWorker 0; LDtor; LDtor; LDtor]
              (ThreadPool 2) []
          = Some (Pool [Returned; Returned] [] true ∅ Done 0,
                  ev_stop ++ [(Owner, NotifyAll)] ++ ev_exit 1 ++ ev_exit 0
                  ++ [(Owner, Join 0); (Owner, Join 1)])) as H
    by (vm_compute; reflexivity).
  split; [exact H|].
  exact (proj2 (proj2 (proj2 (proj2 (workers_joined_in_order 2 _ _ _ H))))
           eq_refl).
Defined.

(** ** Where the accepted tasks are *)

Lemma length_holding ws : length (holding ws) ≤ length ws.
Proof.
  unfold holding. induction ws as [|x ws IH]; [done|].
  csimpl. destruct (held x); simpl; lia.
Qed.

(** X6. No task is lost or duplicated.  In every run the accepted tasks
    are, as a multiset, the tasks that have been invoked, the tasks that
    workers have taken and not yet run, and the tasks still in the queue;
    the three groups are pairwise disjoint; and a pool of [num_threads]
    workers never has more than [num_threads] tasks in its workers' hands. *)
Theorem tasks_conserved n ls s tr :
  run ls (ThreadPool n) [] = Some (s, tr) →
  enqueued tr ≡ₚ invoked tr ++ holding (workers s) ++ tasks s
  ∧ length (enqueued tr)
    = length (invoked tr) + length (holding (workers s)) + length (tasks s)
  ∧ NoDup (invoked tr ++ holding (workers s) ++ tasks s)
  ∧ (∀ t, t ∈ holding (workers s) → (t ∉ invoked tr) ∧ (t ∉ tasks s))
  ∧ (∀ t, t ∈ tasks s → t ∉ invoked tr)
  ∧ length (holding (workers s)) ≤ n.
Proof.
  intros Hr%run_start_reachable.
  pose proof (reachable_ledger _ _ _ Hr) as L.
  pose proof (reachable_control _ _ _ Hr) as C.
  assert (enqueued tr ≡ₚ invoked tr ++ holding (workers s) ++ tasks s) as HP.
  { rewrite (led_fifo _ _ L), (led_held _ _ L). by rewrite <- (assoc_L (++)). }
  assert (NoDup (invoked tr ++ holding (workers s) ++ tasks s)) as HN.
  { eapply NoDup_fmap_1, ledger_distinct, L. }
  split; [done|]. split.
  { rewrite HP, !length_app. lia. }
  split; [done|].
  apply NoDup_app in HN as (_ & H1 & [_ [H2 _]]%NoDup_app).
  split; [|split].
  - intros t Ht. split.
    + intros Hi. apply (H1 t Hi). apply elem_of_app. by left.
    + by apply H2.
  - intros t Ht Hi. apply (H1 t Hi). apply elem_of_app. by right.
  - rewrite <- (ctl_size _ _ C). apply length_holding.
Qed.

Lemma tasks_conserved_witness :
  run [LSubmit (Returns 1); LNotify 0; LSubmit (Returns 2); LNotify 0;
       LSubmit (Returns 3); LNotify 0; LWorker 0; LWorker 0; LWorker 0]
      (ThreadPool 1) []
  = Some (Pool [Holding (PackagedTask (Returns 2) 1)]
               [PackagedTask (Returns 3) 2] false
               {[0 := Ready (Value 1); 1 := Pending; 2 := Pending]}
               NotCalled 0,
          ev_accept (PackagedTask (Returns 1) 0) ++ [(Caller, NotifyOne)]
          ++ ev_accept (PackagedTask (Returns 2) 1) ++ [(Caller, NotifyOne)]
          ++ ev_accept (PackagedTask (Returns 3) 2) ++ [(Caller, NotifyOne)]
          ++ ev_pop 0 (PackagedTask (Returns 1) 0)
          ++ [(Worker 0, Invoke (PackagedTask (Returns 1) 0))]
          ++ ev_pop 0 (PackagedTask (Returns 2) 1))
  ∧ length (holding [Holding (PackagedTask (Returns 2) 1)]) ≤ 1.
Proof.
  assert (run [LSubmit (Returns 1); LNotify 0; LSubmit (Returns 2); LNotify 0;
               LSubmit (Returns 3); LNotify 0; LWorker 0; LWorker 0; LWorker 0]
              (ThreadPool 1) []
          = Some (Pool [Holding (PackagedTask (Returns 2) 1)]
                       [PackagedTask (Returns 3) 2] false
                       {[0 := Ready (Value 1); 1 := Pending; 2 := Pending]}
                       NotCalled 0,
                  ev_accept (PackagedTask (Returns 1) 0)
                  ++ [(Caller, NotifyOne)]
                  ++ ev_accept (PackagedTask (Returns 2) 1)
                  ++ [(Caller, NotifyOne)]
                  ++ ev_accept (PackagedTask (Returns 3) 2)
                  ++ [(Caller, NotifyOne)]
                  ++ ev_pop 0 (PackagedTask (Returns 1) 0)
                  ++ [(Worker 0, Invoke (PackagedTask (Returns 1) 0))]
                  ++ ev_pop 0 (PackagedTask (Returns 2) 1))) as H
    by (vm_compute; reflexivity).
  split; [exact H|].
  exact (proj2 (proj2 (proj2 (proj2 (proj2 (tasks_conserved 1 _ _ _ H)))))).
Defined.

(** ** The worker threads *)

Lemma transition_returned s ev s' w :
  transition s ev s' →
  workers s !! w = Some Returned → workers s' !! w = Some Returned.
Proof.
  destruct 1; simpl; try done;
    try (intros Hw; eapply insert_keeps_returned; [done|done|done]).
  - intros Hw. destruct (notify_one_cases _ _ _ H) as [[Hp ->]|[_ ->]]; [|done].
    by eapply insert_keeps_returned.
  - intros Hw. by apply notify_all_returned.
Qed.

(** A worker that has returned does nothing more. *)
Lemma returned_is_final ls s tr s' tr' w :
  workers s !! w = Some Returned →
  run ls s tr = Some (s', tr') →
  workers s' !! w = Some Returned
  ∧ ∀ a, (Worker w, a) ∈ tr' → (Worker w, a) ∈ tr.
Proof.
  revert s tr. induction ls as [|l ls IH]; intros s tr Hw; simpl.
  - by intros [= <- <-].
  - destruct (step l s) as [[s1 ev]|] eqn:Hs; [|done]. intros Hrun.
    pose proof (transition_returned _ _ _ w (step_transition _ _ _ _ Hs) Hw)
      as Hw1.
    destruct (IH _ _ Hw1 Hrun) as [Hw' Hev]. split; [done|].
    intros a [Hin|Hin]%Hev%elem_of_app; [done|]. exfalso.
    pose proof (step_worker_label _ _ _ _ _ _ Hs Hin) as ->.
    simpl in Hs. unfold worker_step in Hs. by rewrite Hw in Hs.
Qed.

Lemma run_length ls s tr s' tr' :
  run ls s tr = Some (s', tr') → length (workers s') = length (workers s).
Proof.
  revert s tr. induction ls as [|l ls IH]; intros s tr; simpl.
  - by intros [= <- <-].
  - destruct (step l s) as [[s1 ev]|] eqn:Hs; [|done]. intros Hrun.
    rewrite (IH _ _ Hrun).
    eapply transition_length, step_transition, Hs.
Qed.

(** X8. The set of worker threads is fixed by the constructor.  Along
    every run the pool has [num_threads] workers; no step adds, removes or
    restarts one.  A worker that has returned from its loop stays
    returned: it cannot take a step or be woken, and the trace has no
    further event of that thread, so it takes no task and the destructor's
    [join] of it cannot be undone. *)
Theorem worker_set_fixed n ls s tr ls' s' tr' :
  run ls (ThreadPool n) [] = Some (s, tr) →
  run ls' s tr = Some (s', tr') →
  length (workers s) = n
  ∧ length (workers s') = n
  ∧ ∀ w, workers s !! w = Some Returned →
      workers s' !! w = Some Returned
      ∧ worker_step w s' = None
      ∧ wake w s' = None
      ∧ ∀ a, (Worker w, a) ∈ tr' → (Worker w, a) ∈ tr.
Proof.
  intros Hr%run_start_reachable Hrun.
  pose proof (ctl_size _ _ (reachable_control _ _ _ Hr)) as Hlen.
  split; [done|]. split; [by rewrite (run_length _ _ _ _ _ Hrun)|].
  intros w Hw. destruct (returned_is_final _ _ _ _ _ _ Hw Hrun) as [Hw' Hev].
  split; [done|]. split; [|split; [|done]].
  - unfold worker_step. by rewrite Hw'.
  - unfold wake. by rewrite Hw'.
Qed.

Lemma worker_set_fixed_witness :
  run [LDtor; LDtor; LWorker 0] (ThreadPool 2) []
  = Some (Pool [Returned; AtLock] [] true ∅ (Joining 0) 0,
          ev_stop ++ [(Owner, NotifyAll)] ++ ev_exit 0)
  ∧ run [LSubmit (Returns 1); LWorker 1; LDtor]
        (Pool [Returned; AtLock] [] true ∅ (Joining 0) 0)
        (ev_stop ++ [(Owner, NotifyAll)] ++ ev_exit 0)
    = Some (Pool [Returned; Returned] [] true ∅ (Joining 1) 0,
            (ev_stop ++ [(Owner, NotifyAll)] ++ ev_exit 0)
            ++ ev_reject ++ ev_exit 1 ++ [(Owner, Join 0)])
  ∧ length (workers (Pool [Returned; Returned] [] true ∅ (Joining 1) 0)) = 2.
Proof.
  assert (run [LDtor; LDtor; LWorker 0] (ThreadPool 2) []
          = Some (Pool [Returned; AtLock] [] true ∅ (Joining 0) 0,
                  ev_stop ++ [(Owner, NotifyAll)] ++ ev_exit 0)) as H
    by (vm_compute; reflexivity).
  assert (run [LSubmit (Returns 1); LWorker 1; LDtor]
              (Pool [Returned; AtLock] [] true ∅ (Joining 0) 0)
              (ev_stop ++ [(Owner, NotifyAll)] ++ ev_exit 0)
          = Some (Pool [Returned; Returned] [] true ∅ (Joining 1) 0,
                  (ev_stop ++ [(Owner, NotifyAll)] ++ ev_exit 0)
                  ++ ev_reject ++ ev_exit 1 ++ [(Owner, Join 0)])) as H'
    by (vm_compute; reflexivity).
  split; [exact H|]. split; [exact H'|].
  exact (proj1 (proj2 (worker_set_fixed 2 _ _ _ _ _ _ H H'))).
Defined.

(** ** main *)

Lemma worker_step_frame w s s' ev :
  worker_step w s = Some (s', ev) →
  dtor s' = dtor s ∧ notifying s' = notifying s ∧ enqueued ev = [].
Proof.
  intros Hs. split; [|split].
  - by destruct (worker_step_work _ _ _ _ Hs) as (_ & _ & ?).
  - revert Hs. unfold worker_step.
    destruct (workers s !! w) as [[| |t| |]|]; try done.
    + destruct (stop s), (tasks s); simpl; by intros [= <- _].
    + destruct (invoke t (heap s)) as [h [e|]]; by intros [= <- _].
  - by eapply worker_step_enqueued.
Qed.

Lemma wake_frame w s s' ev :
  wake w s = Some (s', ev) →
  dtor s' = dtor s ∧ notifying s' = notifying s ∧ ev = []
  ∧ effort s' = S (effort s).
Proof.
  destruct s as [ws q b h d k]. unfold wake. simpl.
  destruct (ws !! w) as [[| |t| |]|] eqn:Hw; try done.
  intros [= <- <-]. repeat (split; [done|]).
  unfold effort, work. simpl. rewrite length_insert.
  pose proof (sum_insert ws w Waiting AtLock Hw) as Hsum. simpl in Hsum. lia.
Qed.

(** A step of the process is a step of the pool, or one that the pool does
    not see. *)
Lemma program_step_pool l m m' ev :
  program_step l m = Some (m', ev) →
  (∃ l', step l' (the_pool m) = Some (the_pool m', ev))
  ∨ (the_pool m' = the_pool m ∧ ev = []).
Proof.
  unfold program_step. destruct (alive (pc m)); [|done].
  destruct l as [pick|w|w].
  - unfold main_step. destruct (pc m).
    + destruct (submit_enqueue task1 (the_pool m)) as [[s' ev'] [e|a]] eqn:Hq;
        intros [= <- <-]; left; exists (LSubmit task1); simpl; by rewrite Hq.
    + destruct (submit_notify pick (the_pool m)) as [[s' ev']|] eqn:Hq;
        [|done].
      intros [= <- <-]. left. by exists (LNotify pick).
    + destruct (submit_enqueue task2 (the_pool m)) as [[s' ev'] [e|a]] eqn:Hq;
        intros [= <- <-]; left; exists (LSubmit task2); simpl; by rewrite Hq.
    + destruct (submit_notify pick (the_pool m)) as [[s' ev']|] eqn:Hq;
        [|done].
      intros [= <- <-]. left. by exists (LNotify pick).
    + intros [= <- <-]. by right.
    + intros [= <- <-]. by right.
    + destruct (future_get future1 (heap (the_pool m))) as [[e|v]|]; [| |done];
        intros [= <- <-]; by right.
    + intros [= <- <-]. by right.
    + destruct (future_get future2 (heap (the_pool m))) as [[e|v]|]; [| |done];
        intros [= <- <-]; by right.
    + destruct (dtor_step (the_pool m)) as [[s' ev']|] eqn:Hq; [|done].
      intros [= <- <-]. left. by exists LDtor.
    + done.
    + done.
  - destruct (worker_step w (the_pool m)) as [[s' ev']|] eqn:Hq; [|done].
    intros [= <- <-]. left. by exists (LWorker w).
  - destruct (wake w (the_pool m)) as [[s' ev']|] eqn:Hq; [|done].
    intros [= <- <-]. left. by exists (LWake w).
Qed.

Lemma program_step_reachable n l m tr m' ev :
  reachable n (the_pool m) tr → program_step l m = Some (m', ev) →
  reachable n (the_pool m') (tr ++ ev).
Proof.
  intros Hr [[l' Hs]|[-> ->]]%program_step_pool.
  - by eapply reach_step.
  - by rewrite app_nil_r.
Qed.

Lemma main_inv_start : main_inv main_start [].
Proof.
  split; simpl; try done. by intros ts [= <-].
Qed.

(** What [get] returns on the future of an accepted task. *)
Lemma get_accepted s tr t r :
  ledger s tr → t ∈ enqueued tr →
  future_get (pt_state t) (heap s) = Some r →
  r = match pt_fn t with Returns v => inr v | Throws e => inl e end.
Proof.
  intros L Ht. destruct (enqueued_cases _ _ _ L Ht) as [Hi|Hq].
  - unfold future_get. rewrite (led_ready _ _ L _ Hi).
    destruct (pt_fn t); simpl; congruence.
  - unfold future_get. by rewrite (led_pending _ _ L _ Hq).
Qed.

Lemma submit_enqueue_open f s :
  stop s = false →
  submit_enqueue f s
  = (Pool (workers s) (tasks s ++ [PackagedTask f (fresh (dom (heap s)))])
          false (<[fresh (dom (heap s)) := Pending]> (heap s)) (dtor s)
          (S (notifying s)),
     ev_accept (PackagedTask f (fresh (dom (heap s)))),
     inr (fresh (dom (heap s)))).
Proof. unfold submit_enqueue. by intros ->. Qed.

Lemma not_called_open n s : control n s → dtor s = NotCalled → stop s = false.
Proof.
  intros C Hd. destruct (stop s) eqn:Hb; [|done].
  by apply (ctl_stop _ _ C) in Hb.
Qed.

Lemma submit_notify_frame pick s s' ev :
  submit_notify pick s = Some (s', ev) →
  dtor s' = dtor s ∧ notifying s = S (notifying s')
  ∧ ev = [(Caller, NotifyOne)]
  ∧ effort s' < effort s.
Proof.
  intros Hs. pose proof (submit_notify_work _ _ _ _ Hs) as Hw. revert Hs Hw.
  unfold submit_notify, effort. destruct (notifying s) as [|k]; [done|].
  destruct (notify_one pick (workers s)) as [ws|] eqn:Hn; simpl; [|done].
  intros [= <- <-]. simpl. rewrite (length_notify_one _ _ _ Hn).
  intros Hw. repeat split; try done. lia.
Qed.

Lemma dtor_step_frame s s' ev :
  dtor_step s = Some (s', ev) →
  notifying s' = notifying s ∧ enqueued ev = [] ∧ dtor s' ≠ NotCalled.
Proof.
  unfold dtor_step. destruct (dtor s) as [| |i|]; try done.
  - by intros [= <- <-].
  - by intros [= <- <-].
  - destruct (workers s !! i) as [[| |t| |]|]; try done; by intros [= <- <-].
Qed.

Lemma main_inv_frame p s c tr s' ev :
  dtor s' = dtor s → notifying s' = notifying s → enqueued ev = [] →
  main_inv (Program p s c) tr → main_inv (Program p s' c) (tr ++ ev).
Proof.
  intros Hd Hk He [I1 I2 I3 I4 I5 I6 I7 I8]. simpl in *.
  split; simpl; rewrite ?enqueued_app, ?He, ?app_nil_r, ?Hd, ?Hk; done.
Qed.

Ltac main_fields :=
  try done; try lia; try (by intros ? [= <-]); try (by intros [? [=]]);
  split; intros; congruence.

Lemma main_inv_step l m tr m' ev :
  reachable 4 (the_pool m) tr → main_inv m tr →
  program_step l m = Some (m', ev) → main_inv m' (tr ++ ev).
Proof.
  intros Hr I Hs.
  pose proof (reachable_ledger _ _ _ Hr) as L.
  pose proof (reachable_control _ _ _ Hr) as C.
  destruct m as [p s c]. simpl in *.
  unfold program_step in Hs. simpl in Hs.
  destruct (alive p) eqn:Hal; [|done].
  destruct l as [pick|w|w].
  - unfold main_step in Hs. simpl in Hs.
    destruct I as [I1 I2 I3 I4 I5 I6 I7 I8]. simpl in *.
    destruct p; simpl in *;
      try (pose proof (I6 (mk_is_Some _ _ eq_refl)) as Hd);
      try (pose proof (I4 _ eq_refl) as Hq).
    + rewrite (submit_enqueue_open _ _ (not_called_open _ _ C Hd)) in Hs.
      injection Hs as <- <-.
      split; simpl; trace_simpl; rewrite ?Hq; main_fields.
    + destruct (submit_notify pick s) as [[s1 ev1]|] eqn:Hn; [|done].
      injection Hs as <- <-.
      destruct (submit_notify_frame _ _ _ _ Hn) as (Hd1 & Hk1 & -> & _).
      split; simpl; trace_simpl; rewrite ?Hq, ?Hd1; main_fields.
    + rewrite (submit_enqueue_open _ _ (not_called_open _ _ C Hd)) in Hs.
      injection Hs as <- <-.
      split; simpl; trace_simpl; rewrite ?Hq; main_fields.
    + destruct (submit_notify pick s) as [[s1 ev1]|] eqn:Hn; [|done].
      injection Hs as <- <-.
      destruct (submit_notify_frame _ _ _ _ Hn) as (Hd1 & Hk1 & -> & _).
      split; simpl; trace_simpl; rewrite ?Hq, ?Hd1; main_fields.
    + injection Hs as <- <-.
      split; simpl; trace_simpl; rewrite ?Hq, ?I2; main_fields.
    + injection Hs as <- <-.
      split; simpl; trace_simpl; rewrite ?Hq, ?I2; main_fields.
    + destruct (future_get future1 (heap s)) as [r|] eqn:Hg; [|done].
      apply (get_accepted _ _ (PackagedTask task1 future1) _ L) in Hg as ->;
        [|rewrite Hq; apply list_elem_of_here].
      simpl in Hs. injection Hs as <- <-.
      split; simpl; trace_simpl; rewrite ?Hq, ?I2; main_fields.
    + injection Hs as <- <-.
      split; simpl; trace_simpl; rewrite ?Hq, ?I2; main_fields.
    + destruct (future_get future2 (heap s)) as [r|] eqn:Hg; [|done].
      apply (get_accepted _ _ (PackagedTask task2 future2) _ L) in Hg as ->;
        [|rewrite Hq; apply list_elem_of_further, list_elem_of_here].
      simpl in Hs. injection Hs as <- <-.
      split; simpl; trace_simpl; rewrite ?Hq, ?I2; main_fields.
    + destruct (dtor_step s) as [[s1 ev1]|] eqn:Hn; [|done].
      injection Hs as <- <-.
      destruct (dtor_step_frame _ _ _ Hn) as (Hk1 & He1 & Hd1).
      split; simpl; rewrite ?enqueued_app, ?He1, ?app_nil_r, ?Hk1.
      * by case_decide.
      * by case_decide.
      * by case_decide.
      * by case_decide.
      * case_decide; simpl; auto.
      * by case_decide; intros [x [=]].
      * case_decide; split; intros; congruence.
      * case_decide; [by intros c0 [= <-] | done].
    + done.
    + done.
  - destruct (worker_step w s) as [[s1 ev1]|] eqn:Hn; [|done].
    injection Hs as <- <-.
    destruct (worker_step_frame _ _ _ _ Hn) as (Hd1 & Hk1 & He1).
    by apply (main_inv_frame _ s).
  - destruct (wake w s) as [[s1 ev1]|] eqn:Hn; [|done].
    injection Hs as <- <-.
    destruct (wake_frame _ _ _ _ Hn) as (Hd1 & Hk1 & -> & _).
    by apply (main_inv_frame _ s).
Qed.

Lemma execute_invariant ls m0 tr0 m tr :
  reachable 4 (the_pool m0) tr0 → main_inv m0 tr0 →
  execute ls m0 tr0 = Some (m, tr) →
  reachable 4 (the_pool m) tr ∧ main_inv m tr.
Proof.
  revert m0 tr0. induction ls as [|l ls IH]; intros m0 tr0 Hr I; simpl.
  - by intros [= <- <-].
  - destruct (program_step l m0) as [[m1 ev]|] eqn:Hs; [|done].
    apply IH.
    + by eapply program_step_reachable.
    + by eapply main_inv_step.
Qed.

Lemma execute_start ls m tr :
  execute ls main_start [] = Some (m, tr) →
  reachable 4 (the_pool m) tr ∧ main_inv m tr.
Proof.
  apply execute_invariant; [apply reach_init | apply main_inv_start].
Qed.

Lemma printed_prefix p : printed p `prefix_of` main_output.
Proof.
  destruct p; simpl;
    first [ apply prefix_nil | done
          | eexists; unfold main_output; simpl; reflexivity ].
Qed.

(** X9. The output of [main] does not depend on the schedule.  However
    the main thread and the four workers are interleaved, and whichever
    workers [notify_one] picks or wakes spuriously: no call of [submit]
    throws and no [get] rethrows, so no exception leaves [main]; what has
    been written to [std::cout] is at every moment a prefix of the three
    lines that announce the submission, the result 1 and the result 8; and
    when [main] has returned, it has returned 0, all three lines have been
    written, the destructor has joined the workers 0 to 3, each of the two
    tasks has been invoked once, and the queue that is destroyed with the
    pool is empty. *)
Theorem main_prints_results ls m tr :
  execute ls main_start [] = Some (m, tr) →
  (∀ e, pc m ≠ Uncaught e)
  ∧ cout m `prefix_of` main_output
  ∧ (∀ c, pc m = Exited c →
       c = 0%Z
       ∧ cout m
         = [Str "Tasks submitted. Main thread continues."; Endl;
            Str "Result 1: "; Int 1; Endl;
            Str "Result 2: "; Int 8; Endl]
       ∧ dtor (the_pool m) = Done
       ∧ (∀ x, x ∈ workers (the_pool m) → x = Returned)
       ∧ joined tr = [0; 1; 2; 3]
       ∧ pt_fn <$> enqueued tr = [task1; task2]
       ∧ invoked tr ≡ₚ enqueued tr
       ∧ tasks (the_pool m) = []
       ∧ destroy_members (the_pool m) = heap (the_pool m)).
Proof.
  intros [Hr I]%execute_start.
  split; [apply (mi_caught _ _ I)|]. split.
  { rewrite (mi_cout _ _ I). apply printed_prefix. }
  intros c Hc. pose proof (mi_code _ _ I _ Hc) as ->. split; [done|].
  pose proof (proj2 (mi_exit _ _ I) Hc) as Hd.
  pose proof (reachable_control _ _ _ Hr) as C.
  destruct (done_drained _ _ _ Hr (le_S _ _ (le_S _ _ (le_S _ _ (le_n 1)))) Hd)
    as (Hq & _ & _ & HP).
  split; [by rewrite (mi_cout _ _ I), Hc|]. split; [done|]. split.
  { pose proof (ctl_join _ _ C) as Hj. by rewrite Hd in Hj. }
  split.
  { rewrite (reachable_joined _ _ _ Hr). unfold join_count.
    by rewrite Hd, (ctl_size _ _ C). }
  split.
  { apply (mi_two _ _ I). by rewrite Hc. }
  split; [done|]. split; [done|].
  unfold destroy_members. by rewrite Hq.
Qed.

Lemma main_prints_results_witness :
  execute [PWorker 2; PMain 0; PMain 2; PMain 0; PWorker 0; PWorker 2;
           PMain 0; PWorker 2; PMain 0; PWorker 1; PWorker 3; PMain 0;
           PWorker 0; PMain 0; PWorker 0; PWorker 2; PMain 0; PMain 0;
           PMain 0; PMain 0; PWorker 2; PWorker 1; PWorker 3; PWorker 0;
           PMain 0; PMain 0; PMain 0; PMain 0; PMain 0]
          main_start []
  = Some (Program (Exited 0)
            (Pool [Returned; Returned; Returned; Returned] [] true
                  {[0 := Ready (Value 1); 1 := Ready (Value 8)]} Done 0)
            main_output,
          ev_wait 2 ++ ev_accept (PackagedTask task1 0)
          ++ [(Caller, NotifyOne)] ++ ev_accept (PackagedTask task2 1)
          ++ ev_pop 0 (PackagedTask task1 0) ++ ev_pop 2 (PackagedTask task2 1)
          ++ [(Caller, NotifyOne)]
          ++ [(Worker 2, Invoke (PackagedTask task2 1))]
          ++ ev_wait 1 ++ ev_wait 3
          ++ [(Worker 0, Invoke (PackagedTask task1 0))]
          ++ ev_wait 0 ++ ev_wait 2
          ++ ev_stop ++ [(Owner, NotifyAll)]
          ++ ev_exit 2 ++ ev_exit 1 ++ ev_exit 3 ++ ev_exit 0
          ++ [(Owner, Join 0); (Owner, Join 1); (Owner, Join 2);
              (Owner, Join 3)])
  ∧ cout (Program (Exited 0)
            (Pool [Returned; Returned; Returned; Returned] [] true
                  {[0 := Ready (Value 1); 1 := Ready (Value 8)]} Done 0)
            main_output)
    = [Str "Tasks submitted. Main thread continues."; Endl;
       Str "Result 1: "; Int 1; Endl;
       Str "Result 2: "; Int 8; Endl].
Proof.
  assert (execute
            [PWorker 2; PMain 0; PMain 2; PMain 0; PWorker 0; PWorker 2;
             PMain 0; PWorker 2; PMain 0; PWorker 1; PWorker 3; PMain 0;
             PWorker 0; PMain 0; PWorker 0; PWorker 2; PMain 0; PMain 0;
             PMain 0; PMain 0; PWorker 2; PWorker 1; PWorker 3; PWorker 0;
             PMain 0; PMain 0; PMain 0; PMain 0; PMain 0]
            main_start []
          = Some (Program (Exited 0)
                    (Pool [Returned; Returned; Returned; Returned] [] true
                          {[0 := Ready (Value 1); 1 := Ready (Value 8)]}
                          Done 0)
                    main_output,
                  ev_wait 2 ++ ev_accept (PackagedTask task1 0)
                  ++ [(Caller, NotifyOne)] ++ ev_accept (PackagedTask task2 1)
                  ++ ev_pop 0 (PackagedTask task1 0)
                  ++ ev_pop 2 (PackagedTask task2 1)
                  ++ [(Caller, NotifyOne)]
                  ++ [(Worker 2, Invoke (PackagedTask task2 1))]
                  ++ ev_wait 1 ++ ev_wait 3
                  ++ [(Worker 0, Invoke (PackagedTask task1 0))]
                  ++ ev_wait 0 ++ ev_wait 2
                  ++ ev_stop ++ [(Owner, NotifyAll)]
                  ++ ev_exit 2 ++ ev_exit 1 ++ ev_exit 3 ++ ev_exit 0
                  ++ [(Owner, Join 0); (Owner, Join 1); (Owner, Join 2);
                      (Owner, Join 3)])) as H
    by (vm_compute; reflexivity).
  split; [exact H|].
  exact (proj1 (proj2 (proj2 (proj2 (main_prints_results _ _ _ H)) 0%Z
                         eq_refl))).
Defined.

Lemma submit_enqueue_effort f s :
  effort (submit_enqueue f s).1.1 ≤ effort s + 4.
Proof.
  unfold submit_enqueue, effort, work. destruct (stop s); simpl; [lia|].
  rewrite length_app. simpl. lia.
Qed.

(** Without spurious wake-ups every step of the process uses up some of
    its budget. *)
Lemma program_step_budget l m m' ev :
  steady l → program_step l m = Some (m', ev) → budget m' < budget m.
Proof.
  unfold program_step, budget. destruct (alive (pc m)); [|done].
  destruct l as [pick|w|w]; [| |done]; intros _.
  - unfold main_step. destruct (pc m); simpl.
    + pose proof (submit_enqueue_effort task1 (the_pool m)) as He.
      destruct (submit_enqueue task1 (the_pool m)) as [[s' ev'] [e|a]];
        intros [= <- <-]; simpl in *; lia.
    + destruct (submit_notify pick (the_pool m)) as [[s' ev']|] eqn:Hq;
        [|done].
      intros [= <- <-]. simpl.
      destruct (submit_notify_frame _ _ _ _ Hq) as (_ & _ & _ & He). lia.
    + pose proof (submit_enqueue_effort task2 (the_pool m)) as He.
      destruct (submit_enqueue task2 (the_pool m)) as [[s' ev'] [e|a]];
        intros [= <- <-]; simpl in *; lia.
    + destruct (submit_notify pick (the_pool m)) as [[s' ev']|] eqn:Hq;
        [|done].
      intros [= <- <-]. simpl.
      destruct (submit_notify_frame _ _ _ _ Hq) as (_ & _ & _ & He). lia.
    + intros [= <- <-]. simpl. lia.
    + intros [= <- <-]. simpl. lia.
    + destruct (future_get future1 (heap (the_pool m))) as [[e|v]|]; [| |done];
        intros [= <- <-]; simpl; lia.
    + intros [= <- <-]. simpl. lia.
    + destruct (future_get future2 (heap (the_pool m))) as [[e|v]|]; [| |done];
        intros [= <- <-]; simpl; lia.
    + destruct (dtor_step (the_pool m)) as [[s' ev']|] eqn:Hq; [|done].
      intros [= <- <-]. simpl. pose proof (dtor_step_effort _ _ _ Hq).
      case_decide; simpl; lia.
    + done.
    + done.
  - destruct (worker_step w (the_pool m)) as [[s' ev']|] eqn:Hq; [|done].
    intros [= <- <-]. simpl.
    pose proof (own_step_effort (LWorker w) _ _ _ I Hq). lia.
Qed.

(** While [get] blocks on the future of an accepted task, some worker can
    move or a [notify_one] is still owed. *)
Lemma blocked_get_served n s tr t :
  reachable n s tr → 1 ≤ n → t ∈ enqueued tr →
  future_get (pt_state t) (heap s) = None →
  (∃ w r, worker_step w s = Some r) ∨ 0 < notifying s.
Proof.
  intros Hr Hn Ht Hg.
  destruct (decide (Exists busy (workers s))) as [Hb|Hb].
  - apply Exists_exists in Hb as (x & [w Hw]%list_elem_of_lookup & Hb).
    destruct (worker_step_enabled w s x Hw Hb) as [r Hs]. left. eauto.
  - destruct (decide (notifying s = 0)) as [Hk|Hk]; [|right; lia]. exfalso.
    destruct (quiescent_drained _ _ _ Hr Hn) as (_ & _ & _ & HP); [|done|].
    { intros x Hx Hbx. apply Hb, Exists_exists. eauto. }
    rewrite HP in Ht.
    pose proof (led_ready _ _ (reachable_ledger _ _ _ Hr) _ Ht) as Hh.
    unfold future_get in Hg. rewrite Hh in Hg. by destruct (call (pt_fn t)).
Qed.

Lemma main_no_deadlock m tr :
  reachable 4 (the_pool m) tr → main_inv m tr → pc m ≠ Exited 0 →
  ∃ l m' ev, steady l ∧ program_step l m = Some (m', ev).
Proof.
  intros Hr [I1 I2 I3 I4 I5 I6 I7 I8] Hne.
  destruct m as [p s c]. simpl in *.
  unfold program_step, main_step. simpl.
  destruct p; simpl in *.
  - exists (PMain 0). simpl.
    destruct (submit_enqueue task1 s) as [[s' ev'] [e|a]]; eauto.
  - destruct (submit_notify_enabled s) as (pick & [s' ev'] & Hs); [lia|].
    exists (PMain pick). simpl. rewrite Hs. eauto.
  - exists (PMain 0). simpl.
    destruct (submit_enqueue task2 s) as [[s' ev'] [e|a]]; eauto.
  - destruct (submit_notify_enabled s) as (pick & [s' ev'] & Hs); [lia|].
    exists (PMain pick). simpl. rewrite Hs. eauto.
  - exists (PMain 0). simpl. eauto.
  - exists (PMain 0). simpl. eauto.
  - destruct (future_get future1 (heap s)) as [[e|v]|] eqn:Hg.
    + exists (PMain 0). simpl. eauto.
    + exists (PMain 0). simpl. eauto.
    + destruct (blocked_get_served 4 s tr (PackagedTask task1 future1))
        as [(w & [s' ev'] & Hs)|Hk]; [done|lia| |done| |lia].
      * rewrite (I4 _ eq_refl). apply list_elem_of_here.
      * exists (PWorker w). simpl. rewrite Hs. eauto.
  - exists (PMain 0). simpl. eauto.
  - destruct (future_get future2 (heap s)) as [[e|v]|] eqn:Hg.
    + exists (PMain 0). simpl. eauto.
    + exists (PMain 0). simpl. eauto.
    + destruct (blocked_get_served 4 s tr (PackagedTask task2 future2))
        as [(w & [s' ev'] & Hs)|Hk]; [done|lia| |done| |lia].
      * rewrite (I4 _ eq_refl). apply list_elem_of_further, list_elem_of_here.
      * exists (PWorker w). simpl. rewrite Hs. eauto.
  - assert (dtor s ≠ Done) as Hd by (intros Hd; by apply I7 in Hd).
    destruct (shutdown_no_deadlock _ _ _ Hr Hd) as (l & s' & ev' & Hl & Hs).
    destruct l as [f|pick|w|w|]; try done; simpl in Hs.
    + exists (PWorker w). simpl. rewrite Hs. eauto.
    + exists (PMain 0). simpl. rewrite Hs. eauto.
  - by rewrite (I8 _ eq_refl) in Hne.
  - by destruct (I1 e).
Qed.

Lemma main_can_exit m tr :
  reachable 4 (the_pool m) tr → main_inv m tr →
  ∃ ls m' tr',
    Forall steady ls ∧ execute ls m tr = Some (m', tr') ∧ pc m' = Exited 0.
Proof.
  remember (budget m) as k eqn:Hk. revert m tr Hk.
  induction k as [k IH] using lt_wf_ind. intros m tr -> Hr I.
  destruct (decide (pc m = Exited 0)) as [Hd|Hd].
  - exists [], m, tr. by repeat split.
  - destruct (main_no_deadlock _ _ Hr I Hd) as (l & m1 & ev & Hl & Hs).
    destruct (IH (budget m1) (program_step_budget _ _ _ _ Hl Hs) m1 (tr ++ ev)
                 eq_refl (program_step_reachable _ _ _ _ _ _ Hr Hs)
                 (main_inv_step _ _ _ _ _ Hr I Hs))
      as (ls & m' & tr' & Hall & Hrun & Hdone).
    exists (l :: ls), m', tr'. repeat split; [by constructor| |done].
    simpl. by rewrite Hs.
Qed.

Lemma steady_run_bounded ls m tr m' tr' :
  Forall steady ls → execute ls m tr = Some (m', tr') →
  length ls + budget m' ≤ budget m.
Proof.
  intros Hall. revert m tr. induction Hall as [|l ls Hl _ IH]; intros m tr.
  - simpl. by intros [= <- <-].
  - simpl. destruct (program_step l m) as [[m1 ev]|] eqn:Hs; [|done].
    intros Hrun%IH. pose proof (program_step_budget _ _ _ _ Hl Hs). lia.
Qed.

(** X10. [main] always terminates.  In every state that the process can
    reach, as long as [main] has not returned some thread can take a step
    that is not a spurious wake-up: the main thread is never blocked for
    good in [get] or in [join].  From every such state some schedule lets
    [main] return 0; a schedule without spurious wake-ups has at most
    [budget m] steps, 30 from the start; and when such a schedule cannot be
    extended, [main] has returned 0. *)
Theorem main_terminates ls m tr :
  execute ls main_start [] = Some (m, tr) →
  (pc m ≠ Exited 0 →
   ∃ l m' ev, steady l ∧ program_step l m = Some (m', ev))
  ∧ (∃ ls' m' tr',
       Forall steady ls' ∧ execute ls' m tr = Some (m', tr')
       ∧ pc m' = Exited 0)
  ∧ (∀ ls' m' tr',
       Forall steady ls' → execute ls' m tr = Some (m', tr') →
       length ls' ≤ budget m
       ∧ ((∀ l, steady l → program_step l m' = None) → pc m' = Exited 0))
  ∧ (Forall steady ls → length ls ≤ 30).
Proof.
  intros Hrun. destruct (execute_start _ _ _ Hrun) as [Hr I].
  split; [by apply (main_no_deadlock _ tr)|].
  split; [by apply main_can_exit|].
  split.
  - intros ls' m' tr' Hall Hrun'. split.
    + pose proof (steady_run_bounded _ _ _ _ _ Hall Hrun'). lia.
    + intros Hstuck.
      destruct (execute_invariant _ _ _ _ _ Hr I Hrun') as [Hr' I'].
      destruct (decide (pc m' = Exited 0)) as [|Hne]; [done|]. exfalso.
      destruct (main_no_deadlock _ _ Hr' I' Hne) as (l & m1 & ev & Hl & Hs).
      by rewrite (Hstuck l Hl) in Hs.
  - intros Hall. pose proof (steady_run_bounded _ _ _ _ _ Hall Hrun) as Hb.
    assert (budget main_start = 30) as Hstart by reflexivity. lia.
Qed.

Lemma main_terminates_witness :
  execute [PMain 0; PMain 0; PMain 0; PMain 0; PMain 0; PMain 0]
          main_start []
  = Some (Program (AtGet1 0 1)
            (Pool [AtLock; AtLock; AtLock; AtLock]
                  [PackagedTask task1 0; PackagedTask task2 1] false
                  {[0 := Pending; 1 := Pending]} NotCalled 0)
            (take 3 main_output),
          ev_accept (PackagedTask task1 0) ++ [(Caller, NotifyOne)]
          ++ ev_accept (PackagedTask task2 1) ++ [(Caller, NotifyOne)])
  ∧ ∃ l m' ev,
      steady l
      ∧ program_step l
          (Program (AtGet1 0 1)
             (Pool [AtLock; AtLock; AtLock; AtLock]
                   [PackagedTask task1 0; PackagedTask task2 1] false
                   {[0 := Pending; 1 := Pending]} NotCalled 0)
             (take 3 main_output))
        = Some (m', ev).
Proof.
  assert (execute [PMain 0; PMain 0; PMain 0; PMain 0; PMain 0; PMain 0]
                  main_start []
          = Some (Program (AtGet1 0 1)
                    (Pool [AtLock; AtLock; AtLock; AtLock]
                          [PackagedTask task1 0; PackagedTask task2 1] false
                          {[0 := Pending; 1 := Pending]} NotCalled 0)
                    (take 3 main_output),
                  ev_accept (PackagedTask task1 0) ++ [(Caller, NotifyOne)]
                  ++ ev_accept (PackagedTask task2 1)
                  ++ [(Caller, NotifyOne)])) as H
    by (vm_compute; reflexivity).
  split; [exact H|].
  apply (proj1 (main_terminates _ _ _ H)). done.
Defined.

(** ** The order of events in a trace *)

(** Every event of a trace comes from a step taken in a reachable state,
    after the events before it. *)
Lemma event_origin n s tr tr1 e tr2 :
  reachable n s tr → tr = tr1 ++ e :: tr2 →
  ∃ s0 tr0 l s1 ev1 ev2,
    reachable n s0 tr0 ∧ step l s0 = Some (s1, ev1 ++ e :: ev2)
    ∧ tr1 = tr0 ++ ev1.
Proof.
  intros Hr. revert tr1 tr2.
  induction Hr as [|s tr l s' ev Hr IH Hs]; intros tr1 tr2 Heq.
  - by destruct tr1.
  - apply app_eq_app in Heq as [k [[-> Hk]|[-> ->]]].
    + destruct k as [|e' k]; simpl in Hk.
      * subst ev. exists s, tr1, l, s', [], tr2.
        by rewrite app_nil_r in *.
      * injection Hk as <- ->. by eapply IH.
    + by exists s, tr, l, s', k, tr2.
Qed.

Lemma notify_all_lookup ws w x :
  notify_all ws !! w = Some x →
  ws !! w = Some x ∨ (x = AtLock ∧ ws !! w = Some Waiting).
Proof.
  unfold notify_all. rewrite list_lookup_fmap.
  destruct (ws !! w) as [[| |t| |]|]; simpl; intros [= <-]; auto.
Qed.

Lemma lifecycle_init n : lifecycle (ThreadPool n) [].
Proof.
  split; simpl; try done.
  - intros w [[=] _]%lookup_replicate.
  - intros w t [[=] _]%lookup_replicate.
Qed.

Lemma lifecycle_insert ws q b h d k tr w x y ev :
  ws !! w = Some x →
  (y = Returned → (Worker w, Exit) ∈ ev) →
  (∀ t, y = Holding t → (Worker w, Pop t) ∈ ev) →
  lifecycle (Pool ws q b h d k) tr →
  ∀ q' h' k', lifecycle (Pool (<[w := y]> ws) q' b h' d k') (tr ++ ev).
Proof.
  intros Hw Hret Hhold [L1 L2 L3 L4] q' h' k'. simpl in *.
  split; simpl.
  - intros Hb. apply elem_of_app. left. auto.
  - intros w'. destruct (decide (w' = w)) as [->|Hne].
    + rewrite list_lookup_insert_eq by (by eapply lookup_lt_Some).
      intros [= ->]. apply elem_of_app. right. auto.
    + rewrite list_lookup_insert_ne by done. intros Hw'.
      apply elem_of_app. left. auto.
  - intros H1 H2. apply elem_of_app. left. auto.
  - intros w' t. destruct (decide (w' = w)) as [->|Hne].
    + rewrite list_lookup_insert_eq by (by eapply lookup_lt_Some).
      intros [= ->]. apply elem_of_app. right. auto.
    + rewrite list_lookup_insert_ne by done. intros Hw'.
      apply elem_of_app. left. eauto.
Qed.

Lemma lifecycle_transition s tr ev s' :
  lifecycle s tr → transition s ev s' → lifecycle s' (tr ++ ev).
Proof.
  intros LC T. destruct T.
  - destruct LC as [L1 L2 L3 L4].
    split; simpl in *; intros; apply elem_of_app; left; eauto.
  - destruct LC as [L1 L2 L3 L4].
    split; simpl in *; intros; try done; apply elem_of_app; left; eauto.
  - destruct (notify_one_cases _ _ _ H) as [[Hp ->]|[_ ->]].
    + by eapply lifecycle_insert.
    + destruct LC as [L1 L2 L3 L4].
      split; simpl in *; intros; apply elem_of_app; left; eauto.
  - by eapply lifecycle_insert.
  - eapply lifecycle_insert; [done| |done|done].
    intros _. unfold ev_exit. apply list_elem_of_further, list_elem_of_further,
      list_elem_of_here.
  - eapply lifecycle_insert; [done|done| |done].
    intros t0 [= <-]. unfold ev_pop. apply list_elem_of_further,
      list_elem_of_here.
  - by eapply lifecycle_insert.
  - by eapply lifecycle_insert.
  - by eapply lifecycle_insert.
  - destruct LC as [L1 L2 L3 L4]. split; simpl in *; try done.
    + intros _. apply elem_of_app. right. unfold ev_stop.
      apply list_elem_of_further, list_elem_of_here.
    + intros; apply elem_of_app; left; eauto.
    + intros; apply elem_of_app; left; eauto.
  - destruct LC as [L1 L2 L3 L4]. split; simpl in *.
    + intros; apply elem_of_app; left; eauto.
    + intros w Hw. apply (proj1 (notify_all_returned _ _)) in Hw.
      apply elem_of_app; left; eauto.
    + intros _ _. apply elem_of_app. right. apply list_elem_of_here.
    + intros w t [Hw|[[=] _]]%notify_all_lookup.
      apply elem_of_app; left; eauto.
  - destruct LC as [L1 L2 L3 L4].
    split; simpl in *; intros; apply elem_of_app; left; eauto.
  - destruct LC as [L1 L2 L3 L4].
    split; simpl in *; intros; apply elem_of_app; left; eauto.
Qed.

Lemma reachable_lifecycle n s tr : reachable n s tr → lifecycle s tr.
Proof.
  induction 1 as [|s tr l s' ev Hr IH Hs]; [apply lifecycle_init|].
  eapply lifecycle_transition; [done|]. by eapply step_transition.
Qed.

Ltac origin Heq ev1 :=
  destruct ev1 as [|? ev1]; simpl in Heq;
  [ simplify_eq; simpl; eauto 10
  | first [ done | injection Heq as ? Heq; subst; origin Heq ev1 ] ].

(** What the state was when a step produced an event, and what the step
    did before it. *)
Lemma transition_origin s ev s' ev1 th a ev2 :
  transition s ev s' → ev = ev1 ++ (th, a) :: ev2 →
  match a with
  | Emplace t => th = Caller ∧ ev1 = [(Caller, Lock)] ∧ stop s = false
  | Pop t =>
      ∃ w q, th = Worker w ∧ ev1 = [(Worker w, Lock)] ∧ tasks s = t :: q
  | Invoke t => ∃ w, th = Worker w ∧ ev1 = [] ∧ workers s !! w = Some (Holding t)
  | Wait =>
      ∃ w, th = Worker w ∧ ev1 = [(Worker w, Lock)] ∧ stop s = false
           ∧ tasks s = []
  | Exit =>
      ∃ w, th = Worker w ∧ ev1 = [(Worker w, Lock); (Worker w, Unlock)]
           ∧ stop s = true ∧ tasks s = []
  | NotifyOne => th = Caller ∧ ev1 = [] ∧ 0 < notifying s
  | SetStop => th = Owner ∧ ev1 = [(Owner, Lock)] ∧ dtor s = NotCalled
  | NotifyAll => th = Owner ∧ ev1 = [] ∧ dtor s = StopSet
  | Join w =>
      th = Owner ∧ ev1 = [] ∧ dtor s = Joining w
      ∧ workers s !! w = Some Returned
  | Lock | Unlock => True
  end.
Proof.
  destruct 1; intros Heq;
    unfold ev_reject, ev_accept, ev_wait, ev_exit, ev_pop, ev_stop in Heq;
    symmetry in Heq; origin Heq ev1.
  - repeat split; try done. lia.
Qed.

Lemma step_origin n s tr tr1 th a tr2 :
  reachable n s tr → tr = tr1 ++ (th, a) :: tr2 →
  ∃ s0 tr0 s1 ev ev1 ev2,
    reachable n s0 tr0 ∧ transition s0 ev s1 ∧ ev = ev1 ++ (th, a) :: ev2
    ∧ tr1 = tr0 ++ ev1.
Proof.
  intros Hr Heq.
  destruct (event_origin _ _ _ _ _ _ Hr Heq)
    as (s0 & tr0 & l & s1 & ev1 & ev2 & Hr0 & Hs & ->).
  exists s0, tr0, s1, (ev1 ++ (th, a) :: ev2), ev1, ev2.
  repeat split; [done|]. by eapply step_transition.
Qed.

Lemma emplace_by_caller n s tr th t :
  reachable n s tr → (th, Emplace t) ∈ tr → th = Caller.
Proof.
  intros Hr (tr1 & tr2 & Heq)%list_elem_of_split.
  destruct (step_origin _ _ _ _ _ _ _ Hr Heq)
    as (s0 & tr0 & s1 & ev & ev1 & ev2 & Hr0 & T & Hev & ->).
  by destruct (transition_origin _ _ _ _ _ _ _ T Hev) as (-> & _).
Qed.

Lemma pop_after_emplace n s tr tr1 th t tr2 :
  reachable n s tr → tr = tr1 ++ (th, Pop t) :: tr2 →
  ∃ w, th = Worker w ∧ (Caller, Emplace t) ∈ tr1.
Proof.
  intros Hr Heq.
  destruct (step_origin _ _ _ _ _ _ _ Hr Heq)
    as (s0 & tr0 & s1 & ev & ev1 & ev2 & Hr0 & T & Hev & ->).
  destruct (transition_origin _ _ _ _ _ _ _ T Hev) as (w & q & -> & -> & Hq).
  exists w. split; [done|]. apply elem_of_app. left.
  assert (t ∈ enqueued tr0) as Ht.
  { eapply queued_enqueued; [by eapply reachable_ledger|].
    rewrite Hq. apply list_elem_of_here. }
  apply list_elem_of_omap in Ht as ([th' a] & Hin & Ha).
  unfold emplaced in Ha. simpl in Ha. destruct a; try done.
  injection Ha as ->.
  by rewrite (emplace_by_caller _ _ _ _ _ Hr0 Hin) in Hin.
Qed.

(** X11. The life of a task is ordered.  In the trace of every run, the
    invocation of a task is made by a worker, comes after that same worker
    has popped the task from the queue, and this pop comes after a caller
    of [submit] has pushed the task; only callers push and only workers
    pop and invoke. *)
Theorem task_events_ordered n ls s tr :
  run ls (ThreadPool n) [] = Some (s, tr) →
  (∀ tr1 th t tr2,
     tr = tr1 ++ (th, Invoke t) :: tr2 →
     ∃ w tra trb,
       th = Worker w ∧ tr1 = tra ++ (Worker w, Pop t) :: trb
       ∧ (Caller, Emplace t) ∈ tra)
  ∧ (∀ tr1 th t tr2,
       tr = tr1 ++ (th, Pop t) :: tr2 →
       ∃ w, th = Worker w ∧ (Caller, Emplace t) ∈ tr1)
  ∧ (∀ th t, (th, Emplace t) ∈ tr → th = Caller).
Proof.
  intros Hr%run_start_reachable. split; [|split].
  - intros tr1 th t tr2 Heq.
    destruct (step_origin _ _ _ _ _ _ _ Hr Heq)
      as (s0 & tr0 & s1 & ev & ev1 & ev2 & Hr0 & T & Hev & ->).
    destruct (transition_origin _ _ _ _ _ _ _ T Hev) as (w & -> & -> & Hw).
    rewrite app_nil_r.
    pose proof (lc_hand _ _ (reachable_lifecycle _ _ _ Hr0) _ _ Hw) as Hin.
    apply list_elem_of_split in Hin as (tra & trb & Htr).
    destruct (pop_after_emplace _ _ _ _ _ _ _ Hr0 Htr) as (w' & _ & He).
    by exists w, tra, trb.
  - intros tr1 th t tr2. by apply (pop_after_emplace n s).
  - intros th t. by apply (emplace_by_caller n s).
Qed.

Lemma task_events_ordered_witness :
  run [LSubmit (Returns 1); LNotify 0; LWorker 0; LWorker 0]
      (ThreadPool 1) []
  = Some (Pool [AtLock] [] false {[0 := Ready (Value 1)]} NotCalled 0,
          ev_accept (PackagedTask (Returns 1) 0) ++ [(Caller, NotifyOne)]
          ++ ev_pop 0 (PackagedTask (Returns 1) 0)
          ++ [(Worker 0, Invoke (PackagedTask (Returns 1) 0))])
  ∧ ∃ w, (Worker 0 = Worker w)
         ∧ (Caller, Emplace (PackagedTask (Returns 1) 0))
           ∈ ev_accept (PackagedTask (Returns 1) 0) ++ [(Caller, NotifyOne)]
             ++ [(Worker 0, Lock)].
Proof.
  assert (run [LSubmit (Returns 1); LNotify 0; LWorker 0; LWorker 0]
              (ThreadPool 1) []
          = Some (Pool [AtLock] [] false {[0 := Ready (Value 1)]} NotCalled 0,
                  ev_accept (PackagedTask (Returns 1) 0)
                  ++ [(Caller, NotifyOne)]
                  ++ ev_pop 0 (PackagedTask (Returns 1) 0)
                  ++ [(Worker 0, Invoke (PackagedTask (Returns 1) 0))])) as H
    by (vm_compute; reflexivity).
  split; [exact H|].
  exact (proj1 (proj2 (task_events_ordered 1 _ _ _ H))
           (ev_accept (PackagedTask (Returns 1) 0) ++ [(Caller, NotifyOne)]
            ++ [(Worker 0, Lock)])
           (Worker 0) (PackagedTask (Returns 1) 0)
           [(Worker 0, Unlock);
            (Worker 0, Invoke (PackagedTask (Returns 1) 0))]
           eq_refl).
Defined.

Lemma occurrences_none a tr th :
  occurrences a tr = 0 → (th, a) ∉ tr.
Proof.
  unfold occurrences. intros Hlen Hin.
  assert ((th, a) ∈ filter (λ e : event, e.2 = a) tr) as Hf
    by (by apply list_elem_of_filter).
  destruct (filter _ tr); [by apply elem_of_nil in Hf | done].
Qed.

(** While [stop] is clear the trace has no write of it. *)
Lemma open_no_stop n s tr th :
  reachable n s tr → stop s = false → (th, SetStop) ∉ tr.
Proof.
  intros Hr Hb. apply occurrences_none.
  rewrite (tal_stop _ _ (reachable_tally _ _ _ Hr)).
  case_decide as Hd; [done|].
  apply (ctl_stop _ _ (reachable_control _ _ _ Hr)) in Hd. congruence.
Qed.

Lemma not_elem_of_locks (tr : list event) th a e0 :
  (th, a) ∉ tr → a ≠ Lock → e0.2 = Lock → (th, a) ∉ tr ++ [e0].
Proof.
  intros Hn Ha He [Hin|Hin%list_elem_of_singleton]%elem_of_app; [done|].
  subst e0. done.
Qed.

(** X12. Shutdown is ordered.  In the trace of every run: a worker
    returns from its loop only after the destructor has set [stop]; the
    broadcast is made by the destroying thread after it has set [stop];
    [join] on worker [w] is called by the destroying thread and returns
    only after worker [w] has returned and after the broadcast; and once
    [stop] has been set no task is pushed and no worker blocks in
    [wait]. *)
Theorem shutdown_events_ordered n ls s tr :
  run ls (ThreadPool n) [] = Some (s, tr) →
  (∀ tr1 th tr2,
     tr = tr1 ++ (th, Exit) :: tr2 →
     ∃ w, th = Worker w ∧ (Owner, SetStop) ∈ tr1)
  ∧ (∀ tr1 th tr2,
       tr = tr1 ++ (th, NotifyAll) :: tr2 →
       th = Owner ∧ (Owner, SetStop) ∈ tr1)
  ∧ (∀ tr1 th w tr2,
       tr = tr1 ++ (th, Join w) :: tr2 →
       th = Owner ∧ (Worker w, Exit) ∈ tr1 ∧ (Owner, NotifyAll) ∈ tr1)
  ∧ (∀ tr1 th t tr2,
       tr = tr1 ++ (th, Emplace t) :: tr2 → ∀ th', (th', SetStop) ∉ tr1)
  ∧ (∀ tr1 th tr2,
       tr = tr1 ++ (th, Wait) :: tr2 → ∀ th', (th', SetStop) ∉ tr1).
Proof.
  intros Hr%run_start_reachable. split; [|split; [|split; [|split]]].
  - intros tr1 th tr2 Heq.
    destruct (step_origin _ _ _ _ _ _ _ Hr Heq)
      as (s0 & tr0 & s1 & ev & ev1 & ev2 & Hr0 & T & Hev & ->).
    destruct (transition_origin _ _ _ _ _ _ _ T Hev) as (w & -> & -> & Hb & _).
    exists w. split; [done|]. apply elem_of_app. left.
    by apply (lc_stop _ _ (reachable_lifecycle _ _ _ Hr0)).
  - intros tr1 th tr2 Heq.
    destruct (step_origin _ _ _ _ _ _ _ Hr Heq)
      as (s0 & tr0 & s1 & ev & ev1 & ev2 & Hr0 & T & Hev & ->).
    destruct (transition_origin _ _ _ _ _ _ _ T Hev) as (-> & -> & Hd).
    split; [done|]. rewrite app_nil_r.
    apply (lc_stop _ _ (reachable_lifecycle _ _ _ Hr0)).
    apply (ctl_stop _ _ (reachable_control _ _ _ Hr0)). by rewrite Hd.
  - intros tr1 th w tr2 Heq.
    destruct (step_origin _ _ _ _ _ _ _ Hr Heq)
      as (s0 & tr0 & s1 & ev & ev1 & ev2 & Hr0 & T & Hev & ->).
    destruct (transition_origin _ _ _ _ _ _ _ T Hev) as (-> & -> & Hd & Hw).
    split; [done|]. rewrite app_nil_r.
    pose proof (reachable_lifecycle _ _ _ Hr0) as LC. split.
    + by apply (lc_exit _ _ LC).
    + apply (lc_bcast _ _ LC); by rewrite Hd.
  - intros tr1 th t tr2 Heq th'.
    destruct (step_origin _ _ _ _ _ _ _ Hr Heq)
      as (s0 & tr0 & s1 & ev & ev1 & ev2 & Hr0 & T & Hev & ->).
    destruct (transition_origin _ _ _ _ _ _ _ T Hev) as (-> & -> & Hb).
    apply not_elem_of_locks; [|done|done]. by eapply open_no_stop.
  - intros tr1 th tr2 Heq th'.
    destruct (step_origin _ _ _ _ _ _ _ Hr Heq)
      as (s0 & tr0 & s1 & ev & ev1 & ev2 & Hr0 & T & Hev & ->).
    destruct (transition_origin _ _ _ _ _ _ _ T Hev) as (w & -> & -> & Hb & _).
    apply not_elem_of_locks; [|done|done]. by eapply open_no_stop.
Qed.

Lemma shutdown_events_ordered_witness :
  run [LDtor; LDtor; LWorker 0; LDtor] (ThreadPool 1) []
  = Some (Pool [Returned] [] true ∅ (Joining 1) 0,
          ev_stop ++ [(Owner, NotifyAll)] ++ ev_exit 0 ++ [(Owner, Join 0)])
  ∧ (Owner = Owner
     ∧ (Worker 0, Exit) ∈ ev_stop ++ [(Owner, NotifyAll)] ++ ev_exit 0
     ∧ (Owner, NotifyAll) ∈ ev_stop ++ [(Owner, NotifyAll)] ++ ev_exit 0).
Proof.
  assert (run [LDtor; LDtor; LWorker 0; LDtor] (ThreadPool 1) []
          = Some (Pool [Returned] [] true ∅ (Joining 1) 0,
                  ev_stop ++ [(Owner, NotifyAll)] ++ ev_exit 0
                  ++ [(Owner, Join 0)])) as H
    by (vm_compute; reflexivity).
  split; [exact H|].
  exact (proj1 (proj2 (proj2 (shutdown_events_ordered 1 _ _ _ H)))
           (ev_stop ++ [(Owner, NotifyAll)] ++ ev_exit 0)
           Owner 0 [] eq_refl).
Defined.

(** ** Parallelism *)

(** While nobody waits, any number of tasks can be submitted. *)
Lemma submit_many k s tr :
  stop s = false → Waiting ∉ workers s →
  ∃ ls s' tr',
    run ls s tr = Some (s', tr') ∧ workers s' = workers s ∧ stop s' = false
    ∧ length (tasks s') = length (tasks s) + k.
Proof.
  revert s tr. induction k as [|k IH]; intros s tr Hb Hw.
  - exists [], s, tr. repeat split; try done; lia.
  - pose (s1 := Pool (workers s)
                  (tasks s ++ [PackagedTask (Returns 0)
                                 (fresh (dom (heap s)))])
                  false (<[fresh (dom (heap s)) := Pending]> (heap s))
                  (dtor s) (notifying s)).
    destruct (IH s1 (tr ++ ev_accept (PackagedTask (Returns 0)
                                        (fresh (dom (heap s))))
                     ++ [(Caller, NotifyOne)]) eq_refl Hw)
      as (ls & s' & tr' & Hrun & Hws & Hb' & Hlen).
    exists (LSubmit (Returns 0) :: LNotify 0 :: ls), s', tr'.
    split; [|split; [done|split; [done|]]].
    + simpl. rewrite (submit_enqueue_open _ _ Hb). simpl.
      unfold submit_notify. simpl. rewrite (notify_one_no_waiter _ _ Hw).
      simpl. by rewrite <- (assoc_L (++)).
    + rewrite Hlen. simpl. rewrite length_app. simpl. lia.
Qed.

(** Workers at the top of their loop each take a task when there are
    enough in the queue. *)
Lemma take_all m hs s tr :
  workers s = hs ++ replicate m AtLock → m ≤ length (tasks s) →
  (∀ x, x ∈ hs → ∃ t, x = Holding t) →
  ∃ ls s' tr',
    run ls s tr = Some (s', tr') ∧ length (workers s') = length hs + m
    ∧ (∀ x, x ∈ workers s' → ∃ t, x = Holding t) ∧ stop s' = stop s.
Proof.
  revert hs s tr. induction m as [|m IH]; intros hs s tr Hws Hlen Hhs.
  - exists [], s, tr. rewrite Hws. simpl. rewrite app_nil_r.
    repeat split; try done; lia.
  - destruct (tasks s) as [|t q] eqn:Hq; simpl in Hlen; [lia|].
    assert (workers s !! length hs = Some AtLock) as Hw.
    { rewrite Hws. by rewrite lookup_app_r, Nat.sub_diag by lia. }
    pose (s1 := set_workers (<[length hs := Holding t]> (workers s))
                  (set_tasks q s)).
    assert (worker_step (length hs) s = Some (s1, ev_pop (length hs) t)) as Hs.
    { unfold worker_step. rewrite Hw, Hq. simpl.
      by rewrite orb_true_r, andb_false_r. }
    destruct (IH (hs ++ [Holding t]) s1 (tr ++ ev_pop (length hs) t))
      as (ls & s' & tr' & Hrun & Hlen' & Hall & Hb).
    + unfold s1. simpl. rewrite Hws.
      rewrite insert_app_r_alt, Nat.sub_diag by lia. simpl.
      by rewrite <- (assoc_L (++)).
    + unfold s1. simpl. lia.
    + intros x [Hx| ->%list_elem_of_singleton]%elem_of_app; eauto.
    + exists (LWorker (length hs) :: ls), s', tr'.
      split; [|split; [|done]].
      * simpl. by rewrite Hs.
      * rewrite Hlen', length_app. simpl. lia.
Qed.

Lemma holding_all ws :
  (∀ x, x ∈ ws → ∃ t, x = Holding t) → length (holding ws) = length ws.
Proof.
  unfold holding. induction ws as [|x ws IH]; [done|]. intros Hall.
  destruct (Hall x) as [t ->]; [apply list_elem_of_here|]. csimpl.
  f_equal. apply IH. intros y Hy. apply Hall. by apply list_elem_of_further.
Qed.

(** X13. The pool does run tasks in parallel.  For every number of
    workers some run leads to a state, with [stop] still clear, in which
    every one of the [num_threads] workers has taken a task of its own off
    the queue and is about to invoke it; together with the bound of X6,
    [num_threads] is exactly the largest number of tasks in flight. *)
Theorem full_parallelism n :
  ∃ ls s tr,
    run ls (ThreadPool n) [] = Some (s, tr)
    ∧ stop s = false
    ∧ (∀ x, x ∈ workers s → ∃ t, x = Holding t)
    ∧ length (holding (workers s)) = n
    ∧ NoDup (holding (workers s))
    ∧ ∀ ls' s' tr',
        run ls' s tr = Some (s', tr') → length (holding (workers s')) ≤ n.
Proof.
  destruct (submit_many n (ThreadPool n) []) as (ls1 & s1 & tr1 & H1 & Hws & Hb & Hq).
  { done. }
  { simpl. intros [[=] _]%elem_of_replicate. }
  destruct (take_all n [] s1 tr1) as (ls2 & s & tr & H2 & Hlen & Hall & Hb').
  { by rewrite Hws. }
  { rewrite Hq. simpl. lia. }
  { by intros x ?%elem_of_nil. }
  assert (run (ls1 ++ ls2) (ThreadPool n) [] = Some (s, tr)) as Hrun
    by (by rewrite run_app, H1).
  pose proof (run_start_reachable _ _ _ _ Hrun) as Hr.
  exists (ls1 ++ ls2), s, tr. split; [done|]. split; [congruence|].
  split; [done|]. split; [|split].
  - by rewrite (holding_all _ Hall).
  - pose proof (ledger_distinct _ _ (reachable_ledger _ _ _ Hr)) as HN.
    apply NoDup_fmap_1 in HN.
    by apply NoDup_app in HN as (_ & _ & [? _]%NoDup_app).
  - intros ls' s' tr' Hrun'.
    pose proof (run_reachable _ _ _ _ _ _ Hr Hrun') as Hr'.
    rewrite <- (ctl_size _ _ (reachable_control _ _ _ Hr')).
    apply length_holding.
Qed.
